(** * The emoji-list generator ([generate/generate.go]) and its cached variants

    A shallow embedding of the Go program that builds the emoji list from the
    Unicode emoji tables and the CLDR annotation and collation data, together
    with the parts of the Go standard library the program calls
    ([unicode/utf8], [strings], [strconv]).

    Go strings are immutable byte sequences: they are modelled as
    [list ascii].  Go's [int], [int64] and [rune] are modelled as [Z]; where
    the program does arithmetic on them the fixed-width wrap-around is written
    out ([wrap64]). *)

From Stdlib Require Import ZArith Ascii List Lia Bool Permutation.
From stdpp Require Import gmap strings list sorting.

Abbreviation gostring := (list ascii).

(** A literal of the Go source. *)
Definition str (s : string) : gostring := String.list_ascii_of_string s.

(** The value of a byte, and Go's [byte(x)] conversion (truncation to 8 bits). *)
Definition byteZ (c : ascii) : Z := Z.of_N (N_of_ascii c).
Definition byte (z : Z) : ascii := ascii_of_N (Z.to_N (z mod 256)).

(** [s[i]] for an index known to be in range. *)
Definition byteAt (s : gostring) (i : nat) : Z := byteZ (nth i s zero).

(** Two's-complement wrap-around of a 64-bit [int]. *)
Definition wrap64 (z : Z) : Z := (z + 2 ^ 63) mod 2 ^ 64 - 2 ^ 63.
Definition maxInt : Z := 2 ^ 63 - 1.

(** ** Package [unicode/utf8] *)
Module utf8.

Definition RuneError : Z := 0xFFFD.
Definition RuneSelf : Z := 0x80.
Definition MaxRune : Z := 0x10FFFF.
Definition UTFMax : Z := 4.
Definition surrogateMin : Z := 0xD800.
Definition surrogateMax : Z := 0xDFFF.
Definition maskx : Z := 0x3F.
Definition mask2 : Z := 0x1F.
Definition mask3 : Z := 0x0F.
Definition mask4 : Z := 0x07.
Definition locb : Z := 0x80.
Definition hicb : Z := 0xBF.

(** The [first] table joined with [acceptRanges]: what the first byte of a
    sequence announces. *)
Inductive firstInfo :=
| AS                                   (* ASCII: size 1 *)
| XX                                   (* invalid: size 1 *)
| Lead (sz : nat) (lo hi : Z).         (* size and accepted second byte *)

Definition first (s0 : Z) : firstInfo :=
  if (s0 <? 0x80)%Z then AS
  else if (s0 <? 0xC2)%Z then XX
  else if (s0 <? 0xE0)%Z then Lead 2 locb hicb
  else if (s0 =? 0xE0)%Z then Lead 3 0xA0 hicb
  else if (s0 <? 0xED)%Z then Lead 3 locb hicb
  else if (s0 =? 0xED)%Z then Lead 3 locb 0x9F
  else if (s0 <? 0xF0)%Z then Lead 3 locb hicb
  else if (s0 =? 0xF0)%Z then Lead 4 0x90 hicb
  else if (s0 <? 0xF4)%Z then Lead 4 locb hicb
  else if (s0 =? 0xF4)%Z then Lead 4 locb 0x8F
  else XX.

Definition DecodeRuneInString (s : gostring) : Z * nat :=
  match s with
  | [] => (RuneError, 0%nat)
  | c0 :: _ =>
    let s0 := byteZ c0 in
    match first s0 with
    | AS => (s0, 1%nat)
    | XX => (RuneError, 1%nat)
    | Lead sz lo hi =>
      if Nat.ltb (length s) sz then (RuneError, 1%nat) else
      let s1 := byteAt s 1 in
      if (s1 <? lo)%Z || (hi <? s1)%Z then (RuneError, 1%nat) else
      if Nat.leb sz 2 then
        (Z.lor (Z.shiftl (Z.land s0 mask2) 6) (Z.land s1 maskx), 2%nat)
      else
      let s2 := byteAt s 2 in
      if (s2 <? locb)%Z || (hicb <? s2)%Z then (RuneError, 1%nat) else
      if Nat.leb sz 3 then
        (Z.lor (Z.lor (Z.shiftl (Z.land s0 mask3) 12)
                      (Z.shiftl (Z.land s1 maskx) 6))
               (Z.land s2 maskx), 3%nat)
      else
      let s3 := byteAt s 3 in
      if (s3 <? locb)%Z || (hicb <? s3)%Z then (RuneError, 1%nat) else
      (Z.lor (Z.lor (Z.lor (Z.shiftl (Z.land s0 mask4) 18)
                           (Z.shiftl (Z.land s1 maskx) 12))
                    (Z.shiftl (Z.land s2 maskx) 6))
             (Z.land s3 maskx), 4%nat)
    end
  end.

Definition RuneStart (b : Z) : bool := negb (Z.land b 0xC0 =? 0x80)%Z.

(** The backward scan of [DecodeLastRuneInString]:
    [for start--; start >= lim; start-- { if RuneStart(s[start]) { break } }].
    It looks at no more than [UTFMax - 1] bytes. *)
Fixpoint scanBack (n : nat) (s : gostring) (start lim : Z) : Z :=
  match n with
  | O => start
  | S k =>
    if (start <? lim)%Z then start
    else if RuneStart (byteAt s (Z.to_nat start)) then start
    else scanBack k s (start - 1) lim
  end.

Definition DecodeLastRuneInString (s : gostring) : Z * nat :=
  let end_ := Z.of_nat (length s) in
  if (end_ =? 0)%Z then (RuneError, 0%nat) else
  let start := (end_ - 1)%Z in
  let r := byteAt s (Z.to_nat start) in
  if (r <? RuneSelf)%Z then (r, 1%nat) else
  let lim := (end_ - UTFMax)%Z in
  let lim := if (lim <? 0)%Z then 0%Z else lim in
  let start := scanBack 4 s (start - 1) lim in
  let start := if (start <? 0)%Z then 0%Z else start in
  let '(r, size) := DecodeRuneInString (drop (Z.to_nat start) s) in
  if negb (start + Z.of_nat size =? end_)%Z then (RuneError, 1%nat)
  else (r, size).

(** [string([]rune{r})] for one rune, as [utf8.AppendRune] and the runtime's
    [encoderune] do it: an invalid rune is written as U+FFFD. *)
Definition encode3 (r : Z) : gostring :=
  [byte (Z.lor 0xE0 (Z.shiftr r 12));
   byte (Z.lor 0x80 (Z.land (Z.shiftr r 6) maskx));
   byte (Z.lor 0x80 (Z.land r maskx))].

Definition encodeRune (r : Z) : gostring :=
  if (0 <=? r)%Z && (r <=? 0x7F)%Z then [byte r]
  else if (0 <=? r)%Z && (r <=? 0x7FF)%Z then
    [byte (Z.lor 0xC0 (Z.shiftr r 6)); byte (Z.lor 0x80 (Z.land r maskx))]
  else if (r <? 0)%Z || (MaxRune <? r)%Z
          || ((surrogateMin <=? r)%Z && (r <=? surrogateMax)%Z) then
    encode3 RuneError
  else if (r <=? 0xFFFF)%Z then encode3 r
  else
    [byte (Z.lor 0xF0 (Z.shiftr r 18));
     byte (Z.lor 0x80 (Z.land (Z.shiftr r 12) maskx));
     byte (Z.lor 0x80 (Z.land (Z.shiftr r 6) maskx));
     byte (Z.lor 0x80 (Z.land r maskx))].

(** [string(rs)] for a rune slice. *)
Definition encodeRunes (rs : list Z) : gostring := concat (map encodeRune rs).

(** [for i, r := range s]: the runes of [s] in order, each with the bytes it
    was decoded from.  [skip] counts the bytes still belonging to the rune
    decoded last. *)
Fixpoint rangeFrom (skip : nat) (s : gostring) : list (Z * gostring) :=
  match s with
  | [] => []
  | _ :: s' =>
    match skip with
    | S k => rangeFrom k s'
    | O =>
      let '(r, size) := DecodeRuneInString s in
      (r, take size s) :: rangeFrom (size - 1) s'
    end
  end.

Definition range (s : gostring) : list (Z * gostring) := rangeFrom 0 s.

End utf8.

(** ** Package [unicode] *)
Module unicode.

(** [unicode.IsSpace]: the Latin-1 table and the White_Space property. *)
Definition IsSpace (r : Z) : bool :=
  ((0x09 <=? r)%Z && (r <=? 0x0D)%Z) || (r =? 0x20)%Z || (r =? 0x85)%Z
  || (r =? 0xA0)%Z || (r =? 0x1680)%Z
  || ((0x2000 <=? r)%Z && (r <=? 0x200A)%Z)
  || (r =? 0x2028)%Z || (r =? 0x2029)%Z || (r =? 0x202F)%Z
  || (r =? 0x205F)%Z || (r =? 0x3000)%Z.

End unicode.

(** ** Package [strings] *)
Module strings.

Fixpoint HasPrefix (s prefix : gostring) : bool :=
  match prefix, s with
  | [], _ => true
  | p :: prefix', c :: s' => Ascii.eqb p c && HasPrefix s' prefix'
  | _ :: _, [] => false
  end.

(** [strings.Index]: the position of the first instance of [sep]. *)
Fixpoint Index (s sep : gostring) : option nat :=
  if HasPrefix s sep then Some 0%nat
  else match s with
       | [] => None
       | _ :: s' => S <$> Index s' sep
       end.

Definition Contains (s substr : gostring) : bool :=
  match Index s substr with Some _ => true | None => false end.

(** [strings.Cut]: [before, after, found]. *)
Definition Cut (s sep : gostring) : gostring * gostring * bool :=
  match Index s sep with
  | Some i => (take i s, drop (i + length sep) s, true)
  | None => (s, [], false)
  end.

(** The loop of [genSplit] for a non-empty separator: cut at the first
    instance of [sep] at most [n] times. *)
Fixpoint genSplit (n : nat) (s sep : gostring) : list gostring :=
  match n with
  | O => [s]
  | S k =>
    match Index s sep with
    | Some m => take m s :: genSplit k (drop (m + length sep) s) sep
    | None => [s]
    end
  end.

(** [strings.Split(s, sep)] for non-empty [sep]: [genSplit] runs
    [Count(s, sep)] times, which is at most [len(s)], and stops at the first
    failed [Index]. *)
Definition Split (s sep : gostring) : list gostring :=
  genSplit (length s) s sep.

(** [strings.SplitN(s, sep, n)] for [n > 0] and non-empty [sep]; [n] is
    clamped to [len(s) + 1]. *)
Definition SplitN (s sep : gostring) (n : nat) : list gostring :=
  genSplit (Nat.min n (length s + 1) - 1) s sep.

(** [strings.ReplaceAll(s, old, new)] for non-empty [old]: the instances
    are found left to right, each search starting after the last match. *)
Fixpoint replaceLoop (n : nat) (s old new : gostring) : gostring :=
  match n with
  | O => s
  | S k =>
    match Index s old with
    | Some j => take j s ++ new ++ replaceLoop k (drop (j + length old) s) old new
    | None => s
    end
  end.

Definition ReplaceAll (s old new : gostring) : gostring :=
  replaceLoop (length s) s old new.

Fixpoint Join (elems : list gostring) (sep : gostring) : gostring :=
  match elems with
  | [] => []
  | [e] => e
  | e :: rest => e ++ sep ++ Join rest sep
  end.

(** [strings.Compare]: lexicographic comparison of the bytes. *)
Fixpoint Compare (a b : gostring) : Z :=
  match a, b with
  | [], [] => 0
  | [], _ :: _ => -1
  | _ :: _, [] => 1
  | x :: a', y :: b' =>
    if (byteZ x <? byteZ y)%Z then -1
    else if (byteZ y <? byteZ x)%Z then 1
    else Compare a' b'
  end.

(** [indexFunc]: the byte offset of the first rune [r] with
    [f r = truth]. *)
Fixpoint indexFuncFrom (f : Z → bool) (truth : bool) (i : nat)
    (rs : list (Z * gostring)) : option nat :=
  match rs with
  | [] => None
  | (r, bs) :: rest =>
    if Bool.eqb (f r) truth then Some i
    else indexFuncFrom f truth (i + length bs) rest
  end.

Definition indexFunc (s : gostring) (f : Z → bool) (truth : bool) : option nat :=
  indexFuncFrom f truth 0 (utf8.range s).

(** [lastIndexFunc]: the same from the end; [n] bounds the iterations by the
    length of the string. *)
Fixpoint lastIndexFuncFrom (f : Z → bool) (truth : bool) (n : nat)
    (s : gostring) : option nat :=
  match n with
  | O => None
  | S k =>
    match s with
    | [] => None
    | _ :: _ =>
      let '(r, size) := utf8.DecodeLastRuneInString s in
      let i := (length s - size)%nat in
      if Bool.eqb (f r) truth then Some i
      else lastIndexFuncFrom f truth k (take i s)
    end
  end.

Definition lastIndexFunc (s : gostring) (f : Z → bool) (truth : bool) : option nat :=
  lastIndexFuncFrom f truth (length s) s.

Definition TrimLeftFunc (s : gostring) (f : Z → bool) : gostring :=
  match indexFunc s f false with
  | None => []
  | Some i => drop i s
  end.

Definition TrimRightFunc (s : gostring) (f : Z → bool) : gostring :=
  match lastIndexFunc s f false with
  | Some i =>
    if (utf8.RuneSelf <=? byteAt s i)%Z then
      take (i + snd (utf8.DecodeRuneInString (drop i s))) s
    else take (i + 1) s
  | None => []
  end.

(** [strings.TrimSpace]; its ASCII fast path computes the same slice as the
    rune-wise trimming it falls back to. *)
Definition TrimSpace (s : gostring) : gostring :=
  TrimRightFunc (TrimLeftFunc s unicode.IsSpace) unicode.IsSpace.

(** [strings.FieldsFunc]: the maximal runs of runes that do not satisfy
    [f].  [cur] is the open field ([start >= 0] in the source), if any. *)
Fixpoint fieldsFrom (f : Z → bool) (cur : option gostring)
    (rs : list (Z * gostring)) : list gostring :=
  match rs with
  | [] => match cur with Some w => [w] | None => [] end
  | (r, bs) :: rest =>
    if f r then
      match cur with
      | Some w => w :: fieldsFrom f None rest
      | None => fieldsFrom f None rest
      end
    else
      match cur with
      | Some w => fieldsFrom f (Some (w ++ bs)) rest
      | None => fieldsFrom f (Some bs) rest
      end
  end.

Definition FieldsFunc (s : gostring) (f : Z → bool) : list gostring :=
  fieldsFrom f None (utf8.range s).

End strings.

(** ** Package [strconv] *)
Module strconv.

Inductive NumError := ErrSyntax | ErrRange.

Definition lower (c : Z) : Z := Z.lor c 0x20.

(** The digit loop of [ParseUint] for an explicit base (no underscores, no
    prefix). *)
Fixpoint parseDigits (base maxVal cutoff : Z) (n : Z) (s : gostring)
    : NumError + Z :=
  match s with
  | [] => inr n
  | ch :: s' =>
    let c := byteZ ch in
    let d :=
      if (0x30 <=? c)%Z && (c <=? 0x39)%Z then Some (c - 0x30)%Z
      else if (0x61 <=? lower c)%Z && (lower c <=? 0x7A)%Z
           then Some (lower c - 0x61 + 10)%Z
      else None in
    match d with
    | None => inl ErrSyntax
    | Some d =>
      if (base <=? d)%Z then inl ErrSyntax
      else if (cutoff <=? n)%Z then inl ErrRange
      else
        let n1 := (n * base + d)%Z in
        if (maxVal <? n1)%Z then inl ErrRange
        else parseDigits base maxVal cutoff n1 s'
    end
  end.

Definition ParseUint (s : gostring) (base : Z) (bitSize : Z) : NumError + Z :=
  match s with
  | [] => inl ErrSyntax
  | _ :: _ =>
    parseDigits base (2 ^ bitSize - 1) ((2 ^ 64 - 1) / base + 1) 0 s
  end.

(** [strconv.ParseInt(s, base, bitSize)] for [2 <= base <= 36] and
    [0 < bitSize <= 64]. *)
Definition ParseInt (s : gostring) (base : Z) (bitSize : Z) : NumError + Z :=
  match s with
  | [] => inl ErrSyntax
  | c :: s' =>
    let '(neg, digits) :=
      if Ascii.eqb c "+" then (false, s')
      else if Ascii.eqb c "-" then (true, s')
      else (false, s) in
    match ParseUint digits base bitSize with
    | inl e => inl e
    | inr un =>
      let cutoff := (2 ^ (bitSize - 1))%Z in
      if negb neg && (cutoff <=? un)%Z then inl ErrRange
      else if neg && (cutoff <? un)%Z then inl ErrRange
      else inr (if neg then (- un)%Z else un)
    end
  end.

End strconv.

(** ** Errors, panics and results *)

(** The errors the program builds with [fmt.Errorf], by format string, and
    the errors of the transport, the scanner and the operating system, which
    it passes through. *)
Inductive error :=
| ErrParseLine (line : gostring)              (* "parse line %q: %s" *)
| ErrParseCodePoint (line : gostring) (e : strconv.NumError)
                                              (* "failed to parse line %q: %s" *)
| ErrStatus (url status : gostring)           (* "get %q: %s" *)
| ErrReadCLDR (cause : gostring)              (* "read CLDR data: %s" *)
| ErrParseCLDR (cause : gostring)             (* "parse CLDR data: %s" *)
| ErrParseCLDRFile (cause : gostring)         (* "parse CLDR data %q: %s", of the file *)
| ErrNoEmojiCollation                         (* "no emoji collation found in %q" *)
| ErrUnexpectedLine (line : gostring)         (* "unexpected line format %q" *)
| ErrNoAnnotation (emoji : gostring)          (* "emoji %q has no annotation" *)
| ErrWrite (path cause : gostring)            (* "write %q: %s" *)
| ErrIO (msg : gostring).                     (* passed through unchanged *)

(** Run-time panics. *)
Inductive panic :=
| PanicMakeslice          (* "makeslice: cap out of range" *)
| PanicNilDeref.          (* nil pointer dereference *)

(** What a call of a Go function with an [error] result comes to. *)
Inductive outcome (A : Type) :=
| Ret (a : A)
| Fail (e : error)
| Panic (p : panic).
Arguments Ret {A} a.
Arguments Fail {A} e.
Arguments Panic {A} p.

#[global] Instance outcome_ret : MRet outcome := @Ret.
#[global] Instance outcome_bind : MBind outcome := fun A B f m =>
  match m with
  | Ret a => f a
  | Fail e => Fail e
  | Panic p => Panic p
  end.

(** What [http.Get] and the [bufio.Scanner] over the body deliver for one
    URL: a transport error, a status other than 200, or the lines the
    scanner yields and [scanner.Err()]. *)
Inductive response :=
| GetFailed (err : error)
| Status (status : gostring)
| Body (lines : list gostring) (scanErr : option error).

(** ** [generate/generate.go] *)
Module generate.

Definition emojiData : gostring :=
  str "https://www.unicode.org/Public/16.0.0/ucd/emoji/emoji-data.txt".
Definition emojiSequences : gostring :=
  str "https://www.unicode.org/Public/emoji/16.0/emoji-sequences.txt".
Definition emojiZWJSequences : gostring :=
  str "https://www.unicode.org/Public/emoji/16.0/emoji-zwj-sequences.txt".
Definition cldr : gostring :=
  str "https://unicode.org/Public/cldr/46/cldr-common-46.0.zip".

(** The loop over [codePoints] that fills [emoji]. *)
Fixpoint parseCodePoints (line : gostring) (codePoints : list gostring)
    : outcome (list Z) :=
  match codePoints with
  | [] => Ret []
  | codePointStr :: rest =>
    match strconv.ParseInt codePointStr 16 32 with
    | inl err => Fail (ErrParseCodePoint line err)
    | inr codePoint =>
      emoji ← parseCodePoints line rest;
      Ret (codePoint :: emoji)
    end
  end.

(** [make([]string, 0, n)]: a negative capacity is a run-time panic.  (On
    the 64-bit platforms the capacities this program asks for, at most
    [2^32] strings, are below the allocation limit.) *)
Definition makeSlice (cap : Z) : outcome (list gostring) :=
  if (cap <? 0)%Z then Panic PanicMakeslice else Ret [].

Definition parseEmojiDataLine (line : gostring)
    : outcome (list gostring * gostring) :=
  let '(line, _, _) := strings.Cut line (str "#") in
  match line with
  | [] => Ret ([], [])
  | _ :: _ =>
    let parts := strings.SplitN line (str ";") 3 in
    match parts with
    | part0 :: part1 :: _ =>
      let codePointsStr := strings.TrimSpace part0 in
      let tag := strings.TrimSpace part1 in
      match strings.Cut codePointsStr (str "..") with
      | (startStr, endStr, true) =>
        match strconv.ParseInt startStr 16 32 with
        | inl err => Fail (ErrParseCodePoint line err)
        | inr start =>
          match strconv.ParseInt endStr 16 32 with
          | inl err => Fail (ErrParseCodePoint line err)
          | inr end_ =>
            emojis ← makeSlice (wrap64 (wrap64 (end_ - start) + 1));
            Ret (emojis ++ map utf8.encodeRune
                               (seqZ start (end_ - start + 1)), tag)
          end
        end
      | (_, _, false) =>
        let codePoints := strings.Split codePointsStr (str " ") in
        emoji ← parseCodePoints line codePoints;
        Ret ([utf8.encodeRunes emoji], tag)
      end
    | _ => Fail (ErrParseLine line)
    end
  end.

(** The rows of a table: what [parseEmojiDataLine] yields for its lines,
    when every line parses.  (Used to state what the builder computes.) *)
Fixpoint tableRows (lines : list gostring)
    : outcome (list (list gostring * gostring)) :=
  match lines with
  | [] => Ret []
  | line :: rest =>
    row ← parseEmojiDataLine line;
    rows ← tableRows rest;
    Ret (row :: rows)
  end.

(** The rows [emojiModifiers] collects from. *)
Definition isModifierRow (row : list gostring * gostring) : Prop :=
  row.2 = str "Emoji_Modifier".

#[global] Instance isModifierRow_dec (row : list gostring * gostring) :
  Decision (isModifierRow row) :=
  decide (row.2 = str "Emoji_Modifier").

(** The scanner loop of [emojiModifiers]. *)
Fixpoint modifierLines (lines : list gostring) (modifiers : list gostring)
    : outcome (list gostring) :=
  match lines with
  | [] => Ret modifiers
  | line :: rest =>
    '(emojis, tag) ← parseEmojiDataLine line;
    modifierLines rest
      (if decide (tag = str "Emoji_Modifier") then modifiers ++ emojis
       else modifiers)
  end.

Definition emojiModifiers (resp : response) : outcome (list gostring) :=
  match resp with
  | GetFailed err => Fail err
  | Status status => Fail (ErrStatus emojiData status)
  | Body lines scanErr =>
    modifiers ← modifierLines lines [];
    match scanErr with
    | Some err => Fail err
    | None => Ret modifiers
    end
  end.

(** [modifiers[e]] on a [map[string]bool]: [false] for an absent key. *)
Definition isModifier (modifiers : gmap gostring bool) (e : gostring) : bool :=
  default false (modifiers !! e).

(** The scanner loop of [emojisInFile]; the inner loop keeps the emoji that
    are not modifiers. *)
Fixpoint emojiLines (lines : list gostring) (modifiers : gmap gostring bool)
    (emojis : list gostring) : outcome (list gostring) :=
  match lines with
  | [] => Ret emojis
  | line :: rest =>
    '(lineEmojis, _) ← parseEmojiDataLine line;
    emojiLines rest modifiers
      (emojis ++ filter (λ e, isModifier modifiers e = false) lineEmojis)
  end.

Definition emojisInFile (url : gostring) (resp : response)
    (modifiers : gmap gostring bool) : outcome (list gostring) :=
  match resp with
  | GetFailed err => Fail err
  | Status status => Fail (ErrStatus url status)
  | Body lines scanErr =>
    emojis ← emojiLines lines modifiers [];
    match scanErr with
    | Some err => Fail err
    | None => Ret emojis
    end
  end.

(** [emojis]: the three tables are what the three URLs answer. *)
Definition emojis (dataResp seqResp zwjResp : response)
    : outcome (list gostring) :=
  modifiersSlice ← emojiModifiers dataResp;
  let modifiers : gmap gostring bool :=
    foldl (λ m k, <[k := true]> m) ∅ modifiersSlice in
  sequences ← emojisInFile emojiSequences seqResp modifiers;
  zwjSequences ← emojisInFile emojiZWJSequences zwjResp modifiers;
  Ret (sequences ++ zwjSequences).

(** The part of an [<annotation>] element that [xml.Unmarshal] keeps. *)
Record xmlAnnotation := {
  CP : gostring;              (* `xml:"cp,attr"` *)
  Type_ : gostring;           (* `xml:"type,attr"` *)
  Annotation : gostring       (* `xml:",chardata"` *)
}.

(** The part of a [<collation>] element that [xml.Unmarshal] keeps. *)
Record xmlCollation := {
  CollationType : gostring;   (* `xml:"type,attr"` *)
  CR : gostring               (* `xml:"cr"` *)
}.

(** A file of the CLDR archive as the program sees it: it cannot be opened,
    it cannot be read, it does not parse, or [xml.Unmarshal] yields the
    listed elements. *)
Inductive zipEntry (A : Type) :=
| OpenFailed (cause : gostring)
| ReadFailed (cause : gostring)
| UnmarshalFailed (cause : gostring)
| Parsed (elems : list A).
Arguments OpenFailed {A} cause.
Arguments ReadFailed {A} cause.
Arguments UnmarshalFailed {A} cause.
Arguments Parsed {A} elems.

Module emojiAnnotation.
Record t := { name : gostring; annotations : list gostring }.
End emojiAnnotation.

(** The annotation maps hold pointers ([map[string]*emojiAnnotation]): the
    records live in a store, a pointer is an index into it, and
    [new(emojiAnnotation)] appends a zero record. *)
Abbreviation store := (list emojiAnnotation.t).

Definition new (h : store) : nat * store :=
  (length h, h ++ [{| emojiAnnotation.name := [];
                      emojiAnnotation.annotations := [] |}]).

Definition isKeywordSep (r : Z) : bool := (r =? 0x20)%Z || (r =? 0x7C)%Z.

(** The body of the loop of [annotationsInFile]. *)
Definition annotationStep (st : gmap gostring nat * store)
    (annotation : xmlAnnotation) : gmap gostring nat * store :=
  let '(emojiAnnotations, h) := st in
  let '(annotationData, emojiAnnotations, h) :=
    match emojiAnnotations !! CP annotation with
    | Some p => (p, emojiAnnotations, h)
    | None =>
      let '(p, h) := new h in
      (p, <[CP annotation := p]> emojiAnnotations, h)
    end in
  if decide (Type_ annotation = str "tts") then
    (emojiAnnotations,
     alter (λ a, {| emojiAnnotation.name := Annotation annotation;
                    emojiAnnotation.annotations :=
                      emojiAnnotation.annotations a |}) annotationData h)
  else
    (emojiAnnotations,
     alter (λ a, {| emojiAnnotation.name := emojiAnnotation.name a;
                    emojiAnnotation.annotations :=
                      strings.FieldsFunc (Annotation annotation)
                                         isKeywordSep |}) annotationData h).

(** What one round of the loop of [annotationsInFile] does to the record of
    the key, once its pointer is looked up or allocated. *)
Definition updateOf (annotation : xmlAnnotation)
    (a : emojiAnnotation.t) : emojiAnnotation.t :=
  if decide (Type_ annotation = str "tts") then
    {| emojiAnnotation.name := Annotation annotation;
       emojiAnnotation.annotations :=
         emojiAnnotation.annotations a |}
  else
    {| emojiAnnotation.name := emojiAnnotation.name a;
       emojiAnnotation.annotations :=
         strings.FieldsFunc (Annotation annotation)
                            isKeywordSep |}.

Definition annotationsInFile (f : zipEntry xmlAnnotation) (h : store)
    : outcome (gmap gostring nat * store) :=
  match f with
  | OpenFailed cause => Fail (ErrReadCLDR cause)
  | ReadFailed cause => Fail (ErrReadCLDR cause)
  | UnmarshalFailed cause => Fail (ErrParseCLDR cause)
  | Parsed elems => Ret (foldl annotationStep (∅, h) elems)
  end.

(** Invariant of the loop of [annotationsInFile] over a store that was [h0]
    at the start: the pointers of the map were allocated by the loop, they
    point into the store, and distinct keys hold distinct pointers. *)
Definition ownsPointers (h0 : store) (st : gmap gostring nat * store) : Prop :=
  (length h0 ≤ length st.2)%nat
  ∧ (∀ key p, st.1 !! key = Some p → (length h0 ≤ p < length st.2)%nat)
  ∧ (∀ k1 k2 p, st.1 !! k1 = Some p → st.1 !! k2 = Some p → k1 = k2).

(** The record of [key] in the store holds the keywords [kws]. *)
Definition holdsKeywords (key : gostring) (kws : list gostring)
    (st : gmap gostring nat * store) : Prop :=
  ∃ p a, st.1 !! key = Some p ∧ st.2 !! p = Some a
         ∧ emojiAnnotation.annotations a = kws.

(** [annotations]: [maps.Copy] writes every entry of the derived map over
    the primary one. *)
Definition annotations (annotationsFile annotationsDerivedFile
    : zipEntry xmlAnnotation) (h : store)
    : outcome (gmap gostring nat * store) :=
  '(annotations, h) ← annotationsInFile annotationsFile h;
  '(annotationsDerived, h) ← annotationsInFile annotationsDerivedFile h;
  Ret (annotationsDerived ∪ annotations, h).

(** U+FE0F in UTF-8. *)
Definition presentationSelector : gostring :=
  [byte 0xEF; byte 0xB8; byte 0x8F].

Definition removePresentationSelector (emoji : gostring) : gostring :=
  strings.ReplaceAll emoji presentationSelector [].

(** [collation[key] = count; count++] *)
Definition assign (st : gmap gostring Z * Z) (key : gostring)
    : gmap gostring Z * Z :=
  let '(collation, count) := st in
  (<[key := count]> collation, wrap64 (count + 1)).

Definition isRuleSep (r : Z) : bool :=
  (r =? 0x20)%Z || (r =? 0x3C)%Z || (r =? 0x3D)%Z || (r =? 0x27)%Z.

(** The keys a [<*] line assigns, in order: [string([]rune{emoji})] for
    every rune of [line[2:]]. *)
Definition starKeys (line : gostring) : list gostring :=
  map (λ x, utf8.encodeRunes [x.1]) (utf8.range (drop 2 line)).

(** The keys another [<] line assigns, in order. *)
Definition ruleKeys (line : gostring) : list gostring :=
  map removePresentationSelector (strings.FieldsFunc (drop 1 line) isRuleSep).

(** The body of the loop of [collationData] over the rule lines. *)
Definition collationLine (st : gmap gostring Z * Z) (line : gostring)
    : outcome (gmap gostring Z * Z) :=
  if bool_decide (line = []) || strings.HasPrefix line (str "#")
     || strings.HasPrefix line (str "&") then Ret st
  else if strings.HasPrefix line (str "<*") then
    Ret (foldl assign st (starKeys line))
  else if strings.HasPrefix line (str "<") then
    Ret (foldl assign st (ruleKeys line))
  else Fail (ErrUnexpectedLine line).

(** The keys a rule line assigns, in order (none for a skipped line). *)
Definition lineKeys (line : gostring) : list gostring :=
  if bool_decide (line = []) || strings.HasPrefix line (str "#")
     || strings.HasPrefix line (str "&") then []
  else if strings.HasPrefix line (str "<*") then starKeys line
  else if strings.HasPrefix line (str "<") then ruleKeys line
  else [].

(** [tbl] after the keys [keys] were stored under the consecutive ranks
    [n], [n + 1], ... in this order (a later key overwrites an equal
    earlier one). *)
Definition withRanks (tbl : gmap gostring Z) (keys : list gostring) (n : Z)
    : gmap gostring Z :=
  foldl (λ m kr, <[kr.1 := kr.2]> m) tbl (zip keys (seqZ n (Z.of_nat (length keys)))).

Fixpoint collationLines (st : gmap gostring Z * Z) (lines : list gostring)
    : outcome (gmap gostring Z * Z) :=
  match lines with
  | [] => Ret st
  | line :: rest =>
    st ← collationLine st line;
    collationLines st rest
  end.

(** The rule text of the first collation of type "emoji". *)
Fixpoint emojiCollationOf (collations : list xmlCollation) : gostring :=
  match collations with
  | [] => []
  | collation :: rest =>
    if decide (CollationType collation = str "emoji") then CR collation
    else emojiCollationOf rest
  end.

(** The rank table the rule text [emojiCollation] gives. *)
Definition collationTable (emojiCollation : gostring)
    : outcome (gmap gostring Z * Z) :=
  collationLines (∅, 1%Z) (strings.Split emojiCollation [byte 0x0A]).

Definition collationData (file : zipEntry xmlCollation)
    : outcome (gmap gostring Z) :=
  match file with
  | OpenFailed cause => Fail (ErrReadCLDR cause)
  | ReadFailed cause => Fail (ErrReadCLDR cause)
  | UnmarshalFailed cause => Fail (ErrParseCLDRFile cause)
  | Parsed collations =>
    let emojiCollation := emojiCollationOf collations in
    if decide (emojiCollation = []) then Fail ErrNoEmojiCollation
    else
      '(collation, _) ← collationTable emojiCollation;
      Ret collation
  end.

(** [_, size := utf8.DecodeLastRuneInString(e); e = e[:len(e)-size]] *)
Definition dropLastRune (e : gostring) : gostring :=
  let '(_, size) := utf8.DecodeLastRuneInString e in
  take (length e - size) e.

(** [e] after [k] rounds of the loop of [collationOrder]. *)
Definition shrunk (k : nat) (e : gostring) : gostring :=
  Nat.iter k dropLastRune e.

(** The loop of [collationOrder]; every round drops at least one byte, so
    [len(e)] rounds empty the string ([collationOrder_rounds] below). *)
Fixpoint collationOrderLoop (n : nat) (e : gostring)
    (collationData : gmap gostring Z) : Z :=
  match n with
  | O => -1
  | S k =>
    match e with
    | [] => -1
    | _ :: _ =>
      match collationData !! removePresentationSelector e with
      | Some rank => rank
      | None => collationOrderLoop k (dropLastRune e) collationData
      end
    end
  end.

Definition collationOrder (e : gostring) (collationData : gmap gostring Z) : Z :=
  collationOrderLoop (length e) e collationData.

(** The comparison [generate] sorts with. *)
Definition cmp (collation : gmap gostring Z) (e f : gostring) : Z :=
  let n := wrap64 (collationOrder e collation - collationOrder f collation) in
  if negb (n =? 0)%Z then n else strings.Compare e f.

(** [e] does not come after [f] in the order of [cmp]. *)
Definition cmpLe (collation : gmap gostring Z) (e f : gostring) : Prop :=
  (cmp collation e f ≤ 0)%Z.

#[global] Instance cmpLe_dec (collation : gmap gostring Z) (e f : gostring) :
  Decision (cmpLe collation e f) :=
  decide (cmp collation e f ≤ 0)%Z.

(** [slices.SortFunc] promises a permutation of the slice in ascending order
    of the comparison and no more (the sort is not stable).  It is modelled
    by the merge sort of the library; for the comparison of [generate] the
    result does not depend on the algorithm ([sorted_by_cmp_unique] below). *)
Definition SortFunc (le : relation gostring) `{∀ x y, Decision (le x y)}
    (l : list gostring) : list gostring :=
  merge_sort le l.

(** [slices.DeleteFunc(annotation.annotations, ...)] of the loop of
    [generate]: the keywords that are not contained in the name. *)
Definition deleteContained (a : emojiAnnotation.t) : emojiAnnotation.t :=
  {| emojiAnnotation.name := emojiAnnotation.name a;
     emojiAnnotation.annotations :=
       filter (λ s, strings.Contains (emojiAnnotation.name a) s = false)
              (emojiAnnotation.annotations a) |}.

(** What one round of the loop prints for [emoji], given the record after
    [DeleteFunc]: [fmt.Print(emoji, " ", name)], then [fmt.Print(" ", ...)]
    when the joined keywords are not empty, then [fmt.Println()]. *)
Definition printed (emoji : gostring) (a : emojiAnnotation.t) : gostring :=
  let annotations := strings.Join (emojiAnnotation.annotations a) (str " ") in
  emoji ++ str " " ++ emojiAnnotation.name a
    ++ (if bool_decide (annotations = []) then [] else str " " ++ annotations)
    ++ [byte 0x0A].

(** The printing loop of [generate] over the sorted slice: the store, the
    bytes written to standard output so far, and how the loop ends. *)
Fixpoint printLoop (annotations : gmap gostring nat) (emojis : list gostring)
    (h : store) (stdout : gostring) : store * gostring * outcome () :=
  match emojis with
  | [] => (h, stdout, Ret ())
  | emoji :: rest =>
    match annotations !! removePresentationSelector emoji with
    | None => (h, stdout, Fail (ErrNoAnnotation emoji))
    | Some p =>
      match h !! p with
      | None => (h, stdout, Panic PanicNilDeref)
      | Some annotation =>
        let annotation := deleteContained annotation in
        printLoop annotations rest (<[p := annotation]> h)
                  (stdout ++ printed emoji annotation)
      end
    end
  end.

(** The rendering rule in the spec's words, for the annotation as the
    extractor left it in the store [h]: the emoji, a space, and the name
    followed by the keywords that are not substrings of the name, joined by
    spaces. *)
Definition renderedAnnotation (a : emojiAnnotation.t) : gostring :=
  strings.Join
    (emojiAnnotation.name a
     :: filter (λ kw, strings.Contains (emojiAnnotation.name a) kw = false)
               (emojiAnnotation.annotations a))
    (str " ").

Definition renderedLine (annotations : gmap gostring nat) (h : store)
    (emoji : gostring) : option gostring :=
  p ← annotations !! removePresentationSelector emoji;
  a ← h !! p;
  Some (emoji ++ str " " ++ renderedAnnotation a ++ [byte 0x0A]).

(** The records of [h] render as those of [h0]: the loop has at most applied
    [DeleteFunc] to some of them. *)
Definition rendersAs (h0 h : list emojiAnnotation.t) : Prop :=
  ∀ p, deleteContained <$> (h !! p)
       = deleteContained <$> (h0 !! p).

(** How the printing loop ends when [rest] is what it has not printed. *)
Definition stopsAt (annotations : gmap gostring nat) (h : store)
    (rest : list gostring) (res : outcome ()) : Prop :=
  match rest with
  | [] => res = Ret ()
  | emoji :: _ =>
    match annotations !! removePresentationSelector emoji with
    | None => res = Fail (ErrNoAnnotation emoji)
    | Some p => h !! p = None ∧ res = Panic PanicNilDeref
    end
  end.

(** What the CLDR URL answers, down to the three files read from the
    archive. *)
Inductive cldrResponse :=
| CldrGetFailed (err : error)
| CldrStatus (status : gostring)
| CldrReadFailed (err : error)
| CldrZipFailed (cause : gostring)
| CldrZip (annotationsEn annotationsDerivedEn : zipEntry xmlAnnotation)
          (collationRoot : zipEntry xmlCollation).

(** [generate] up to the sort: the emoji set, the annotation map with its
    store, and the rank table. *)
Definition load (dataResp seqResp zwjResp : response) (cldrResp : cldrResponse)
    : outcome (list gostring * (gmap gostring nat * store) * gmap gostring Z) :=
  emojis ← emojis dataResp seqResp zwjResp;
  match cldrResp with
  | CldrGetFailed err => Fail err
  | CldrStatus status => Fail (ErrStatus cldr status)
  | CldrReadFailed err => Fail err
  | CldrZipFailed cause => Fail (ErrReadCLDR cause)
  | CldrZip annotationsEn annotationsDerivedEn collationRoot =>
    annotations ← annotations annotationsEn annotationsDerivedEn [];
    collation ← collationData collationRoot;
    Ret (emojis, annotations, collation)
  end.

(** [generate]: the bytes written to standard output and the result. *)
Definition generate (dataResp seqResp zwjResp : response)
    (cldrResp : cldrResponse) : gostring * outcome () :=
  match load dataResp seqResp zwjResp cldrResp with
  | Ret (emojis, (annotations, h), collation) =>
    let emojis := SortFunc (cmpLe collation) emojis in
    let '(_, stdout, err) := printLoop annotations emojis h [] in
    (stdout, err)
  | Fail err => ([], Fail err)
  | Panic p => ([], Panic p)
  end.

End generate.

(** ** The variants with an on-disk cache ([getCached]) *)

(** [path.Base] *)
Module path.

Fixpoint stripTrailingSlashes (rev_path : gostring) : gostring :=
  match rev_path with
  | c :: rest => if Ascii.eqb c "/" then stripTrailingSlashes rest else rev_path
  | [] => []
  end.

Fixpoint untilSlash (rev_path : gostring) : gostring :=
  match rev_path with
  | c :: rest => if Ascii.eqb c "/" then [] else c :: untilSlash rest
  | [] => []
  end.

Definition Base (path : gostring) : gostring :=
  match path with
  | [] => str "."
  | _ :: _ =>
    match rev (untilSlash (stripTrailingSlashes (rev path))) with
    | [] => str "/"
    | base => base
    end
  end.

End path.

(** What [os.Stat] may answer that the regular files do not show. *)
Inductive statAnswer :=
| StatNotRegular              (* an entry that is no regular file: a directory *)
| StatFailed (err : error).   (* an error other than "not exist" *)

(** The file system as [getCached] sees it: the regular files by path.  What
    the environment decides during one call is given beforehand. *)
Record environment := {
  statOther : option statAnswer;  (* [os.Stat] does not answer from the files *)
  getResult : error + (bool * gostring * gostring);
                                  (* [http.Get]: status is 200, status text, body *)
  mkdirAllError : option error;   (* [os.MkdirAll] *)
  createError : option error;     (* [os.Create] *)
  copyResult : nat * option gostring;
                                  (* [io.Copy]: bytes written, cause of a failure *)
  closeError : option error       (* [f.Close] *)
}.

Abbreviation files := (gmap gostring gostring).

(** [os.Stat(cachePath)] does not report [fs.ErrNotExist]: it finds a
    regular file or another entry, or it fails for another reason. *)
Definition statFinds (env : environment) (fs : files) (cachePath : gostring) : bool :=
  match statOther env with
  | Some _ => true
  | None => bool_decide (is_Some (fs !! cachePath))
  end.

(** The later variant, with [os.MkdirAll] and a checked [f.Close]. *)
Module part_000.

Definition getCached (env : environment) (url cacheDir : gostring) (fs : files)
    : files * (gostring * option error) :=
  let cachePath := cacheDir ++ str "/" ++ path.Base url in
  if statFinds env fs cachePath then (fs, (cachePath, None)) else
  match getResult env with
  | inl err => (fs, ([], Some err))
  | inr (ok, status, body) =>
    if negb ok then (fs, ([], Some (ErrStatus url status))) else
    match mkdirAllError env with
    | Some err => (fs, ([], Some err))
    | None =>
      match createError env with
      | Some err => (fs, ([], Some err))
      | None =>
        let fs := <[cachePath := []]> fs in
        match copyResult env with
        | (written, Some cause) =>
          let fs := <[cachePath := take written body]> fs in
          let fs := delete cachePath fs in
          (fs, ([], Some (ErrWrite cachePath cause)))
        | (_, None) =>
          let fs := <[cachePath := body]> fs in
          match closeError env with
          | Some err =>
            let fs := delete cachePath fs in
            (fs, ([], Some err))
          | None => (fs, (cachePath, None))
          end
        end
      end
    end
  end.

End part_000.

(** The earlier variant: [return cachePath, f.Close()]. *)
Module part_001.

Definition getCached (env : environment) (url cacheDir : gostring) (fs : files)
    : files * (gostring * option error) :=
  let cachePath := cacheDir ++ str "/" ++ path.Base url in
  if statFinds env fs cachePath then (fs, (cachePath, None)) else
  match getResult env with
  | inl err => (fs, ([], Some err))
  | inr (ok, status, body) =>
    if negb ok then (fs, ([], Some (ErrStatus url status))) else
    match createError env with
    | Some err => (fs, ([], Some err))
    | None =>
      let fs := <[cachePath := []]> fs in
      match copyResult env with
      | (written, Some cause) =>
        let fs := <[cachePath := take written body]> fs in
        let fs := delete cachePath fs in
        (fs, ([], Some (ErrWrite cachePath cause)))
      | (_, None) =>
        let fs := <[cachePath := body]> fs in
        (fs, (cachePath, closeError env))
      end
    end
  end.

(** The record [annotationsInFile] keeps per [cp] in this variant (a value,
    not a pointer). *)
Record annotationData := { name : gostring; annotations : list gostring }.

(** The body of the first loop of [annotationsInFile]. *)
Definition annotationStep (emojiAnnotations : gmap gostring annotationData)
    (annotation : generate.xmlAnnotation) : gmap gostring annotationData :=
  let annotationData :=
    default {| name := []; annotations := [] |}
            (emojiAnnotations !! generate.CP annotation) in
  let annotationData :=
    if decide (generate.Type_ annotation = str "tts") then
      {| name := generate.Annotation annotation;
         annotations := annotations annotationData |}
    else
      {| name := name annotationData;
         annotations :=
           map strings.TrimSpace
               (strings.Split (generate.Annotation annotation) (str "|")) |} in
  <[generate.CP annotation := annotationData]> emojiAnnotations.

(** The body of the second loop of [annotationsInFile]: the text stored for
    one record. *)
Definition combine (annotation : annotationData) : gostring :=
  let annotations :=
    filter (λ s, strings.Contains (name annotation) s = false)
           (annotations annotation) in
  let annotationsStr := strings.ReplaceAll (name annotation) (str ": ") (str " ") in
  let annotationsStr := strings.ReplaceAll annotationsStr (str ", ") (str " ") in
  if (0 <? length annotations)%nat
  then annotationsStr ++ str " " ++ strings.Join annotations (str " ")
  else annotationsStr.

(** [annotationsInFile]: every key of the first loop is written once by the
    second, so the order in which [range] visits the map plays no role. *)
Definition annotationsInFile (f : generate.zipEntry generate.xmlAnnotation)
    : outcome (gmap gostring gostring) :=
  match f with
  | generate.OpenFailed cause => Fail (ErrReadCLDR cause)
  | generate.ReadFailed cause => Fail (ErrReadCLDR cause)
  | generate.UnmarshalFailed cause => Fail (ErrParseCLDR cause)
  | generate.Parsed elems => Ret (combine <$> foldl annotationStep ∅ elems)
  end.

End part_001.

(** An environment in which the download succeeds and [f.Close] fails. *)
Definition closeFails : environment :=
  {| statOther := None;
     getResult := inr (true, str "200 OK", str "1F600 ; Emoji");
     mkdirAllError := None;
     createError := None;
     copyResult := (13%nat, None);
     closeError := Some (ErrIO (str "close: no space left on device")) |}.

(** ** A small fixture

    Three property lines, four sequence lines, one ZWJ line, the annotations
    and the collation rules that go with them. *)
Module fixture.

Definition grinning : gostring := utf8.encodeRunes [0x1F600%Z].
Definition smiling : gostring := utf8.encodeRunes [0x263A; 0xFE0F]%Z.
Definition thumbsUpLight : gostring := utf8.encodeRunes [0x1F44D; 0x1F3FB]%Z.
Definition family : gostring := utf8.encodeRunes [0x1F468; 0x200D; 0x1F467]%Z.

Definition dataResp : response :=
  Body [str "# emoji-data.txt";
        str "1F3FB..1F3FF  ; Emoji_Modifier  # light skin tone..dark skin tone";
        str "1F600         ; Emoji           # grinning face"] None.

Definition seqResp : response :=
  Body [str "1F44D 1F3FB ; RGI_Emoji_Modifier_Sequence ; thumbs up # E1.0";
        str "1F3FB       ; Basic_Emoji ; light skin tone";
        str "263A FE0F   ; Basic_Emoji ; smiling face";
        str "1F600       ; Basic_Emoji ; grinning face"] None.

Definition zwjResp : response :=
  Body [str "1F468 200D 1F467 ; RGI_Emoji_ZWJ_Sequence ; family: man, girl"]
       None.

Definition element (cp : gostring) (type content : string)
    : generate.xmlAnnotation :=
  {| generate.CP := cp; generate.Type_ := str type;
     generate.Annotation := str content |}.

Definition annotationsEn : list generate.xmlAnnotation :=
  [element grinning "" "face | grin | grinning face";
   element grinning "tts" "grinning face";
   element (utf8.encodeRunes [0x263A%Z]) "" "face | outlined | relaxed | smile";
   element (utf8.encodeRunes [0x263A%Z]) "tts" "smiling face"].

Definition annotationsDerivedEn : list generate.xmlAnnotation :=
  [element thumbsUpLight "" "+1 | hand | light skin tone | thumb | up";
   element thumbsUpLight "tts" "thumbs up: light skin tone";
   element family "" "family | girl | man";
   element family "tts" "family: man, girl"].

Definition rules : gostring :=
  str "# emoji" ++ [byte 0x0A]
  ++ str "& [last primary ignorable]<<*" ++ utf8.encodeRunes [0x1F3FB%Z]
  ++ [byte 0x0A]
  ++ str "<*" ++ utf8.encodeRunes [0x1F600; 0x263A]%Z ++ [byte 0x0A]
  ++ str "<*" ++ utf8.encodeRunes [0x1F44D; 0x1F468]%Z ++ [byte 0x0A]
  ++ str "<" ++ family ++ [byte 0x0A].

Definition collations : list generate.xmlCollation :=
  [{| generate.CollationType := str "standard"; generate.CR := str "&a<b" |};
   {| generate.CollationType := str "emoji"; generate.CR := rules |}].

Definition cldrResp : generate.cldrResponse :=
  generate.CldrZip (generate.Parsed annotationsEn)
                   (generate.Parsed annotationsDerivedEn)
                   (generate.Parsed collations).

(** The same archive without the derived annotations. *)
Definition cldrRespNoDerived : generate.cldrResponse :=
  generate.CldrZip (generate.Parsed annotationsEn) (generate.Parsed [])
                   (generate.Parsed collations).

(** What [load] gives for the fixture. *)
Definition emojis : list gostring := [thumbsUpLight; smiling; grinning; family].

Definition collation : gmap gostring Z :=
  list_to_map [(grinning, 1%Z); (utf8.encodeRunes [0x263A%Z], 2%Z);
               (utf8.encodeRunes [0x1F44D%Z], 3%Z);
               (utf8.encodeRunes [0x1F468%Z], 4%Z); (family, 5%Z)].

Definition record (name : string) (keywords : list string)
    : generate.emojiAnnotation.t :=
  {| generate.emojiAnnotation.name := str name;
     generate.emojiAnnotation.annotations := map str keywords |}.

Definition storeEn : list generate.emojiAnnotation.t :=
  [record "grinning face" ["face"; "grin"; "grinning"; "face"];
   record "smiling face" ["face"; "outlined"; "relaxed"; "smile"]].

Definition storeAll : list generate.emojiAnnotation.t :=
  storeEn
  ++ [record "thumbs up: light skin tone"
             ["+1"; "hand"; "light"; "skin"; "tone"; "thumb"; "up"];
      record "family: man, girl" ["family"; "girl"; "man"]].

Definition pointersEn : gmap gostring nat :=
  list_to_map [(grinning, 0%nat); (utf8.encodeRunes [0x263A%Z], 1%nat)].

Definition pointersAll : gmap gostring nat :=
  list_to_map [(grinning, 0%nat); (utf8.encodeRunes [0x263A%Z], 1%nat);
               (thumbsUpLight, 2%nat); (family, 3%nat)].

(** What [generate] prints for the fixture. *)
Definition lines : list gostring :=
  [grinning ++ str " grinning face" ++ [byte 0x0A];
   smiling ++ str " smiling face outlined relaxed smile" ++ [byte 0x0A];
   thumbsUpLight ++ str " thumbs up: light skin tone +1 hand" ++ [byte 0x0A];
   family ++ str " family: man, girl" ++ [byte 0x0A]].

End fixture.

(** ** Notions the further properties are stated with *)

(** A Unicode scalar value, and what [string(rune)] and the decoders turn any
    other value into. *)
Definition validRune (r : Z) : Prop :=
  (0 ≤ r ≤ 0x10FFFF)%Z ∧ ¬ (0xD800 ≤ r ≤ 0xDFFF)%Z.

#[global] Instance validRune_dec (r : Z) : Decision (validRune r) :=
  decide ((0 ≤ r ≤ 0x10FFFF)%Z ∧ ¬ (0xD800 ≤ r ≤ 0xDFFF)%Z).

Definition cleanRune (r : Z) : Z :=
  if decide (validRune r) then r else utf8.RuneError.

(** ** Package [slices] *)
Module slices.

(** [slices.Compare] on rune slices: the first pair of elements that differ
    decides; when there is none, the shorter slice comes first. *)
Fixpoint Compare (s1 s2 : list Z) : Z :=
  match s1, s2 with
  | [], [] => 0
  | [], _ :: _ => -1
  | _ :: _, [] => 1
  | v1 :: s1', v2 :: s2' =>
    if (v1 <? v2)%Z then -1
    else if (v2 <? v1)%Z then 1
    else Compare s1' s2'
  end.

End slices.

(** [[]rune(s)]: the runes of a string, decoded as [range] decodes them. *)
Definition runes (s : gostring) : list Z := map fst (utf8.range s).

(** ASCII white space, and an ASCII byte that is none. *)
Definition blank (c : ascii) : Prop :=
  (byteZ c < 0x80)%Z ∧ unicode.IsSpace (byteZ c) = true.
Definition solid (c : ascii) : Prop :=
  (byteZ c < 0x80)%Z ∧ unicode.IsSpace (byteZ c) = false.

(** A field with no white space around it: it is empty, or it begins and
    ends with a solid byte. *)
Definition trimmed (s : gostring) : Prop :=
  s = [] ∨ ((∃ c rest, s = c :: rest ∧ solid c)
            ∧ (∃ init c, s = init ++ [c] ∧ solid c)).

(** The notation of the Unicode data files for a code point: upper-case
    hexadecimal digits, most significant first. *)
Definition hexDigit (d : Z) : ascii :=
  nth (Z.to_nat d) (str "0123456789ABCDEF") zero.
Definition hexString (ds : list Z) : gostring := map hexDigit ds.
Definition hexValue (ds : list Z) : Z := foldl (λ n d, n * 16 + d)%Z 0%Z ds.

(** A numeral of a code point field: at least one digit, a value that fits
    the [int32] that [strconv.ParseInt(s, 16, 32)] is asked for. *)
Definition hexNumeral (ds : list Z) : Prop :=
  ds ≠ [] ∧ Forall (λ d, 0 ≤ d < 16)%Z ds ∧ (hexValue ds < 2 ^ 31)%Z.

(** What may follow the second field of a table line: nothing, a further
    field, or a comment. *)
Definition lineRest (rest : gostring) : Prop :=
  match rest with
  | [] => True
  | c :: _ => c = ";"%char ∨ c = "#"%char
  end.

(** The lines the loop of [collationData] accepts: an empty line, a comment,
    a reset ([&]) and a rule ([<]). *)
Definition acceptedLine (line : gostring) : bool :=
  bool_decide (line = []) || strings.HasPrefix line (str "#")
  || strings.HasPrefix line (str "&") || strings.HasPrefix line (str "<").

(** [*annotations[key]]: the record a key of the pointer map leads to. *)
Definition recordAt (st : gmap gostring nat * generate.store) (key : gostring)
    : option generate.emojiAnnotation.t :=
  p ← st.1 !! key; st.2 !! p.

(** The zero value [new(emojiAnnotation)] points to. *)
Definition zeroAnnotation : generate.emojiAnnotation.t :=
  {| generate.emojiAnnotation.name := [];
     generate.emojiAnnotation.annotations := [] |}.

(** The elements of a file that carry the [cp] attribute [key], in order,
    applied to a record as the loop of [annotationsInFile] applies them. *)
Definition updatesOf (key : gostring) (elems : list generate.xmlAnnotation)
    (a : generate.emojiAnnotation.t) : generate.emojiAnnotation.t :=
  foldl (λ a annotation, generate.updateOf annotation a) a
        (filter (λ annotation, generate.CP annotation = key) elems).

(** ** Package [strings]: the functions the later variant adds *)
Module strings2.

(** [strings.HasSuffix] *)
Definition HasSuffix (s suffix : gostring) : bool :=
  Nat.leb (length suffix) (length s)
  && bool_decide (drop (length s - length suffix) s = suffix).

(** [strings.TrimSuffix] *)
Definition TrimSuffix (s suffix : gostring) : gostring :=
  if HasSuffix s suffix then take (length s - length suffix) s else s.

(** [strings.CutPrefix]: [after, found]. *)
Definition CutPrefix (s prefix : gostring) : gostring * bool :=
  if strings.HasPrefix s prefix then (drop (length prefix) s, true)
  else (s, false).

(** [strings.ContainsRune(s, r)], that is [IndexRune(s, r) >= 0]: a byte
    search for an ASCII rune, a search among the decoded runes for U+FFFD,
    nothing for another invalid rune, and a search for the encoding of [r]
    otherwise. *)
Definition ContainsRune (s : gostring) (r : Z) : bool :=
  if (0 <=? r)%Z && (r <? utf8.RuneSelf)%Z then bool_decide (byte r ∈ s)
  else if (r =? utf8.RuneError)%Z then
    existsb (λ x : Z * gostring, (x.1 =? utf8.RuneError)%Z) (utf8.range s)
  else if bool_decide (validRune r) then strings.Contains s (utf8.encodeRune r)
  else false.

(** The loop of [trimRightUnicode]: drop the last rune while it is in the
    cutset.  [n] bounds the rounds by the length of the string. *)
Fixpoint trimRightUnicode (n : nat) (s cutset : gostring) : gostring :=
  match n with
  | O => s
  | S k =>
    match s with
    | [] => s
    | _ :: _ =>
      let last := byteAt s (length s - 1) in
      let '(r, size) :=
        if (utf8.RuneSelf <=? last)%Z then utf8.DecodeLastRuneInString s
        else (last, 1%nat) in
      if negb (ContainsRune cutset r) then s
      else trimRightUnicode k (take (length s - size) s) cutset
    end
  end.

(** [strings.TrimRight(s, cutset)] for a cutset that holds a byte outside
    ASCII, for which the function runs [trimRightUnicode]. *)
Definition TrimRight (s cutset : gostring) : gostring :=
  match s, cutset with
  | [], _ => s
  | _, [] => s
  | _ :: _, _ :: _ => trimRightUnicode (length s) s cutset
  end.

(** The loop of [strings.Count] for a non-empty [substr]: the instances
    that do not overlap, found left to right. *)
Fixpoint countLoop (n : nat) (s substr : gostring) : Z :=
  match n with
  | O => 0
  | S k =>
    match strings.Index s substr with
    | Some i => 1 + countLoop k (drop (i + length substr) s) substr
    | None => 0
    end
  end.

Definition Count (s substr : gostring) : Z := countLoop (length s) s substr.

End strings2.

(** ** The collation of the later variant ([collationData] and the function
    it returns) *)
Module collator.

(** ["\u200d"], the zero width joiner. *)
Definition ZWJ : gostring := [byte 0xE2; byte 0x80; byte 0x8D].

Definition ignorablePrefix : gostring := str "& [last primary ignorable]<<*".

(** [ignorable[r]] on a [map[rune]bool]: [false] for an absent key. *)
Definition isIgnorable (ignorable : gmap Z bool) (r : Z) : bool :=
  default false (ignorable !! r).

(** [for _, rune := range line { ignorable[rune] = true }] *)
Definition markIgnorable (ignorable : gmap Z bool) (line : gostring)
    : gmap Z bool :=
  foldl (λ m (x : Z * gostring), <[x.1 := true]> m) ignorable (utf8.range line).

(** The keys another [<] line assigns in this variant: the fields as they
    are. *)
Definition ruleKeys (line : gostring) : list gostring :=
  strings.FieldsFunc (drop 1 line) generate.isRuleSep.

(** The body of the loop over the rule lines: the ignorable runes, the rank
    table and the counter. *)
Definition collationLine (st : gmap Z bool * gmap gostring Z * Z)
    (line : gostring) : outcome (gmap Z bool * gmap gostring Z * Z) :=
  let '(ignorable, collation, count) := st in
  let ignorable :=
    match strings2.CutPrefix line ignorablePrefix with
    | (line', true) => markIgnorable ignorable line'
    | (_, false) => ignorable
    end in
  if bool_decide (line = []) || strings.HasPrefix line (str "#")
     || strings.HasPrefix line (str "&") then Ret (ignorable, collation, count)
  else if strings.HasPrefix line (str "<*") then
    let '(collation, count) :=
      foldl generate.assign (collation, count) (generate.starKeys line) in
    Ret (ignorable, collation, count)
  else if strings.HasPrefix line (str "<") then
    let '(collation, count) :=
      foldl generate.assign (collation, count) (ruleKeys line) in
    Ret (ignorable, collation, count)
  else Fail (ErrUnexpectedLine line).

Fixpoint collationLines (st : gmap Z bool * gmap gostring Z * Z)
    (lines : list gostring) : outcome (gmap Z bool * gmap gostring Z * Z) :=
  match lines with
  | [] => Ret st
  | line :: rest =>
    st ← collationLine st line;
    collationLines st rest
  end.

(** [collationData]: the variables the returned function closes over. *)
Definition collationData (file : generate.zipEntry generate.xmlCollation)
    : outcome (gmap Z bool * gmap gostring Z) :=
  match file with
  | generate.OpenFailed cause => Fail (ErrReadCLDR cause)
  | generate.ReadFailed cause => Fail (ErrReadCLDR cause)
  | generate.UnmarshalFailed cause => Fail (ErrParseCLDRFile cause)
  | generate.Parsed collations =>
    let emojiCollation := generate.emojiCollationOf collations in
    if decide (emojiCollation = []) then Fail ErrNoEmojiCollation
    else
      '(ignorable, collation, _) ←
        collationLines (∅, ∅, 1%Z) (strings.Split emojiCollation [byte 0x0A]);
      Ret (ignorable, collation)
  end.

(** The function [collationData] returns; [None] is the call of
    [os.Exit(1)] after "Unable to classify emoji". *)
Definition collate (ignorable : gmap Z bool) (collation : gmap gostring Z)
    (emoji : gostring) : option Z :=
  let minimallyQualified := generate.removePresentationSelector emoji in
  let '(lastRune, size) := utf8.DecodeLastRuneInString minimallyQualified in
  let minimallyQualified :=
    if Nat.ltb size (length minimallyQualified) && isIgnorable ignorable lastRune
    then strings2.TrimSuffix
           (take (length minimallyQualified - size) minimallyQualified) ZWJ
    else minimallyQualified in
  match collation !! minimallyQualified with
  | Some n => Some n
  | None =>
    let unqualifiedRunes :=
      filter (λ r, isIgnorable ignorable r = false)
             (map fst (utf8.range minimallyQualified)) in
    let unqualified :=
      strings2.TrimRight (utf8.encodeRunes unqualifiedRunes) ZWJ in
    match collation !! unqualified with
    | Some n => Some n
    | None =>
      let '(firstRune, _) := utf8.DecodeRuneInString emoji in
      collation !! utf8.encodeRunes [firstRune]
    end
  end.

(** The comparison the later variant sorts with: the ranks, then the number
    of joiners, then the code points. *)
Definition cmp (ignorable : gmap Z bool) (collation : gmap gostring Z)
    (e f : gostring) : option Z :=
  ce ← collate ignorable collation e;
  cf ← collate ignorable collation f;
  let n := wrap64 (ce - cf) in
  if negb (n =? 0)%Z then Some n else
  let n := wrap64 (strings2.Count e ZWJ - strings2.Count f ZWJ) in
  if negb (n =? 0)%Z then Some n else
  Some (slices.Compare (runes e) (runes f)).

End collator.

(** * Properties *)

(** ** Sizes of decoded runes *)

Lemma DecodeRuneInString_size (s : gostring) :
  s ≠ [] →
  (1 ≤ (utf8.DecodeRuneInString s).2 ≤ length s)%nat.
Proof.
  destruct s as [|c0 s]; [done|intros _].
  unfold utf8.DecodeRuneInString.
  destruct (utf8.first (byteZ c0)) as [| |sz lo hi] eqn:Hfirst; simpl; try lia.
  assert (Hsz : (sz = 2 ∨ sz = 3 ∨ sz = 4)%nat).
  { unfold utf8.first in Hfirst.
    repeat (case_match; simplify_eq; auto). }
  destruct (Nat.ltb_spec (S (length s)) sz); simpl; [lia|].
  repeat (case_match; simpl; try lia).
  all: repeat match goal with
       | H : Nat.leb _ _ = false |- _ => apply Nat.leb_gt in H
       | H : Nat.leb _ _ = true |- _ => apply Nat.leb_le in H
       end; lia.
Qed.

Lemma scanBack_le (n : nat) (s : gostring) (start lim : Z) :
  (utf8.scanBack n s start lim ≤ start)%Z.
Proof.
  revert start. induction n as [|n IH]; intros start; simpl; [lia|].
  repeat case_match; try lia. specialize (IH (start - 1)%Z). lia.
Qed.

Lemma DecodeLastRuneInString_size (s : gostring) :
  s ≠ [] →
  (1 ≤ (utf8.DecodeLastRuneInString s).2 ≤ length s)%nat.
Proof.
  intros Hs. assert (0 < length s)%nat by (destruct s; simpl; [done|lia]).
  unfold utf8.DecodeLastRuneInString. cbv zeta.
  destruct (Z.eqb_spec (Z.of_nat (length s)) 0); [lia|].
  case_match; cbn [snd]; [lia|].
  match goal with
  | |- context [utf8.scanBack ?n ?s ?a ?b] =>
    pose proof (scanBack_le n s a b) as Hle;
    set (back := utf8.scanBack n s a b) in *
  end.
  set (start := if (back <? 0)%Z then 0%Z else back).
  assert (0 ≤ start < Z.of_nat (length s))%Z
    by (subst start; destruct (Z.ltb_spec back 0); lia).
  destruct (utf8.DecodeRuneInString _) as [r size] eqn:Hd.
  destruct (Z.eqb_spec (start + Z.of_nat size) (Z.of_nat (length s)));
    cbn [negb snd]; [|lia].
  split; [|lia].
  assert (drop (Z.to_nat start) s ≠ []) as Hne.
  { intros Heq. rewrite Heq in Hd. simpl in Hd. simplify_eq. lia. }
  pose proof (DecodeRuneInString_size _ Hne) as Hsz.
  rewrite Hd in Hsz. simpl in Hsz. lia.
Qed.

Lemma dropLastRune_length (e : gostring) :
  e ≠ [] → (length (generate.dropLastRune e) < length e)%nat.
Proof.
  intros He. unfold generate.dropLastRune.
  pose proof (DecodeLastRuneInString_size e He) as Hsz.
  destruct (utf8.DecodeLastRuneInString e) as [r size]; simpl in *.
  rewrite length_take. lia.
Qed.

Lemma dropLastRune_prefix (e : gostring) : generate.dropLastRune e `prefix_of` e.
Proof.
  unfold generate.dropLastRune.
  destruct (utf8.DecodeLastRuneInString e) as [r size].
  apply prefix_take.
Qed.

(** ** The rank counter of [collationData] *)

Lemma wrap64_small (z : Z) : (- 2 ^ 63 ≤ z ≤ maxInt)%Z → wrap64 z = z.
Proof. unfold wrap64, maxInt. intros ?. rewrite Z.mod_small; lia. Qed.

Lemma withRanks_nil (tbl : gmap gostring Z) (n : Z) :
  generate.withRanks tbl [] n = tbl.
Proof. done. Qed.

Lemma withRanks_cons (tbl : gmap gostring Z) (key : gostring)
    (keys : list gostring) (n : Z) :
  generate.withRanks tbl (key :: keys) n
  = generate.withRanks (<[key := n]> tbl) keys (n + 1).
Proof.
  unfold generate.withRanks. cbn [length].
  rewrite Nat2Z.inj_succ, seqZ_cons by lia. cbn [zip zip_with foldl fst snd].
  by rewrite Z.pred_succ.
Qed.

Lemma withRanks_app (tbl : gmap gostring Z) (keys1 keys2 : list gostring) (n : Z) :
  generate.withRanks tbl (keys1 ++ keys2) n
  = generate.withRanks (generate.withRanks tbl keys1 n) keys2
                       (n + Z.of_nat (length keys1)).
Proof.
  revert tbl n. induction keys1 as [|key keys1 IH]; intros tbl n.
  - rewrite withRanks_nil. simpl. f_equal. lia.
  - cbn [app length]. rewrite !withRanks_cons, IH. f_equal. lia.
Qed.

(** While the counter stays below [maxInt], a run of assignments stores the
    keys under consecutive ranks and advances the counter by their number. *)
Lemma foldl_assign (keys : list gostring) (tbl : gmap gostring Z) (n : Z) :
  (0 ≤ n)%Z → (n + Z.of_nat (length keys) ≤ maxInt)%Z →
  foldl generate.assign (tbl, n) keys
  = (generate.withRanks tbl keys n, (n + Z.of_nat (length keys))%Z).
Proof.
  revert tbl n. induction keys as [|key keys IH]; intros tbl n Hn Hmax.
  - rewrite withRanks_nil. simpl. f_equal. lia.
  - cbn [foldl generate.assign length] in *.
    rewrite wrap64_small by (unfold maxInt in *; lia).
    rewrite IH, withRanks_cons by lia. f_equal. lia.
Qed.

Lemma withRanks_lookup (keys : list gostring) (tbl : gmap gostring Z) (n : Z)
    (key : gostring) (rank : Z) :
  generate.withRanks tbl keys n !! key = Some rank →
  tbl !! key = Some rank ∨ (n ≤ rank < n + Z.of_nat (length keys))%Z.
Proof.
  revert tbl n. induction keys as [|k keys IH]; intros tbl n.
  - rewrite withRanks_nil. auto.
  - rewrite withRanks_cons. intros [Hl|Hr]%IH.
    + destruct (decide (k = key)) as [->|Hne].
      * rewrite lookup_insert_eq in Hl. simplify_eq. right. simpl. lia.
      * rewrite lookup_insert_ne in Hl by done. auto.
    + right. simpl. lia.
Qed.

(** A line that is accepted assigns exactly its [lineKeys]. *)
Lemma collationLine_keys (st st' : gmap gostring Z * Z) (line : gostring) :
  generate.collationLine st line = Ret st' →
  st' = foldl generate.assign st (generate.lineKeys line).
Proof.
  unfold generate.collationLine, generate.lineKeys.
  repeat case_match; intros; by simplify_eq.
Qed.

Lemma collationLines_keys (lines : list gostring) (st st' : gmap gostring Z * Z) :
  generate.collationLines st lines = Ret st' →
  st' = foldl generate.assign st (concat (map generate.lineKeys lines)).
Proof.
  revert st. induction lines as [|line lines IH]; intros st; simpl.
  - intros. by simplify_eq.
  - destruct (generate.collationLine st line) as [st1| |] eqn:Hline;
      simpl; try done.
    intros Hrest. apply collationLine_keys in Hline as ->.
    rewrite foldl_app. by apply IH.
Qed.

(** ** No more keys than bytes *)

Lemma rangeFrom_length (s : gostring) (skip : nat) :
  (length (utf8.rangeFrom skip s) ≤ length s)%nat.
Proof.
  revert skip.
  induction s as [|c s IH]; intros skip; cbn [utf8.rangeFrom length]; [lia|].
  destruct skip; [|specialize (IH skip); lia].
  destruct (utf8.DecodeRuneInString (c :: s)) as [r size]. cbn [length].
  specialize (IH (size - 1)%nat). lia.
Qed.

Lemma fieldsFrom_length (f : Z → bool) (rs : list (Z * gostring))
    (cur : option gostring) :
  (length (strings.fieldsFrom f cur rs)
   ≤ length rs + match cur with Some _ => 1 | None => 0 end)%nat.
Proof.
  revert cur. induction rs as [|[r bs] rs IH]; intros cur; simpl.
  - destruct cur; simpl; lia.
  - destruct (f r), cur; simpl.
    + specialize (IH None). simpl in IH. lia.
    + specialize (IH None). simpl in IH. lia.
    + specialize (IH (Some (l ++ bs))). simpl in IH. lia.
    + specialize (IH (Some bs)). simpl in IH. lia.
Qed.

Lemma FieldsFunc_length (s : gostring) (f : Z → bool) :
  (length (strings.FieldsFunc s f) ≤ length s)%nat.
Proof.
  unfold strings.FieldsFunc.
  pose proof (fieldsFrom_length f (utf8.range s) None) as H1.
  pose proof (rangeFrom_length s 0) as H2. unfold utf8.range in *.
  simpl in H1. lia.
Qed.

Lemma HasPrefix_length (s p : gostring) :
  strings.HasPrefix s p = true → (length p ≤ length s)%nat.
Proof.
  revert s. induction p as [|c p IH]; intros [|d s]; simpl; try done; try lia.
  intros [_ H]%andb_prop. apply IH in H. lia.
Qed.

(** A line with keys is longer than the number of its keys. *)
Lemma lineKeys_length (line : gostring) :
  generate.lineKeys line = [] ∨
  (length (generate.lineKeys line) < length line)%nat.
Proof.
  unfold generate.lineKeys.
  destruct (_ || _ || _); [auto|].
  destruct (strings.HasPrefix line (str "<*")) eqn:Hstar.
  - right. apply HasPrefix_length in Hstar. simpl in Hstar.
    unfold generate.starKeys. rewrite length_map.
    pose proof (rangeFrom_length (drop 2 line) 0) as Hr.
    rewrite length_drop in Hr. unfold utf8.range. lia.
  - destruct (strings.HasPrefix line (str "<")) eqn:Hlt; [|auto].
    right. apply HasPrefix_length in Hlt. simpl in Hlt.
    unfold generate.ruleKeys. rewrite length_map.
    pose proof (FieldsFunc_length (drop 1 line) generate.isRuleSep) as Hr.
    rewrite length_drop in Hr. lia.
Qed.

Lemma Index_bound (s sep : gostring) (m : nat) :
  strings.Index s sep = Some m → (m + length sep ≤ length s)%nat.
Proof.
  revert m. induction s as [|c s IH]; intros m; cbn [strings.Index].
  - destruct (strings.HasPrefix [] sep) eqn:Hp; [|done].
    apply HasPrefix_length in Hp. intros. simplify_eq. simpl in *. lia.
  - destruct (strings.HasPrefix (c :: s) sep) eqn:Hp.
    + apply HasPrefix_length in Hp. intros. simplify_eq. simpl in *. lia.
    + destruct (strings.Index s sep) as [m'|]; cbn [fmap option_fmap option_map]; [|done].
      intros. simplify_eq. specialize (IH m' eq_refl). simpl. lia.
Qed.

Lemma genSplit_sum (n : nat) (s sep : gostring) :
  (sum_list (length <$> strings.genSplit n s sep) ≤ length s)%nat.
Proof.
  revert s. induction n as [|n IH]; intros s; cbn [strings.genSplit].
  { simpl. lia. }
  destruct (strings.Index s sep) as [m|] eqn:Hm; simpl; [|lia].
  apply Index_bound in Hm.
  specialize (IH (drop (m + length sep) s)).
  rewrite length_drop in IH. rewrite length_take. unfold fmap in *. lia.
Qed.

(** The keys of a rule text are fewer than its bytes. *)
Lemma lineKeys_total (lines : list gostring) :
  concat (map generate.lineKeys lines) = [] ∨
  (length (concat (map generate.lineKeys lines))
   < sum_list (length <$> lines))%nat.
Proof.
  induction lines as [|line lines IH]; simpl; [auto|].
  destruct (lineKeys_length line) as [->|Hline], IH as [->|Hrest];
    simpl; auto; right; unfold fmap in *;
    rewrite ?length_app, ?app_nil_r; simpl; lia.
Qed.

Lemma lineKeys_Split (text : gostring) (pre post : list gostring) :
  (Z.of_nat (length text) ≤ maxInt)%Z →
  strings.Split text [byte 0x0A] = pre ++ post →
  (1 + Z.of_nat (length (concat (map generate.lineKeys pre)))
   + Z.of_nat (length (concat (map generate.lineKeys post))) ≤ maxInt)%Z.
Proof.
  intros Hlen Hsplit.
  pose proof (genSplit_sum (length text) text [byte 0x0A]) as Hsum.
  fold (strings.Split text [byte 0x0A]) in Hsum.
  pose proof (lineKeys_total (strings.Split text [byte 0x0A])) as Hkeys.
  rewrite Hsplit, map_app, concat_app in Hkeys.
  rewrite Hsplit in Hsum. rewrite length_app in Hkeys.
  destruct Hkeys as [Hnil|Hlt].
  - apply app_eq_nil in Hnil as [-> ->]. simpl. unfold maxInt. lia.
  - lia.
Qed.

Lemma HasPrefix_first (s : gostring) (p : ascii) (ps : gostring) :
  strings.HasPrefix s (p :: ps) = true →
  ∃ s', s = p :: s' ∧ strings.HasPrefix s' ps = true.
Proof.
  destruct s as [|c s]; cbn [strings.HasPrefix]; [done|].
  intros [Hc Hs]%andb_prop. apply Ascii.eqb_eq in Hc as ->. eauto.
Qed.

(** A [<*] line is never skipped: it assigns its [starKeys]. *)
Lemma star_line (line : gostring) :
  strings.HasPrefix line (str "<*") = true →
  generate.lineKeys line = generate.starKeys line
  ∧ ∀ st, generate.collationLine st line
          = Ret (foldl generate.assign st (generate.starKeys line)).
Proof.
  intros Hstar.
  destruct (HasPrefix_first _ _ _ Hstar) as (s' & -> & _).
  unfold generate.lineKeys, generate.collationLine. rewrite Hstar.
  change (strings.HasPrefix ("<"%char :: s') (str "#")) with false.
  change (strings.HasPrefix ("<"%char :: s') (str "&")) with false.
  rewrite bool_decide_eq_false_2 by done. done.
Qed.

(** The state of the loop of [collationData] after a prefix of the lines. *)
Lemma collationLines_prefix_state (text : gostring) (pre post : list gostring)
    (tbl : gmap gostring Z) (count : Z) :
  (Z.of_nat (length text) ≤ maxInt)%Z →
  strings.Split text [byte 0x0A] = pre ++ post →
  generate.collationLines (∅, 1%Z) pre = Ret (tbl, count) →
  let keys := concat (map generate.lineKeys pre) in
  count = (1 + Z.of_nat (length keys))%Z
  ∧ tbl = generate.withRanks ∅ keys 1
  ∧ (∀ key rank, tbl !! key = Some rank → (1 ≤ rank < count)%Z).
Proof.
  intros Hlen Hsplit Hpre keys.
  pose proof (lineKeys_Split text pre post Hlen Hsplit) as Hbound.
  apply collationLines_keys in Hpre. fold keys in Hpre, Hbound.
  rewrite foldl_assign in Hpre by lia. simplify_eq.
  split_and!; [done..|].
  intros key rank [Hempty|Hrank]%withRanks_lookup; [|lia].
  by rewrite lookup_empty in Hempty.
Qed.

(** ** [collationOrder]: the longest matching prefix *)

Lemma shrunk_dropLastRune (k : nat) (e : gostring) :
  generate.shrunk k (generate.dropLastRune e) = generate.shrunk (S k) e.
Proof. unfold generate.shrunk. by rewrite Nat.iter_succ_r. Qed.

Lemma shrunk_S (k : nat) (e : gostring) :
  generate.shrunk (S k) e = generate.dropLastRune (generate.shrunk k e).
Proof. done. Qed.

Lemma shrunk_nil (k : nat) : generate.shrunk k [] = [].
Proof. induction k as [|k IH]; [done|]. by rewrite shrunk_S, IH. Qed.

Lemma shrunk_prefix (k : nat) (e : gostring) : generate.shrunk k e `prefix_of` e.
Proof.
  induction k as [|k IH]; [done|].
  rewrite shrunk_S. etrans; [apply dropLastRune_prefix|done].
Qed.

(** What the loop returns when it is given at least [len(e)] rounds. *)
Lemma collationOrderLoop_spec (n : nat) (tbl : gmap gostring Z) (e : gostring) :
  (length e ≤ n)%nat →
  (∃ k, generate.shrunk k e ≠ []
        ∧ tbl !! generate.removePresentationSelector (generate.shrunk k e)
          = Some (generate.collationOrderLoop n e tbl)
        ∧ ∀ j, (j < k)%nat →
            tbl !! generate.removePresentationSelector (generate.shrunk j e)
            = None)
  ∨ ((∀ k, generate.shrunk k e ≠ [] →
        tbl !! generate.removePresentationSelector (generate.shrunk k e) = None)
     ∧ generate.collationOrderLoop n e tbl = (-1)%Z).
Proof.
  revert e. induction n as [|n IH]; intros e Hlen.
  - destruct e; [|simpl in Hlen; lia].
    right. split; [|done]. intros k. by rewrite shrunk_nil.
  - destruct e as [|c e].
    { right. split; [|done]. intros k. by rewrite shrunk_nil. }
    cbn [generate.collationOrderLoop].
    destruct (tbl !! generate.removePresentationSelector (c :: e))
      as [rank|] eqn:Hlook.
    { left. exists 0%nat. split_and!; [done|done|lia]. }
    pose proof (dropLastRune_length (c :: e) ltac:(done)) as Hdrop.
    destruct (IH (generate.dropLastRune (c :: e)) ltac:(lia))
      as [(k & Hne & Hk & Hbefore)|[Hnone Hres]].
    + left. exists (S k). rewrite <- shrunk_dropLastRune.
      split_and!; [done..|].
      intros [|j] Hj; [done|].
      rewrite <- shrunk_dropLastRune. apply Hbefore. lia.
    + right. split; [|done].
      intros [|k] Hk; [done|].
      rewrite <- shrunk_dropLastRune in *. by apply Hnone.
Qed.

(** More rounds than [len(e)] change nothing. *)
Lemma collationOrderLoop_rounds (n m : nat) (tbl : gmap gostring Z) (e : gostring) :
  (length e ≤ n)%nat → (length e ≤ m)%nat →
  generate.collationOrderLoop n e tbl = generate.collationOrderLoop m e tbl.
Proof.
  revert m e. induction n as [|n IH]; intros m e Hn Hm.
  - destruct e; [by destruct m|simpl in Hn; lia].
  - destruct e as [|c e]; [by destruct m|].
    destruct m as [|m]; [simpl in Hm; lia|].
    cbn [generate.collationOrderLoop].
    destruct (tbl !! _); [done|].
    pose proof (dropLastRune_length (c :: e) ltac:(done)) as Hdrop.
    cbn [length] in *. apply IH; lia.
Qed.

Lemma collationOrder_rounds (n : nat) (tbl : gmap gostring Z) (e : gostring) :
  (length e ≤ n)%nat →
  generate.collationOrderLoop n e tbl = generate.collationOrder e tbl.
Proof. intros. by apply collationOrderLoop_rounds. Qed.

Lemma collationOrder_spec (tbl : gmap gostring Z) (e : gostring) :
  (∃ k, generate.shrunk k e ≠ []
        ∧ tbl !! generate.removePresentationSelector (generate.shrunk k e)
          = Some (generate.collationOrder e tbl)
        ∧ ∀ j, (j < k)%nat →
            tbl !! generate.removePresentationSelector (generate.shrunk j e)
            = None)
  ∨ ((∀ k, generate.shrunk k e ≠ [] →
        tbl !! generate.removePresentationSelector (generate.shrunk k e) = None)
     ∧ generate.collationOrder e tbl = (-1)%Z).
Proof. by apply collationOrderLoop_spec. Qed.

(** The ranks of a table built by [collationData] are positive and below
    [maxInt]. *)
Lemma collationData_ranks (collations : list generate.xmlCollation)
    (tbl : gmap gostring Z) :
  (Z.of_nat (length (generate.emojiCollationOf collations)) ≤ maxInt)%Z →
  generate.collationData (generate.Parsed collations) = Ret tbl →
  ∀ key rank, tbl !! key = Some rank → (1 ≤ rank < maxInt)%Z.
Proof.
  intros Hlen Hdata key rank Hrank. unfold generate.collationData in Hdata.
  set (text := generate.emojiCollationOf collations) in *.
  destruct (decide (text = [])); [done|].
  destruct (generate.collationTable text) as [[tbl' count]| |] eqn:Htable;
    simpl in Hdata; simplify_eq.
  unfold generate.collationTable in Htable.
  pose proof (app_nil_r (strings.Split text [byte 0x0A])) as Hsplit.
  symmetry in Hsplit.
  destruct (collationLines_prefix_state text _ [] tbl count Hlen Hsplit Htable)
    as (Hcount & _ & Hranks).
  pose proof (lineKeys_Split text _ [] Hlen Hsplit) as Hbound.
  simpl in Hbound. specialize (Hranks key rank Hrank). lia.
Qed.

(** C1 (as amended): for a rank table built by [collationData],
    [collationOrder e] is the rank of the longest prefix of [e], among those
    the loop reaches by dropping the last rune by its encoded width, whose
    form without U+FE0F is a key of the table, and this rank is at least 1;
    it is -1 exactly when no such non-empty prefix is a key.  In particular,
    when the single-codepoint prefix (the last non-empty one the loop
    reaches) is a key, the result is never -1, and it is that prefix's rank
    when no longer prefix is a key. *)
Theorem collationOrder_longest_prefix
    (collations : list generate.xmlCollation) (tbl : gmap gostring Z)
    (e : gostring) :
  (Z.of_nat (length (generate.emojiCollationOf collations)) ≤ maxInt)%Z →
  generate.collationData (generate.Parsed collations) = Ret tbl →
  let key k := generate.removePresentationSelector (generate.shrunk k e) in
  ((∃ k, generate.shrunk k e ≠ []
         ∧ generate.shrunk k e `prefix_of` e
         ∧ tbl !! key k = Some (generate.collationOrder e tbl)
         ∧ (∀ j, (j < k)%nat → tbl !! key j = None)
         ∧ (1 ≤ generate.collationOrder e tbl)%Z)
   ∨ ((∀ k, generate.shrunk k e ≠ [] → tbl !! key k = None)
      ∧ generate.collationOrder e tbl = (-1)%Z))
  ∧ (∀ k rank,
       generate.shrunk k e ≠ [] → generate.shrunk (S k) e = [] →
       tbl !! key k = Some rank →
       generate.collationOrder e tbl ≠ (-1)%Z
       ∧ ((∀ j, (j < k)%nat → tbl !! key j = None) →
          generate.collationOrder e tbl = rank)).
Proof.
  intros Hlen Hdata key.
  pose proof (collationData_ranks collations tbl Hlen Hdata) as Hranks.
  assert (Hmain :
    (∃ k, generate.shrunk k e ≠ []
          ∧ generate.shrunk k e `prefix_of` e
          ∧ tbl !! key k = Some (generate.collationOrder e tbl)
          ∧ (∀ j, (j < k)%nat → tbl !! key j = None)
          ∧ (1 ≤ generate.collationOrder e tbl)%Z)
    ∨ ((∀ k, generate.shrunk k e ≠ [] → tbl !! key k = None)
       ∧ generate.collationOrder e tbl = (-1)%Z)).
  { destruct (collationOrder_spec tbl e) as [(k & Hne & Hk & Hbefore)|Hnone].
    - left. exists k. split_and!; [done|apply shrunk_prefix|done..|].
      apply Hranks in Hk. lia.
    - by right. }
  split; [exact Hmain|].
  intros k rank Hne Hlast Hk.
  destruct Hmain as [(k' & Hne' & _ & Hk' & Hbefore & Hpos)|[Hnone _]].
  - split; [lia|]. intros Hshort.
    destruct (Nat.lt_trichotomy k k') as [Hlt|[->|Hgt]].
    + rewrite (Hbefore k Hlt) in Hk. done.
    + rewrite Hk in Hk'. by simplify_eq.
    + rewrite (Hshort k' Hgt) in Hk'. done.
  - rewrite (Hnone k Hne) in Hk. done.
Qed.

(** The rule text of the examples: [<*a] and [<ab] on two lines. *)
Lemma collationOrder_longest_prefix_witness :
  let collations :=
    [{| generate.CollationType := str "emoji";
        generate.CR := str "<*a" ++ [byte 0x0A] ++ str "<ab" |}] in
  let tbl : gmap gostring Z := <[str "ab" := 2%Z]> {[str "a" := 1%Z]} in
  ((Z.of_nat (length (generate.emojiCollationOf collations)) ≤ maxInt)%Z
   ∧ generate.collationData (generate.Parsed collations) = Ret tbl)
  ∧ generate.collationOrder (str "az") tbl = 1%Z.
Proof.
  intros collations tbl.
  assert (H1 : (Z.of_nat (length (generate.emojiCollationOf collations))
                ≤ maxInt)%Z) by (vm_compute; discriminate).
  assert (H2 : generate.collationData (generate.Parsed collations) = Ret tbl)
    by (vm_compute; reflexivity).
  split; [done|].
  destruct (collationOrder_longest_prefix collations tbl (str "az") H1 H2)
    as [_ Hsingle].
  refine (proj2 (Hsingle 1%nat 1%Z _ _ _) _).
  - vm_compute. discriminate.
  - vm_compute. reflexivity.
  - vm_compute. reflexivity.
  - intros [|j] Hj; [vm_compute; reflexivity|lia].
Defined.

(** C1, as stated, fails: with the table of [<*a] and [<ab], the emoji [abc]
    is not a key and its single-codepoint prefix [a] has rank 1, but
    [collationOrder] returns 2, the rank of the longer prefix [ab]. *)
Lemma collationOrder_single_codepoint_counterexample :
  ∃ tbl,
    generate.collationData
      (generate.Parsed
         [{| generate.CollationType := str "emoji";
             generate.CR := str "<*a" ++ [byte 0x0A] ++ str "<ab" |}])
    = Ret tbl
    ∧ tbl !! generate.removePresentationSelector (str "abc") = None
    ∧ generate.shrunk 2 (str "abc") = str "a"
    ∧ tbl !! generate.removePresentationSelector (str "a") = Some 1%Z
    ∧ generate.collationOrder (str "abc") tbl = 2%Z
    ∧ generate.collationOrder (str "abc") tbl ≠ 1%Z.
Proof.
  eexists. split; [vm_compute; reflexivity|].
  split_and!; try (vm_compute; reflexivity).
  vm_compute. discriminate.
Qed.

(** ** [parseEmojiDataLine] *)

Lemma parseDigits_bound (base maxVal cutoff : Z) (s : gostring) (n v : Z) :
  (0 ≤ base)%Z → (0 ≤ n ≤ maxVal)%Z →
  strconv.parseDigits base maxVal cutoff n s = inr v → (0 ≤ v ≤ maxVal)%Z.
Proof.
  intros Hbase. revert n. induction s as [|ch s IH]; intros n Hn; simpl.
  - intros. simplify_eq. lia.
  - repeat case_match; try done; intros Hv; apply IH in Hv; try done.
    all: repeat match goal with
         | H : (_ <? _)%Z = false |- _ => apply Z.ltb_ge in H
         | H : (_ <=? _)%Z = false |- _ => apply Z.leb_gt in H
         | H : _ && _ = true |- _ => apply andb_prop in H as [? ?]
         | H : (_ <=? _)%Z = true |- _ => apply Z.leb_le in H
         | H : Some _ = Some _ |- _ => injection H as <-
         end; unfold strconv.lower in *; nia.
Qed.

(** [strconv.ParseInt(s, 16, 32)] yields a 32-bit value. *)
Lemma ParseInt_32 (s : gostring) (v : Z) :
  strconv.ParseInt s 16 32 = inr v → (- 2 ^ 31 ≤ v < 2 ^ 31)%Z.
Proof.
  unfold strconv.ParseInt. destruct s as [|c s]; [done|].
  destruct (if Ascii.eqb c "+" then _ else _) as [neg digits].
  destruct (strconv.ParseUint digits 16 32) as [|un] eqn:Hun; [done|].
  unfold strconv.ParseUint in Hun. destruct digits; [done|].
  apply parseDigits_bound in Hun; [|lia|lia].
  change (2 ^ (32 - 1))%Z with (2 ^ 31)%Z. change (2 ^ 32 - 1)%Z with 4294967295%Z in Hun.
  destruct neg; simpl.
  - destruct (Z.ltb_spec (2 ^ 31) un); [done|]. intros. simplify_eq. lia.
  - destruct (Z.leb_spec (2 ^ 31) un); [done|]. intros. simplify_eq. lia.
Qed.

Lemma parseCodePoints_no_panic (line : gostring) (codePoints : list gostring)
    (p : panic) :
  generate.parseCodePoints line codePoints ≠ Panic p.
Proof.
  induction codePoints as [|cp rest IH]; simpl; [done|].
  destruct (strconv.ParseInt cp 16 32); [done|].
  destruct (generate.parseCodePoints line rest); simpl; done.
Qed.

(** The only panic of [parseEmojiDataLine] is the negative capacity of
    [make] for a range whose start exceeds its end by two or more. *)
Lemma parseEmojiDataLine_panic_inv (line : gostring) (p : panic) :
  generate.parseEmojiDataLine line = Panic p →
  p = PanicMakeslice
  ∧ ∃ part0 part1 rest startStr endStr start end_,
      strings.SplitN (strings.Cut line (str "#")).1.1 (str ";") 3
      = part0 :: part1 :: rest
      ∧ strings.Cut (strings.TrimSpace part0) (str "..")
        = (startStr, endStr, true)
      ∧ strconv.ParseInt startStr 16 32 = inr start
      ∧ strconv.ParseInt endStr 16 32 = inr end_
      ∧ (end_ + 1 < start)%Z.
Proof.
  unfold generate.parseEmojiDataLine.
  destruct (strings.Cut line (str "#")) as [[line' after] found].
  destruct line' as [|c line']; [done|]. cbn [fst].
  destruct (strings.SplitN (c :: line') (str ";") 3)
    as [|part0 [|part1 rest]] eqn:Hparts; [done..|].
  destruct (strings.Cut (strings.TrimSpace part0) (str ".."))
    as [[startStr endStr] [|]] eqn:Hcut.
  - destruct (strconv.ParseInt startStr 16 32) as [|start] eqn:Hstart; [done|].
    destruct (strconv.ParseInt endStr 16 32) as [|end_] eqn:Hend; [done|].
    pose proof (ParseInt_32 _ _ Hstart). pose proof (ParseInt_32 _ _ Hend).
    rewrite (wrap64_small (end_ - start)) by (unfold maxInt; lia).
    rewrite wrap64_small by (unfold maxInt; lia).
    unfold generate.makeSlice.
    destruct (Z.ltb_spec (end_ - start + 1) 0); simpl; [|done].
    intros. simplify_eq. split; [done|].
    eexists _, _, _, _, _, _, _. split_and!; [done..|lia].
  - destruct (generate.parseCodePoints _ _) eqn:Hcp; simpl; try done.
    by apply parseCodePoints_no_panic in Hcp.
Qed.

(** C10 fails on the code: on the range line [3..1;x], whose start exceeds its
    end by two, [parseEmojiDataLine] does not return: [make([]string, 0,
    end-start+1)] is called with capacity -1 and panics. *)
Theorem parseEmojiDataLine_reversed_range_panics :
  generate.parseEmojiDataLine (str "3..1;x") = Panic PanicMakeslice.
Proof. vm_compute. reflexivity. Qed.

(** A range whose start exceeds its end by one is still answered with the
    empty list. *)
Lemma parseEmojiDataLine_empty_range :
  generate.parseEmojiDataLine (str "3..2;x") = Ret ([], str "x").
Proof. vm_compute. reflexivity. Qed.

(** ** The keys of a [<*] line *)

Lemma withRanks_lookup_notin (keys : list gostring) (tbl : gmap gostring Z)
    (n : Z) (key : gostring) :
  key ∉ keys → generate.withRanks tbl keys n !! key = tbl !! key.
Proof.
  revert tbl n. induction keys as [|k keys IH]; intros tbl n Hnotin.
  - by rewrite withRanks_nil.
  - apply not_elem_of_cons in Hnotin as [Hne Hnotin].
    rewrite withRanks_cons, IH by done. by rewrite lookup_insert_ne.
Qed.

(** A key holds the rank of its last assignment. *)
Lemma withRanks_lookup_last (keys : list gostring) (tbl : gmap gostring Z)
    (n : Z) (i : nat) (key : gostring) :
  keys !! i = Some key →
  (∀ j, (i < j)%nat → keys !! j ≠ Some key) →
  generate.withRanks tbl keys n !! key = Some (n + Z.of_nat i)%Z.
Proof.
  revert tbl n i. induction keys as [|k keys IH]; intros tbl n i Hi Hlast.
  - done.
  - rewrite withRanks_cons. destruct i as [|i]; simpl in Hi.
    + simplify_eq. rewrite withRanks_lookup_notin.
      * rewrite lookup_insert_eq. f_equal. lia.
      * intros (j & Hj)%list_elem_of_lookup_1.
        by apply (Hlast (S j) ltac:(lia)).
    + rewrite (IH _ _ i) by
        (try done; intros j Hj; apply (Hlast (S j)); lia).
      f_equal. lia.
Qed.

(** C5 (as amended): a rule line that begins with [<*] stores every rune of
    the rest of the line as a key of its own, [string([]rune{r})], under the
    next consecutive rank.  The presentation selector is not stripped on this
    path: a U+FE0F on such a line becomes the key U+FE0F. *)
Theorem star_line_stores_each_rune (text : gostring) (pre rest : list gostring)
    (line : gostring) (tbl : gmap gostring Z) (count : Z) :
  (Z.of_nat (length text) ≤ maxInt)%Z →
  strings.Split text [byte 0x0A] = pre ++ line :: rest →
  generate.collationLines (∅, 1%Z) pre = Ret (tbl, count) →
  strings.HasPrefix line (str "<*") = true →
  let runes := utf8.range (drop 2 line) in
  let keys := generate.starKeys line in
  ∃ tbl',
    generate.collationLine (tbl, count) line
    = Ret (tbl', (count + Z.of_nat (length runes))%Z)
    ∧ length keys = length runes
    ∧ (∀ i r bs, runes !! i = Some (r, bs) →
         keys !! i = Some (utf8.encodeRunes [r])
         ∧ (r = 0xFE0F%Z → keys !! i = Some generate.presentationSelector))
    ∧ (∀ i key, keys !! i = Some key →
         (∀ j, (i < j)%nat → keys !! j ≠ Some key) →
         tbl' !! key = Some (count + Z.of_nat i)%Z)
    ∧ (∀ key, key ∉ keys → tbl' !! key = tbl !! key).
Proof.
  intros Hlen Hsplit Hpre Hstar runes keys.
  destruct (collationLines_prefix_state text pre _ tbl count Hlen Hsplit Hpre)
    as (Hcount & _ & _).
  destruct (star_line line Hstar) as [Hkeys Hline].
  pose proof (lineKeys_Split text pre (line :: rest) Hlen Hsplit) as Hbound.
  cbn [map concat] in Hbound. rewrite length_app, Hkeys in Hbound.
  assert (Hlength : length (generate.starKeys line)
                   = length (utf8.range (drop 2 line)))
    by (unfold generate.starKeys; by rewrite length_map).
  exists (generate.withRanks tbl keys count).
  split_and!.
  - subst keys runes.
    rewrite Hline, foldl_assign by lia. by rewrite Hlength.
  - done.
  - intros i r bs Hi.
    assert (keys !! i = Some (utf8.encodeRunes [r])) as Hkey.
    { subst keys. unfold generate.starKeys.
      rewrite list_lookup_fmap. fold runes. by rewrite Hi. }
    split; [done|]. intros ->. by rewrite Hkey.
  - intros i key Hi Hlast. by apply withRanks_lookup_last.
  - intros key Hkey. by apply withRanks_lookup_notin.
Qed.

Lemma star_line_stores_each_rune_witness :
  let text := str "<*ab" ++ [byte 0x0A] ++ str "<*c"
              ++ generate.presentationSelector in
  let tbl : gmap gostring Z := <[str "b" := 2%Z]> {[str "a" := 1%Z]} in
  ((Z.of_nat (length text) ≤ maxInt)%Z
   ∧ strings.Split text [byte 0x0A]
     = [str "<*ab"] ++ (str "<*c" ++ generate.presentationSelector) :: []
   ∧ generate.collationLines (∅, 1%Z) [str "<*ab"] = Ret (tbl, 3%Z)
   ∧ strings.HasPrefix (str "<*c" ++ generate.presentationSelector) (str "<*")
     = true)
  ∧ ∃ tbl',
      generate.collationLine (tbl, 3%Z)
        (str "<*c" ++ generate.presentationSelector)
      = Ret (tbl', 5%Z)
      ∧ tbl' !! generate.presentationSelector = Some 4%Z.
Proof.
  intros text tbl.
  assert (H1 : (Z.of_nat (length text) ≤ maxInt)%Z) by (vm_compute; discriminate).
  assert (H2 : strings.Split text [byte 0x0A]
     = [str "<*ab"] ++ (str "<*c" ++ generate.presentationSelector) :: [])
    by reflexivity.
  assert (H3 : generate.collationLines (∅, 1%Z) [str "<*ab"] = Ret (tbl, 3%Z))
    by (vm_compute; reflexivity).
  assert (H4 : strings.HasPrefix (str "<*c" ++ generate.presentationSelector)
                 (str "<*") = true) by reflexivity.
  split; [done|].
  destruct (star_line_stores_each_rune text _ _ _ tbl 3 H1 H2 H3 H4)
    as (tbl' & Hline & _ & _ & Hrank & _).
  exists tbl'. split; [exact Hline|].
  apply (Hrank 1%nat generate.presentationSelector); [reflexivity|].
  intros [|[|j]] Hj; [lia..|]. vm_compute. discriminate.
Defined.

(** C5, as stated, fails: the line [<*] followed by U+FE0F stores the key
    U+FE0F itself, unstripped, under rank 1. *)
Lemma star_line_selector_counterexample :
  let line := str "<*" ++ generate.presentationSelector in
  strings.HasPrefix line (str "<*") = true
  ∧ generate.collationLine (∅, 1%Z) line
    = Ret ({[generate.presentationSelector := 1%Z]}, 2%Z)
  ∧ strings.Contains generate.presentationSelector
      generate.presentationSelector = true
  ∧ generate.removePresentationSelector generate.presentationSelector
    ≠ generate.presentationSelector.
Proof.
  split_and!; try (vm_compute; reflexivity). vm_compute. discriminate.
Qed.

(** ** The emoji set *)

Lemma modifierLines_rows (lines : list gostring) (acc modifiers : list gostring) :
  generate.modifierLines lines acc = Ret modifiers ↔
  ∃ rows, generate.tableRows lines = Ret rows
          ∧ modifiers
            = acc ++ concat (map fst (filter generate.isModifierRow rows)).
Proof.
  revert acc. induction lines as [|line lines IH]; intros acc; simpl.
  - split.
    + intros. simplify_eq. exists []. by rewrite app_nil_r.
    + intros (rows & ? & ->). simplify_eq. by rewrite app_nil_r.
  - destruct (generate.parseEmojiDataLine line) as [[emojis tag]| |];
      simpl; [|by split; [|intros (? & ? & ?)]..].
    assert (Hrow : ∀ rows,
      (if decide (tag = str "Emoji_Modifier") then acc ++ emojis else acc)
      ++ concat (map fst (filter generate.isModifierRow rows))
      = acc ++ concat (map fst (filter generate.isModifierRow
                                       ((emojis, tag) :: rows)))).
    { intros rows. destruct (decide (tag = str "Emoji_Modifier")) as [Ht|Ht].
      - rewrite filter_cons_True by done. simpl. by rewrite app_assoc.
      - by rewrite filter_cons_False by done. }
    rewrite IH. split.
    + intros (rows & Hrows & ->). rewrite Hrows. simpl.
      exists ((emojis, tag) :: rows). by rewrite Hrow.
    + destruct (generate.tableRows lines) as [rows'| |]; simpl;
        intros (rows & Hrows & ->); simplify_eq.
      exists rows'. by rewrite Hrow.
Qed.

Lemma emojiLines_rows (lines : list gostring) (modifiers : gmap gostring bool)
    (acc emojis : list gostring) :
  generate.emojiLines lines modifiers acc = Ret emojis ↔
  ∃ rows, generate.tableRows lines = Ret rows
          ∧ emojis = acc ++ filter (λ e, generate.isModifier modifiers e = false)
                                   (concat (map fst rows)).
Proof.
  revert acc. induction lines as [|line lines IH]; intros acc; simpl.
  - split.
    + intros. simplify_eq. exists []. by rewrite app_nil_r.
    + intros (rows & ? & ->). simplify_eq. by rewrite app_nil_r.
  - destruct (generate.parseEmojiDataLine line) as [[lineEmojis tag]| |];
      simpl; [|by split; [|intros (? & ? & ?)]..].
    rewrite IH. split.
    + intros (rows & Hrows & ->). rewrite Hrows. simpl.
      exists ((lineEmojis, tag) :: rows). split; [done|].
      simpl. by rewrite filter_app, app_assoc.
    + destruct (generate.tableRows lines) as [rows'| |]; simpl;
        intros (rows & Hrows & ->); simplify_eq.
      exists rows'. split; [done|].
      simpl. by rewrite filter_app, app_assoc.
Qed.

(** The map [emojis] builds from the modifier slice holds exactly its
    members. *)
Lemma isModifier_foldl (modifiersSlice : list gostring) (e : gostring) :
  generate.isModifier (foldl (λ m k, <[k := true]> m) ∅ modifiersSlice) e = true
  ↔ e ∈ modifiersSlice.
Proof.
  unfold generate.isModifier.
  assert (∀ (m : gmap gostring bool),
    default false (foldl (λ m k, <[k := true]> m) m modifiersSlice !! e) = true
    ↔ e ∈ modifiersSlice ∨ default false (m !! e) = true) as Hgen.
  { induction modifiersSlice as [|k ks IH]; intros m; simpl.
    - rewrite elem_of_nil. tauto.
    - rewrite IH, elem_of_cons.
      destruct (decide (k = e)) as [->|Hne].
      + rewrite lookup_insert_eq. simpl. tauto.
      + rewrite lookup_insert_ne by done. intuition congruence. }
  rewrite Hgen, lookup_empty. simpl. intuition congruence.
Qed.

(** C3: when [emojis] returns a set, the three URLs answered with tables all
    of whose lines parse, and the set is the emoji of the sequence table
    followed by the emoji of the ZWJ-sequence table, in order, without the
    values that the property table tags [Emoji_Modifier].  No modifier value
    is an entry of the set; every other parsed value is, so that a sequence
    containing a modifier is kept. *)
Theorem emojis_built_set (dataResp seqResp zwjResp : response)
    (built : list gostring) :
  generate.emojis dataResp seqResp zwjResp = Ret built →
  ∃ dataLines seqLines zwjLines dataRows seqRows zwjRows,
    dataResp = Body dataLines None
    ∧ seqResp = Body seqLines None
    ∧ zwjResp = Body zwjLines None
    ∧ generate.tableRows dataLines = Ret dataRows
    ∧ generate.tableRows seqLines = Ret seqRows
    ∧ generate.tableRows zwjLines = Ret zwjRows
    ∧ let modifiers := concat (map fst (filter generate.isModifierRow dataRows)) in
      let parsed rows := concat (map fst rows) in
      built = filter (λ e, e ∉ modifiers) (parsed seqRows)
              ++ filter (λ e, e ∉ modifiers) (parsed zwjRows)
      ∧ (∀ m, m ∈ modifiers → m ∉ built)
      ∧ (∀ e, e ∈ parsed seqRows ++ parsed zwjRows → e ∉ modifiers →
              e ∈ built).
Proof.
  unfold generate.emojis. intros Hbuilt.
  destruct (generate.emojiModifiers dataResp) as [modifiersSlice| |] eqn:Hmods;
    simpl in Hbuilt; try done.
  set (modifiers := foldl (λ m k, <[k := true]> m) ∅ modifiersSlice) in *.
  destruct (generate.emojisInFile _ seqResp modifiers) as [sequences| |] eqn:Hseq;
    simpl in Hbuilt; try done.
  destruct (generate.emojisInFile _ zwjResp modifiers) as [zwj| |] eqn:Hzwj;
    simpl in Hbuilt; try done.
  simplify_eq.
  destruct dataResp as [| |dataLines [|]]; simpl in Hmods; try done;
    [destruct (generate.modifierLines _ _); simpl in Hmods; discriminate Hmods|].
  destruct seqResp as [| |seqLines [|]]; simpl in Hseq; try done;
    [destruct (generate.emojiLines seqLines _ _); simpl in Hseq; discriminate Hseq|].
  destruct zwjResp as [| |zwjLines [|]]; simpl in Hzwj; try done;
    [destruct (generate.emojiLines zwjLines _ _); simpl in Hzwj; discriminate Hzwj|].
  destruct (generate.modifierLines dataLines []) as [ms| |] eqn:Hms;
    simpl in Hmods; simplify_eq.
  destruct (generate.emojiLines seqLines _ []) as [ss| |] eqn:Hss;
    simpl in Hseq; simplify_eq.
  destruct (generate.emojiLines zwjLines _ []) as [zs| |] eqn:Hzs;
    simpl in Hzwj; simplify_eq.
  apply modifierLines_rows in Hms as (dataRows & HdataRows & ->).
  apply emojiLines_rows in Hss as (seqRows & HseqRows & ->).
  apply emojiLines_rows in Hzs as (zwjRows & HzwjRows & ->).
  exists dataLines, seqLines, zwjLines, dataRows, seqRows, zwjRows.
  do 6 (split; [done|]). simpl in *.
  set (mods := concat (map fst (filter generate.isModifierRow dataRows))) in *.
  assert (Hfilter : ∀ l : list gostring,
    filter (λ e, generate.isModifier modifiers e = false) l
    = filter (λ e, e ∉ mods) l).
  { intros l. apply list_filter_iff. intros e. subst modifiers.
    rewrite <- isModifier_foldl. by destruct (generate.isModifier _ e). }
  rewrite !Hfilter. split_and!; [done| |].
  - intros m Hm. rewrite elem_of_app, !list_elem_of_filter. tauto.
  - intros e He Hne. rewrite elem_of_app, !list_elem_of_filter.
    apply elem_of_app in He. tauto.
Qed.

(** The example of the spec: U+1F3FB is a modifier; the sequence table lists
    it alone and after U+1F44D. *)
Lemma emojis_built_set_witness :
  let dataLines := [str "1F3FB ; Emoji_Modifier # skin tone"] in
  let seqLines := [str "1F3FB ; Basic_Emoji"; str "1F44D 1F3FB ; RGI"] in
  let built := [utf8.encodeRunes [0x1F44D; 0x1F3FB]%Z] in
  (generate.emojis (Body dataLines None) (Body seqLines None) (Body [] None)
   = Ret built)
  ∧ (utf8.encodeRunes [0x1F3FB%Z] ∉ built)
  ∧ ∃ dataRows seqRows,
      generate.tableRows dataLines = Ret dataRows
      ∧ generate.tableRows seqLines = Ret seqRows
      ∧ built
        = filter (λ e, e ∉ concat (map fst (filter generate.isModifierRow
                                                   dataRows)))
                 (concat (map fst seqRows)).
Proof.
  intros dataLines seqLines built.
  assert (H : generate.emojis (Body dataLines None) (Body seqLines None)
                (Body [] None) = Ret built) by (vm_compute; reflexivity).
  split; [exact H|].
  destruct (emojis_built_set _ _ _ _ H)
    as (d & s & z & dataRows & seqRows & zwjRows
        & Hd & Hs & Hz & Hdr & Hsr & Hzr & Hbuilt & Hmods & _).
  injection Hd as <-. injection Hs as <-. injection Hz as <-.
  split.
  - apply Hmods. simpl in Hdr.
    vm_compute in Hdr. injection Hdr as <-. vm_compute. left.
  - exists dataRows, seqRows. split_and!; [done..|].
    simpl in Hzr. injection Hzr as <-. simpl in Hbuilt.
    by rewrite app_nil_r in Hbuilt.
Defined.

(** ** The order [generate] sorts by *)

Lemma byteZ_inj (x y : ascii) : byteZ x = byteZ y → x = y.
Proof.
  unfold byteZ. intros H%N2Z.inj.
  by rewrite <- (ascii_N_embedding x), <- (ascii_N_embedding y), H.
Qed.

Lemma Compare_eq (a b : gostring) : strings.Compare a b = 0%Z ↔ a = b.
Proof.
  revert b. induction a as [|x a IH]; intros [|y b]; simpl; try done.
  destruct (Z.ltb_spec (byteZ x) (byteZ y)); [split; [done|]|].
  { intros. simplify_eq. lia. }
  destruct (Z.ltb_spec (byteZ y) (byteZ x)); [split; [done|]|].
  { intros. simplify_eq. lia. }
  assert (x = y) as -> by (apply byteZ_inj; lia).
  rewrite IH. split; intros; by simplify_eq.
Qed.

Lemma Compare_flip (a b : gostring) :
  strings.Compare b a = (- strings.Compare a b)%Z.
Proof.
  revert b. induction a as [|x a IH]; intros [|y b]; simpl; try done.
  destruct (Z.ltb_spec (byteZ x) (byteZ y)), (Z.ltb_spec (byteZ y) (byteZ x));
    try done; lia.
Qed.

Lemma Compare_trans (a b c : gostring) :
  (strings.Compare a b ≤ 0)%Z → (strings.Compare b c ≤ 0)%Z →
  (strings.Compare a c ≤ 0)%Z.
Proof.
  revert b c. induction a as [|x a IH]; intros [|y b] [|z c]; simpl; try done.
  destruct (Z.ltb_spec (byteZ x) (byteZ y)), (Z.ltb_spec (byteZ y) (byteZ x)),
    (Z.ltb_spec (byteZ y) (byteZ z)), (Z.ltb_spec (byteZ z) (byteZ y)),
    (Z.ltb_spec (byteZ x) (byteZ z)), (Z.ltb_spec (byteZ z) (byteZ x));
    try done; try lia.
  apply IH.
Qed.

Section order.
Variable collation : gmap gostring Z.
Hypothesis ranks :
  ∀ key rank, collation !! key = Some rank → (1 ≤ rank < maxInt)%Z.

Lemma collationOrder_range (e : gostring) :
  (-1 ≤ generate.collationOrder e collation < maxInt)%Z.
Proof using ranks.
  destruct (collationOrder_spec collation e) as [(k & _ & Hk & _)|[_ ->]].
  - apply ranks in Hk. lia.
  - unfold maxInt. lia.
Qed.

(** The subtraction of two ranks does not wrap around. *)
Lemma cmp_unfold (e f : gostring) :
  generate.cmp collation e f
  = (let n := generate.collationOrder e collation
              - generate.collationOrder f collation in
     if decide (n = 0) then strings.Compare e f else n)%Z.
Proof using ranks.
  unfold generate.cmp.
  pose proof (collationOrder_range e). pose proof (collationOrder_range f).
  rewrite wrap64_small by (unfold maxInt in *; lia). cbn zeta.
  destruct (Z.eqb_spec (generate.collationOrder e collation
                        - generate.collationOrder f collation) 0);
    by case_decide.
Qed.

Lemma cmpLe_total : Total (generate.cmpLe collation).
Proof using ranks.
  intros e f. unfold generate.cmpLe. rewrite !cmp_unfold. cbn zeta.
  repeat case_decide; try lia. rewrite (Compare_flip e f). lia.
Qed.

Lemma cmpLe_trans : Transitive (generate.cmpLe collation).
Proof using ranks.
  intros e f g. unfold generate.cmpLe. rewrite !cmp_unfold. cbn zeta.
  repeat case_decide; try lia. apply Compare_trans.
Qed.

Lemma cmpLe_antisym : AntiSymm (=) (generate.cmpLe collation).
Proof using ranks.
  intros e f. unfold generate.cmpLe. rewrite !cmp_unfold. cbn zeta.
  repeat case_decide; try lia.
  rewrite (Compare_flip e f). intros. apply Compare_eq. lia.
Qed.

(** Because the comparison is a total order on strings, a slice has one
    ascending arrangement only: whatever [slices.SortFunc] does, it
    returns this one. *)
Lemma sorted_by_cmp_unique (emojis sorted : list gostring) :
  sorted ≡ₚ emojis → Sorted (generate.cmpLe collation) sorted →
  sorted = generate.SortFunc (generate.cmpLe collation) emojis.
Proof using ranks.
  intros Hperm Hsorted. unfold generate.SortFunc.
  apply (@Sorted_unique _ _ cmpLe_trans cmpLe_antisym); [done| |].
  - apply (@Sorted_merge_sort _ _ _ cmpLe_total).
  - by rewrite merge_sort_Permutation.
Qed.

Lemma SortFunc_sorted (emojis : list gostring) :
  Sorted (generate.cmpLe collation)
         (generate.SortFunc (generate.cmpLe collation) emojis).
Proof using ranks. apply (@Sorted_merge_sort _ _ _ cmpLe_total). Qed.

End order.

Lemma SortFunc_Permutation (collation : gmap gostring Z) (emojis : list gostring) :
  generate.SortFunc (generate.cmpLe collation) emojis ≡ₚ emojis.
Proof. apply merge_sort_Permutation. Qed.

(** ** The annotation store *)

Lemma annotationStep_cases (m : gmap gostring nat) (h : generate.store)
    (annotation : generate.xmlAnnotation) :
  (∃ p, m !! generate.CP annotation = Some p
        ∧ generate.annotationStep (m, h) annotation
          = (m, alter (generate.updateOf annotation) p h))
  ∨ (m !! generate.CP annotation = None
     ∧ generate.annotationStep (m, h) annotation
       = (<[generate.CP annotation := length h]> m,
          alter (generate.updateOf annotation) (length h) (generate.new h).2)).
Proof.
  unfold generate.annotationStep, generate.updateOf.
  destruct (m !! generate.CP annotation) as [p|] eqn:Hp.
  - left. exists p. split; [done|]. by case_decide.
  - right. split; [done|]. cbn [generate.new snd]. by case_decide.
Qed.

Lemma annotationStep_owns (h0 : generate.store)
    (st : gmap gostring nat * generate.store)
    (annotation : generate.xmlAnnotation) :
  generate.ownsPointers h0 st →
  generate.ownsPointers h0 (generate.annotationStep st annotation).
Proof.
  destruct st as [m h]. intros (Hlen & Hvalid & Hinj). cbn [fst snd] in *.
  destruct (annotationStep_cases m h annotation) as [(p & Hp & ->)|[Hnone ->]];
    unfold generate.ownsPointers; cbn [fst snd generate.new].
  - rewrite length_alter. done.
  - rewrite length_alter, length_app. simpl. split_and!; [lia| |].
    + intros key p. destruct (decide (generate.CP annotation = key)) as [<-|Hne].
      * rewrite lookup_insert_eq. intros. simplify_eq. lia.
      * rewrite lookup_insert_ne by done. intros Hp%Hvalid. lia.
    + intros k1 k2 p.
      destruct (decide (generate.CP annotation = k1)) as [<-|Hne1],
               (decide (generate.CP annotation = k2)) as [<-|Hne2];
        rewrite ?lookup_insert_eq, ?lookup_insert_ne by done; try done.
      * intros ? Hp%Hvalid. simplify_eq. lia.
      * intros Hp%Hvalid ?. simplify_eq. lia.
      * apply Hinj.
Qed.

Lemma foldl_annotationStep_owns (h0 : generate.store)
    (elems : list generate.xmlAnnotation)
    (st : gmap gostring nat * generate.store) :
  generate.ownsPointers h0 st →
  generate.ownsPointers h0 (foldl generate.annotationStep st elems).
Proof.
  revert st. induction elems as [|a elems IH]; intros st Hst; [done|].
  simpl. by apply IH, annotationStep_owns.
Qed.

Lemma ownsPointers_empty (h0 : generate.store) :
  generate.ownsPointers h0 (∅, h0).
Proof.
  unfold generate.ownsPointers. cbn [fst snd].
  split_and!; [done|intros ??|intros ???]; by rewrite lookup_empty.
Qed.

(** A non-[tts] element overwrites the keyword list of its [cp]. *)
Lemma annotationStep_sets (h0 : generate.store)
    (st : gmap gostring nat * generate.store)
    (annotation : generate.xmlAnnotation) :
  generate.ownsPointers h0 st →
  generate.Type_ annotation ≠ str "tts" →
  generate.holdsKeywords (generate.CP annotation)
    (strings.FieldsFunc (generate.Annotation annotation) generate.isKeywordSep)
    (generate.annotationStep st annotation).
Proof.
  destruct st as [m h]. intros (Hlen & Hvalid & Hinj) Htype. cbn [fst snd] in *.
  assert (Hupd : ∀ a, generate.emojiAnnotation.annotations
                        (generate.updateOf annotation a)
                      = strings.FieldsFunc (generate.Annotation annotation)
                                           generate.isKeywordSep).
  { intros a. unfold generate.updateOf. by case_decide. }
  destruct (annotationStep_cases m h annotation) as [(p & Hp & ->)|[Hnone ->]];
    unfold generate.holdsKeywords; cbn [fst snd generate.new].
  - destruct (lookup_lt_is_Some_2 h p) as [a Ha]; [apply Hvalid in Hp; lia|].
    exists p, (generate.updateOf annotation a). split_and!; [done| |done].
    by rewrite list_lookup_alter_eq, Ha.
  - eexists (length h), _. split_and!; [by rewrite lookup_insert_eq| |apply Hupd].
    rewrite list_lookup_alter_eq, lookup_app_r, Nat.sub_diag by lia. done.
Qed.

(** Another element leaves the keyword list of a key alone, unless it is a
    non-[tts] element of the same [cp]. *)
Lemma annotationStep_keeps (h0 : generate.store)
    (st : gmap gostring nat * generate.store)
    (annotation : generate.xmlAnnotation) (key : gostring)
    (kws : list gostring) :
  generate.ownsPointers h0 st →
  (generate.CP annotation = key → generate.Type_ annotation = str "tts") →
  generate.holdsKeywords key kws st →
  generate.holdsKeywords key kws (generate.annotationStep st annotation).
Proof.
  destruct st as [m h].
  intros (Hlen & Hvalid & Hinj) Htts (q & a & Hq & Ha & Hkws).
  cbn [fst snd] in *.
  assert (Hsame : generate.CP annotation = key →
            generate.emojiAnnotation.annotations (generate.updateOf annotation a) = kws).
  { intros Hkey. unfold generate.updateOf. by rewrite decide_True by auto. }
  destruct (annotationStep_cases m h annotation) as [(p & Hp & ->)|[Hnone ->]];
    unfold generate.holdsKeywords; cbn [fst snd generate.new].
  - destruct (decide (p = q)) as [->|Hne].
    + exists q, (generate.updateOf annotation a). split_and!; [done| |].
      * by rewrite list_lookup_alter_eq, Ha.
      * apply Hsame. by apply (Hinj _ _ q).
    + exists q, a. split_and!; [done| |done].
      by rewrite list_lookup_alter_ne.
  - assert (generate.CP annotation ≠ key)
      by (intros Heq; rewrite Heq in Hnone; congruence).
    assert (q < length h)%nat by (apply Hvalid in Hq; lia).
    exists q, a. split_and!; [by rewrite lookup_insert_ne| |done].
    rewrite list_lookup_alter_ne by lia. by rewrite lookup_app_l.
Qed.

Lemma foldl_annotationStep_keeps (h0 : generate.store)
    (post : list generate.xmlAnnotation)
    (st : gmap gostring nat * generate.store) (key : gostring)
    (kws : list gostring) :
  generate.ownsPointers h0 st →
  (∀ b, b ∈ post → generate.CP b = key → generate.Type_ b = str "tts") →
  generate.holdsKeywords key kws st →
  generate.holdsKeywords key kws (foldl generate.annotationStep st post).
Proof.
  revert st. induction post as [|b post IH]; intros st Hst Htts Hkey; [done|].
  simpl. apply IH.
  - by apply annotationStep_owns.
  - intros b' Hb'. apply Htts. by right.
  - apply (annotationStep_keeps h0); [done| |done]. apply Htts. by left.
Qed.

(** C6 (as amended): an [<annotation>] element whose type is not [tts]
    overwrites the keyword list of its [cp] with the fields of its content
    that [strings.FieldsFunc] cuts at spaces and at [|] (so a keyword of
    several words is stored as several keywords); the list stays until the
    next non-[tts] element of the same [cp], which overwrites it again. *)
Theorem annotationsInFile_keywords (pre post : list generate.xmlAnnotation)
    (a : generate.xmlAnnotation) (h0 : generate.store)
    (m : gmap gostring nat) (h : generate.store) :
  generate.Type_ a ≠ str "tts" →
  (∀ b, b ∈ post → generate.CP b = generate.CP a →
        generate.Type_ b = str "tts") →
  generate.annotationsInFile (generate.Parsed (pre ++ a :: post)) h0
  = Ret (m, h) →
  ∃ p record,
    m !! generate.CP a = Some p ∧ h !! p = Some record
    ∧ generate.emojiAnnotation.annotations record
      = strings.FieldsFunc (generate.Annotation a)
          (λ r, (r =? 0x20)%Z || (r =? 0x7C)%Z).
Proof.
  intros Htype Hpost Hfile. unfold generate.annotationsInFile in Hfile.
  injection Hfile as Hfile. rewrite foldl_app in Hfile. cbn [foldl] in Hfile.
  pose proof (foldl_annotationStep_owns h0 pre _ (ownsPointers_empty h0))
    as Hpre.
  set (st := foldl generate.annotationStep (∅, h0) pre) in *.
  pose proof (annotationStep_sets h0 st a Hpre Htype) as Hset.
  apply (foldl_annotationStep_keeps h0 post) in Hset;
    [|by apply annotationStep_owns|done].
  rewrite Hfile in Hset. exact Hset.
Qed.

Lemma annotationsInFile_keywords_witness :
  let name := {| generate.CP := str "x"; generate.Type_ := str "tts";
                 generate.Annotation := str "grinning face" |} in
  let keywords := {| generate.CP := str "x"; generate.Type_ := [];
                     generate.Annotation := str "face | grin" |} in
  let m : gmap gostring nat := {[str "x" := 0%nat]} in
  let h := [{| generate.emojiAnnotation.name := str "grinning face";
               generate.emojiAnnotation.annotations := [str "face"; str "grin"] |}] in
  (generate.Type_ keywords ≠ str "tts"
   ∧ (∀ b, b ∈ [name] → generate.CP b = generate.CP keywords →
           generate.Type_ b = str "tts")
   ∧ generate.annotationsInFile (generate.Parsed ([] ++ keywords :: [name])) []
     = Ret (m, h))
  ∧ ∃ p record,
      m !! str "x" = Some p ∧ h !! p = Some record
      ∧ generate.emojiAnnotation.annotations record
        = strings.FieldsFunc (str "face | grin")
            (λ r, (r =? 0x20)%Z || (r =? 0x7C)%Z).
Proof.
  intros name keywords m h.
  assert (H1 : generate.Type_ keywords ≠ str "tts") by discriminate.
  assert (H2 : ∀ b, b ∈ [name] → generate.CP b = generate.CP keywords →
                    generate.Type_ b = str "tts").
  { intros b Hb. apply list_elem_of_singleton in Hb as ->. reflexivity. }
  assert (H3 : generate.annotationsInFile
                 (generate.Parsed ([] ++ keywords :: [name])) []
               = Ret (m, h)) by (vm_compute; reflexivity).
  split; [done|].
  exact (annotationsInFile_keywords [] [name] keywords [] m h H1 H2 H3).
Defined.

(** C6, as stated, fails: for the content [grinning face | face] the keyword
    list stored is [grinning], [face], [face], not the content split at [|]
    with the parts trimmed, which is [grinning face], [face]. *)
Lemma annotationsInFile_keywords_counterexample :
  let content := str "grinning face | face" in
  generate.annotationsInFile
    (generate.Parsed [{| generate.CP := str "x"; generate.Type_ := [];
                         generate.Annotation := content |}]) []
  = Ret ({[str "x" := 0%nat]},
         [{| generate.emojiAnnotation.name := [];
             generate.emojiAnnotation.annotations :=
               [str "grinning"; str "face"; str "face"] |}])
  ∧ map strings.TrimSpace (strings.Split content (str "|"))
    = [str "grinning face"; str "face"]
  ∧ [str "grinning"; str "face"; str "face"]
    ≠ map strings.TrimSpace (strings.Split content (str "|")).
Proof.
  split_and!; try (vm_compute; reflexivity). vm_compute. discriminate.
Qed.

(** The variant with the cache does store the content split at [|] with the
    parts trimmed. *)
Lemma part_001_annotationStep_keywords (m : gmap gostring part_001.annotationData)
    (a : generate.xmlAnnotation) :
  generate.Type_ a ≠ str "tts" →
  part_001.annotations <$> (part_001.annotationStep m a !! generate.CP a)
  = Some (map strings.TrimSpace
              (strings.Split (generate.Annotation a) (str "|"))).
Proof.
  intros Htype. unfold part_001.annotationStep.
  rewrite lookup_insert_eq. by rewrite decide_False by done.
Qed.

(** ** The printing loop *)

Lemma Contains_empty (s : gostring) : strings.Contains s [] = true.
Proof. unfold strings.Contains. by destruct s. Qed.

Lemma Join_nil_iff (elems : list gostring) (sep : gostring) :
  [] ∉ elems → strings.Join elems sep = [] ↔ elems = [].
Proof.
  destruct elems as [|e [|e' rest]]; [done| |].
  - intros He. simpl. split; [|done]. intros ->. destruct He. by left.
  - intros He. cbn [strings.Join]. split; [|done].
    destruct e; [destruct He; by left|done].
Qed.

Lemma deleteContained_kept (a : generate.emojiAnnotation.t) :
  [] ∉ generate.emojiAnnotation.annotations (generate.deleteContained a).
Proof.
  cbn [generate.deleteContained generate.emojiAnnotation.annotations].
  rewrite list_elem_of_filter, Contains_empty. by intros [? _].
Qed.

(** [DeleteFunc] with the same name deletes nothing more the second time. *)
Lemma deleteContained_idem (a : generate.emojiAnnotation.t) :
  generate.deleteContained (generate.deleteContained a)
  = generate.deleteContained a.
Proof.
  unfold generate.deleteContained. cbn. f_equal.
  induction (generate.emojiAnnotation.annotations a) as [|kw kws IH]; [done|].
  rewrite filter_cons. case_decide as Hkw; [|done].
  rewrite filter_cons_True by done. by rewrite IH.
Qed.

(** What the loop prints is the rendered annotation of the spec. *)
Lemma printed_rendered (emoji : gostring) (a : generate.emojiAnnotation.t) :
  generate.printed emoji (generate.deleteContained a)
  = emoji ++ str " " ++ generate.renderedAnnotation a ++ [byte 0x0A].
Proof.
  unfold generate.printed, generate.renderedAnnotation.
  pose proof (deleteContained_kept a) as Hkept.
  cbn [generate.deleteContained generate.emojiAnnotation.annotations
       generate.emojiAnnotation.name] in *.
  set (kept := filter _ _) in *.
  pose proof (Join_nil_iff kept (str " ") Hkept) as Hnil.
  destruct kept as [|kw kept'] eqn:Hk.
  - rewrite bool_decide_eq_true_2 by done. done.
  - rewrite bool_decide_eq_false_2 by (rewrite Hnil; done).
    cbn [strings.Join]. by rewrite <- !app_assoc.
Qed.

Lemma printLoop_spec (annotations : gmap gostring nat)
    (h0 : list generate.emojiAnnotation.t) (emojis : list gostring)
    (h : list generate.emojiAnnotation.t) (stdout : gostring) :
  generate.rendersAs h0 h →
  ∃ printed rest lines h' res,
    emojis = printed ++ rest
    ∧ Forall2 (λ emoji line,
                 generate.renderedLine annotations h0 emoji = Some line)
              printed lines
    ∧ generate.printLoop annotations emojis h stdout
      = (h', stdout ++ concat lines, res)
    ∧ generate.stopsAt annotations h0 rest res.
Proof.
  revert h stdout. induction emojis as [|emoji emojis IH]; intros h stdout Hh.
  - exists [], [], [], h, (Ret ()). simpl. by rewrite app_nil_r.
  - cbn [generate.printLoop].
    destruct (annotations !! generate.removePresentationSelector emoji)
      as [p|] eqn:Hp.
    2:{ exists [], (emoji :: emojis), [], h, (Fail (ErrNoAnnotation emoji)).
        simpl. rewrite app_nil_r, Hp. done. }
    pose proof (Hh p) as Hhp.
    destruct (h !! p) as [a|] eqn:Ha.
    2:{ exists [], (emoji :: emojis), [], h, (Panic PanicNilDeref).
        simpl. rewrite app_nil_r, Hp.
        destruct (h0 !! p); [done|]. done. }
    destruct (h0 !! p) as [a0|] eqn:Ha0; [|done].
    cbn [fmap option_fmap option_map] in Hhp. apply (inj Some) in Hhp.
    destruct (IH (<[p := generate.deleteContained a]> h)
                 (stdout ++ generate.printed emoji (generate.deleteContained a)))
      as (printed & rest & lines & h' & res & -> & Hlines & Hloop & Hstop).
    { intros q. destruct (decide (p = q)) as [<-|Hne].
      - rewrite list_lookup_insert_eq by (by eapply lookup_lt_Some).
        rewrite Ha0. simpl. by rewrite deleteContained_idem, Hhp.
      - by rewrite list_lookup_insert_ne. }
    exists (emoji :: printed), rest,
      ((emoji ++ str " " ++ generate.renderedAnnotation a0 ++ [byte 0x0A])
       :: lines), h', res.
    split_and!; [done| |by rewrite Hloop, Hhp, printed_rendered, <- app_assoc|done].
    constructor; [|done].
    unfold generate.renderedLine. rewrite Hp. simpl. by rewrite Ha0.
Qed.

Lemma rendersAs_refl (h : list generate.emojiAnnotation.t) : generate.rendersAs h h.
Proof. done. Qed.

(** The map and the store that [annotations] returns: every pointer of the
    map points into the store. *)
Lemma annotations_valid (annotationsEn annotationsDerivedEn
    : generate.zipEntry generate.xmlAnnotation)
    (m : gmap gostring nat) (h : list generate.emojiAnnotation.t) :
  generate.annotations annotationsEn annotationsDerivedEn [] = Ret (m, h) →
  ∀ key p, m !! key = Some p → is_Some (h !! p).
Proof.
  unfold generate.annotations. intros Hann key p Hp.
  destruct (generate.annotationsInFile annotationsEn [])
    as [[m1 h1]| |] eqn:H1; simpl in Hann; try done.
  destruct (generate.annotationsInFile annotationsDerivedEn h1)
    as [[m2 h2]| |] eqn:H2; simpl in Hann; try done.
  injection Hann as <- <-.
  destruct annotationsEn as [| | |elems1]; simpl in H1; try done.
  destruct annotationsDerivedEn as [| | |elems2]; simpl in H2; try done.
  injection H1 as H1. injection H2 as H2.
  pose proof (foldl_annotationStep_owns [] elems1 _ (ownsPointers_empty []))
    as (_ & Hv1 & _).
  pose proof (foldl_annotationStep_owns h1 elems2 _ (ownsPointers_empty h1))
    as (Hlen & Hv2 & _).
  rewrite H1 in Hv1. rewrite H2 in Hv2, Hlen. cbn [fst snd] in *.
  apply lookup_lt_is_Some_2.
  apply lookup_union_Some_raw in Hp as [Hp|[_ Hp]].
  - apply Hv2 in Hp. lia.
  - apply Hv1 in Hp. lia.
Qed.

(** ** [generate] *)

Lemma load_inv (dataResp seqResp zwjResp : response)
    (cldrResp : generate.cldrResponse) (emojis : list gostring)
    (annotations : gmap gostring nat) (h : list generate.emojiAnnotation.t)
    (collation : gmap gostring Z) :
  generate.load dataResp seqResp zwjResp cldrResp
  = Ret (emojis, (annotations, h), collation) →
  ∃ annotationsEn annotationsDerivedEn collationRoot,
    cldrResp = generate.CldrZip annotationsEn annotationsDerivedEn collationRoot
    ∧ generate.emojis dataResp seqResp zwjResp = Ret emojis
    ∧ generate.annotations annotationsEn annotationsDerivedEn []
      = Ret (annotations, h)
    ∧ generate.collationData collationRoot = Ret collation.
Proof.
  unfold generate.load. intros Hload.
  destruct (generate.emojis dataResp seqResp zwjResp) as [emojis'| |] eqn:He;
    simpl in Hload; try done.
  destruct cldrResp as [| | | |annotationsEn annotationsDerivedEn collationRoot];
    try done.
  destruct (generate.annotations annotationsEn annotationsDerivedEn [])
    as [[annotations' h']| |] eqn:Ha; simpl in Hload; try done.
  destruct (generate.collationData collationRoot) as [collation'| |] eqn:Hc;
    simpl in Hload; try done.
  injection Hload as -> -> -> ->.
  by exists annotationsEn, annotationsDerivedEn, collationRoot.
Qed.

Lemma renderedLine_Some (annotations : gmap gostring nat)
    (h : list generate.emojiAnnotation.t) (emoji line : gostring) :
  generate.renderedLine annotations h emoji = Some line →
  ∃ p a, annotations !! generate.removePresentationSelector emoji = Some p
         ∧ h !! p = Some a
         ∧ line = emoji ++ str " " ++ generate.renderedAnnotation a
                  ++ [byte 0x0A].
Proof.
  unfold generate.renderedLine.
  destruct (annotations !! _) as [p|]; simpl; [|done].
  destruct (h !! p) as [a|] eqn:Ha; simpl; [|done].
  intros Hline. injection Hline as <-. by exists p, a.
Qed.

(** The text the earlier cached variant stores for a record: the name with
    its [": "] and [", "] turned into spaces, then the keywords that are not
    contained in the name. *)
Lemma combine_rendered (a : part_001.annotationData) :
  part_001.combine a
  = strings.Join
      (strings.ReplaceAll
         (strings.ReplaceAll (part_001.name a) (str ": ") (str " "))
         (str ", ") (str " ")
       :: filter (λ kw, strings.Contains (part_001.name a) kw = false)
                 (part_001.annotations a))
      (str " ").
Proof.
  unfold part_001.combine. cbn zeta.
  by destruct (filter _ (part_001.annotations a)) as [|kw kws].
Qed.

(** C7, as amended.  [generate] of [generate/generate.go] prints, for every
    emoji up to the first one without annotation, the line made of the emoji,
    a space, and the name followed by the keywords that are not (byte-wise,
    case-sensitive) substrings of the name, joined by single spaces, where
    name and keywords are those the extractor left in the store.  The cached
    variant renders in [annotationsInFile]: it drops the same keywords, and
    in the name it first turns every [": "] and [", "] into one space. *)
Theorem generate_renders_annotation (dataResp seqResp zwjResp : response)
    (cldrResp : generate.cldrResponse) (emojis : list gostring)
    (annotations : gmap gostring nat) (h : list generate.emojiAnnotation.t)
    (collation : gmap gostring Z) :
  generate.load dataResp seqResp zwjResp cldrResp
  = Ret (emojis, (annotations, h), collation) →
  (∃ printed rest lines res,
     generate.SortFunc (generate.cmpLe collation) emojis = printed ++ rest
     ∧ generate.generate dataResp seqResp zwjResp cldrResp
       = (concat lines, res)
     ∧ ((rest = [] ∧ res = Ret ())
        ∨ ∃ missing rest',
            rest = missing :: rest'
            ∧ annotations !! generate.removePresentationSelector missing = None
            ∧ res = Fail (ErrNoAnnotation missing))
     ∧ Forall2
         (λ emoji line,
            ∃ p a,
              annotations !! generate.removePresentationSelector emoji = Some p
              ∧ h !! p = Some a
              ∧ line
                = emoji ++ str " "
                  ++ strings.Join
                       (generate.emojiAnnotation.name a
                        :: filter (λ kw, strings.Contains
                                           (generate.emojiAnnotation.name a) kw
                                         = false)
                                  (generate.emojiAnnotation.annotations a))
                       (str " ")
                  ++ [byte 0x0A])
         printed lines)
  ∧ (∀ (elems : list generate.xmlAnnotation) (cp : gostring)
       (record : part_001.annotationData),
       foldl part_001.annotationStep ∅ elems !! cp = Some record →
       ∃ combined,
         part_001.annotationsInFile (generate.Parsed elems) = Ret combined
         ∧ combined !! cp
           = Some (strings.Join
                     (strings.ReplaceAll
                        (strings.ReplaceAll (part_001.name record)
                                            (str ": ") (str " "))
                        (str ", ") (str " ")
                      :: filter (λ kw, strings.Contains
                                         (part_001.name record) kw = false)
                                (part_001.annotations record))
                     (str " "))).
Proof.
  intros Hload. split.
  - destruct (load_inv _ _ _ _ _ _ _ _ Hload)
      as (annotationsEn & annotationsDerivedEn & collationRoot
          & -> & _ & Hann & _).
    pose proof (annotations_valid _ _ _ _ Hann) as Hvalid.
    unfold generate.generate. rewrite Hload.
    set (sorted := generate.SortFunc (generate.cmpLe collation) emojis).
    destruct (printLoop_spec annotations h sorted h [] (rendersAs_refl h))
      as (printed & rest & lines & h' & res & Hsplit & Hlines & Hloop & Hstop).
    exists printed, rest, lines, res. rewrite Hloop.
    split_and!; [done|done| |].
    + destruct rest as [|missing rest']; [by left|]. right.
      cbn [generate.stopsAt] in Hstop.
      destruct (annotations !! generate.removePresentationSelector missing)
        as [p|] eqn:Hp.
      { destruct Hstop as [Hdangling _].
        destruct (Hvalid _ _ Hp) as [a Ha]. congruence. }
      by exists missing, rest'.
    + eapply Forall2_impl; [exact Hlines|].
      intros emoji line (p & a & Hp & Ha & ->)%renderedLine_Some. eauto.
  - intros elems cp record Hrecord. eexists. split; [done|].
    by rewrite lookup_fmap, Hrecord, <- combine_rendered.
Qed.

Lemma generate_renders_annotation_witness :
  generate.load fixture.dataResp fixture.seqResp fixture.zwjResp
    fixture.cldrResp
  = Ret (fixture.emojis, (fixture.pointersAll, fixture.storeAll),
         fixture.collation)
  ∧ ∃ printed rest lines res,
      generate.SortFunc (generate.cmpLe fixture.collation) fixture.emojis
      = printed ++ rest
      ∧ generate.generate fixture.dataResp fixture.seqResp fixture.zwjResp
          fixture.cldrResp
        = (concat lines, res)
      ∧ length lines = length printed.
Proof.
  assert (H : generate.load fixture.dataResp fixture.seqResp fixture.zwjResp
                fixture.cldrResp
              = Ret (fixture.emojis, (fixture.pointersAll, fixture.storeAll),
                     fixture.collation)) by (vm_compute; reflexivity).
  split; [exact H|].
  destruct (proj1 (generate_renders_annotation _ _ _ _ _ _ _ _ H))
    as (printed & rest & lines & res & Hsorted & Hgen & _ & Hlines).
  exists printed, rest, lines, res.
  split_and!; [exact Hsorted|exact Hgen|].
  symmetry. exact (Forall2_length _ _ _ Hlines).
Defined.

(** C7, as stated, fails on the cached variant: for the name
    [thumbs up: light skin tone] its [annotationsInFile] stores a text in
    which the colon of the name is gone, not the name followed by the
    remaining keywords. *)
Lemma generate_renders_annotation_counterexample :
  let elems :=
    [fixture.element fixture.thumbsUpLight ""
       "+1 | hand | light skin tone | thumb | up";
     fixture.element fixture.thumbsUpLight "tts" "thumbs up: light skin tone"] in
  let name := str "thumbs up: light skin tone" in
  let keywords :=
    [str "+1"; str "hand"; str "light skin tone"; str "thumb"; str "up"] in
  foldl part_001.annotationStep ∅ elems
  = {[fixture.thumbsUpLight
      := {| part_001.name := name; part_001.annotations := keywords |}]}
  ∧ part_001.annotationsInFile (generate.Parsed elems)
    = Ret {[fixture.thumbsUpLight := str "thumbs up light skin tone +1 hand"]}
  ∧ strings.Join
      (name :: filter (λ kw, strings.Contains name kw = false) keywords)
      (str " ")
    = str "thumbs up: light skin tone +1 hand"
  ∧ str "thumbs up light skin tone +1 hand"
    ≠ str "thumbs up: light skin tone +1 hand".
Proof.
  intros elems name keywords.
  split_and!; try (vm_compute; reflexivity).
  vm_compute. discriminate.
Qed.

(** Two emoji with the same annotation key: the second is printed from the
    record the first round has already shortened.  The keyword [grin] goes
    because it is a substring of the name, [Face] stays. *)
Lemma printLoop_shared_record_example :
  let h := [{| generate.emojiAnnotation.name := str "grinning face";
               generate.emojiAnnotation.annotations :=
                 [str "face"; str "Face"; str "grin"; str "smile"] |}] in
  let a := str "a" in
  let a' := str "a" ++ generate.presentationSelector in
  generate.printLoop {[a := 0%nat]} [a; a'] h []
  = ([{| generate.emojiAnnotation.name := str "grinning face";
         generate.emojiAnnotation.annotations := [str "Face"; str "smile"] |}],
     a ++ str " grinning face Face smile" ++ [byte 0x0A]
     ++ a' ++ str " grinning face Face smile" ++ [byte 0x0A],
     Ret ()).
Proof. vm_compute. reflexivity. Qed.

(** C8, as amended: when an emoji of the built set has no entry in the merged
    annotation map under its key without U+FE0F, [generate] fails with
    [emoji %q has no annotation] for the first emoji without entry in sort
    order.  What it has printed by then are the lines of the emoji before
    that one in sort order, every one of which has an entry: no line of an
    emoji without entry, and none of a later emoji. *)
Theorem generate_missing_annotation (dataResp seqResp zwjResp : response)
    (cldrResp : generate.cldrResponse) (emojis : list gostring)
    (annotations : gmap gostring nat) (h : list generate.emojiAnnotation.t)
    (collation : gmap gostring Z) (e : gostring) :
  generate.load dataResp seqResp zwjResp cldrResp
  = Ret (emojis, (annotations, h), collation) →
  e ∈ emojis →
  annotations !! generate.removePresentationSelector e = None →
  ∃ printed missing rest lines,
    generate.SortFunc (generate.cmpLe collation) emojis
    = printed ++ missing :: rest
    ∧ missing ∈ emojis
    ∧ annotations !! generate.removePresentationSelector missing = None
    ∧ Forall (λ emoji,
                is_Some (annotations !! generate.removePresentationSelector emoji))
             printed
    ∧ Forall2 (λ emoji line,
                 generate.renderedLine annotations h emoji = Some line)
              printed lines
    ∧ generate.generate dataResp seqResp zwjResp cldrResp
      = (concat lines, Fail (ErrNoAnnotation missing))
    ∧ (e ∉ printed).
Proof.
  intros Hload He Hnone.
  destruct (load_inv _ _ _ _ _ _ _ _ Hload)
    as (annotationsEn & annotationsDerivedEn & collationRoot
        & -> & _ & Hann & _).
  pose proof (annotations_valid _ _ _ _ Hann) as Hvalid.
  unfold generate.generate. rewrite Hload.
  set (sorted := generate.SortFunc (generate.cmpLe collation) emojis).
  destruct (printLoop_spec annotations h sorted h [] (rendersAs_refl h))
    as (printed & rest & lines & h' & res & Hsplit & Hlines & Hloop & Hstop).
  assert (Hprinted : Forall (λ emoji,
            is_Some (annotations !! generate.removePresentationSelector emoji))
            printed).
  { apply Forall_forall. intros e' He'.
    destruct (list_elem_of_lookup_1 _ _ He') as [i Hi].
    destruct (Forall2_lookup_l _ _ _ _ _ Hlines Hi) as (line & _ & Hline).
    apply renderedLine_Some in Hline as (p & _ & -> & _). eauto. }
  assert (e ∉ printed) as Hnot.
  { intros Hin. rewrite Forall_forall in Hprinted.
    destruct (Hprinted e Hin) as [p Hp]. congruence. }
  assert (e ∈ sorted) as Hsorted.
  { subst sorted. by rewrite SortFunc_Permutation. }
  rewrite Hsplit in Hsorted. apply elem_of_app in Hsorted as [?|Hrest]; [done|].
  destruct rest as [|missing rest]; [by apply elem_of_nil in Hrest|].
  cbn [generate.stopsAt] in Hstop.
  destruct (annotations !! generate.removePresentationSelector missing)
    as [p|] eqn:Hp.
  { destruct Hstop as [Hdangling _].
    destruct (Hvalid _ _ Hp) as [a Ha]. congruence. }
  subst res.
  assert (missing ∈ emojis) as Hin.
  { rewrite <- (SortFunc_Permutation collation emojis). fold sorted.
    rewrite Hsplit. apply elem_of_app. right. by left. }
  exists printed, missing, rest, lines.
  rewrite Hloop. by split_and!.
Qed.

Lemma generate_missing_annotation_witness :
  (generate.load fixture.dataResp fixture.seqResp fixture.zwjResp
     fixture.cldrRespNoDerived
   = Ret (fixture.emojis, (fixture.pointersEn, fixture.storeEn),
          fixture.collation)
   ∧ fixture.family ∈ fixture.emojis
   ∧ fixture.pointersEn !! generate.removePresentationSelector fixture.family
     = None)
  ∧ ∃ printed missing rest lines,
      generate.SortFunc (generate.cmpLe fixture.collation) fixture.emojis
      = printed ++ missing :: rest
      ∧ fixture.pointersEn !! generate.removePresentationSelector missing
        = None
      ∧ generate.generate fixture.dataResp fixture.seqResp fixture.zwjResp
          fixture.cldrRespNoDerived
        = (concat lines, Fail (ErrNoAnnotation missing))
      ∧ length lines = length printed
      ∧ (fixture.family ∉ printed).
Proof.
  assert (H1 : generate.load fixture.dataResp fixture.seqResp fixture.zwjResp
                 fixture.cldrRespNoDerived
               = Ret (fixture.emojis, (fixture.pointersEn, fixture.storeEn),
                      fixture.collation)) by (vm_compute; reflexivity).
  assert (H2 : fixture.family ∈ fixture.emojis).
  { unfold fixture.emojis. do 3 right. left. }
  assert (H3 : fixture.pointersEn
               !! generate.removePresentationSelector fixture.family = None)
    by (vm_compute; reflexivity).
  split; [exact (conj H1 (conj H2 H3))|].
  destruct (generate_missing_annotation _ _ _ _ _ _ _ _ _ H1 H2 H3)
    as (printed & missing & rest & lines & Hsorted & _ & Hmissing & _ & Hlines
        & Hgen & Hnot).
  exists printed, missing, rest, lines.
  split_and!; [exact Hsorted|exact Hmissing|exact Hgen| |exact Hnot].
  symmetry. exact (Forall2_length _ _ _ Hlines).
Defined.

(** C8, as stated, fails: without the derived annotations the fixture has two
    emoji without entry.  The family is one of them, but the error names the
    thumbs-up, which comes first in sort order; the run has printed the two
    lines before it. *)
Lemma generate_missing_annotation_counterexample :
  generate.load fixture.dataResp fixture.seqResp fixture.zwjResp
    fixture.cldrRespNoDerived
  = Ret (fixture.emojis, (fixture.pointersEn, fixture.storeEn),
         fixture.collation)
  ∧ fixture.family ∈ fixture.emojis
  ∧ fixture.pointersEn !! generate.removePresentationSelector fixture.family
    = None
  ∧ generate.generate fixture.dataResp fixture.seqResp fixture.zwjResp
      fixture.cldrRespNoDerived
    = (fixture.grinning ++ str " grinning face" ++ [byte 0x0A]
       ++ fixture.smiling ++ str " smiling face outlined relaxed smile"
       ++ [byte 0x0A],
       Fail (ErrNoAnnotation fixture.thumbsUpLight))
  ∧ fixture.thumbsUpLight ≠ fixture.family.
Proof.
  split_and!; try (vm_compute; reflexivity).
  - unfold fixture.emojis. do 3 right. left.
  - vm_compute. discriminate.
Qed.

(** ** The order of the output *)

Lemma Sorted_impl_rel {A : Type} (R R' : relation A) (l : list A) :
  (∀ x y, R x y → R' x y) → Sorted R l → Sorted R' l.
Proof.
  intros HR. induction 1 as [|x l _ IH Hhd]; constructor; [done|].
  destruct Hhd; constructor; auto.
Qed.

Lemma cmpLe_iff (collation : gmap gostring Z) (e f : gostring) :
  (∀ key rank, collation !! key = Some rank → (1 ≤ rank < maxInt)%Z) →
  generate.cmpLe collation e f ↔
  (generate.collationOrder e collation < generate.collationOrder f collation)%Z
  ∨ (generate.collationOrder e collation = generate.collationOrder f collation
     ∧ (strings.Compare e f ≤ 0)%Z).
Proof.
  intros Hranks. unfold generate.cmpLe. rewrite cmp_unfold by done. cbn zeta.
  case_decide; lia.
Qed.

(** C2: when [generate] succeeds, it prints one line for every emoji of the
    built set, in the one order that is ascending by [collationOrder] and,
    among equal ranks, by [strings.Compare].  The comparison tells any two
    different strings apart, so the set has only this ascending arrangement:
    the output does not depend on how [slices.SortFunc] sorts, and two runs
    on the same input print the same bytes. *)
Theorem generate_output_order (dataResp seqResp zwjResp : response)
    (annotationsEn annotationsDerivedEn
     : generate.zipEntry generate.xmlAnnotation)
    (collations : list generate.xmlCollation) (emojis : list gostring)
    (annotations : gmap gostring nat) (h : list generate.emojiAnnotation.t)
    (collation : gmap gostring Z) (stdout : gostring) :
  let cldrResp := generate.CldrZip annotationsEn annotationsDerivedEn
                                   (generate.Parsed collations) in
  let rank e := generate.collationOrder e collation in
  let before e f :=
    (rank e < rank f)%Z ∨ (rank e = rank f ∧ (strings.Compare e f ≤ 0)%Z) in
  (Z.of_nat (length (generate.emojiCollationOf collations)) ≤ maxInt)%Z →
  generate.load dataResp seqResp zwjResp cldrResp
  = Ret (emojis, (annotations, h), collation) →
  generate.generate dataResp seqResp zwjResp cldrResp = (stdout, Ret ()) →
  ∃ sorted lines,
    sorted ≡ₚ emojis
    ∧ Sorted before sorted
    ∧ (∀ sorted', sorted' ≡ₚ emojis → Sorted before sorted' → sorted' = sorted)
    ∧ Forall2 (λ emoji line,
                 generate.renderedLine annotations h emoji = Some line)
              sorted lines
    ∧ stdout = concat lines
    ∧ length lines = length emojis.
Proof.
  intros cldrResp rank before Hlen Hload Hgen.
  destruct (load_inv _ _ _ _ _ _ _ _ Hload)
    as (a & d & c & Hcldr & _ & _ & Hdata).
  subst cldrResp. injection Hcldr as <- <- <-.
  pose proof (collationData_ranks collations collation Hlen Hdata) as Hranks.
  assert (Hbefore : ∀ e f, generate.cmpLe collation e f ↔ before e f)
    by (intros e f; by apply cmpLe_iff).
  unfold generate.generate in Hgen. rewrite Hload in Hgen.
  set (sorted := generate.SortFunc (generate.cmpLe collation) emojis) in *.
  destruct (printLoop_spec annotations h sorted h [] (rendersAs_refl h))
    as (printed & rest & lines & h' & res & Hsplit & Hlines & Hloop & Hstop).
  rewrite Hloop in Hgen. injection Hgen as <- ->.
  destruct rest as [|e rest].
  2:{ cbn [generate.stopsAt] in Hstop.
      destruct (annotations !! _); [by destruct Hstop|done]. }
  rewrite app_nil_r in Hsplit. subst printed.
  exists sorted, lines. split_and!.
  - apply SortFunc_Permutation.
  - eapply Sorted_impl_rel; [|by apply SortFunc_sorted].
    intros e f. apply Hbefore.
  - intros sorted' Hperm Hsorted'.
    apply sorted_by_cmp_unique; [done..|].
    eapply Sorted_impl_rel; [|exact Hsorted']. intros e f. apply Hbefore.
  - done.
  - done.
  - rewrite <- (Forall2_length _ _ _ Hlines).
    apply Permutation_length, SortFunc_Permutation.
Qed.

Lemma generate_output_order_witness :
  ((Z.of_nat (length (generate.emojiCollationOf fixture.collations)) ≤ maxInt)%Z
   ∧ generate.load fixture.dataResp fixture.seqResp fixture.zwjResp
       fixture.cldrResp
     = Ret (fixture.emojis, (fixture.pointersAll, fixture.storeAll),
            fixture.collation)
   ∧ generate.generate fixture.dataResp fixture.seqResp fixture.zwjResp
       fixture.cldrResp
     = (concat fixture.lines, Ret ()))
  ∧ ∃ sorted lines,
      sorted ≡ₚ fixture.emojis
      ∧ concat fixture.lines = concat lines
      ∧ length lines = 4%nat.
Proof.
  assert (H1 : (Z.of_nat (length (generate.emojiCollationOf fixture.collations))
                ≤ maxInt)%Z) by (vm_compute; discriminate).
  assert (H2 : generate.load fixture.dataResp fixture.seqResp fixture.zwjResp
                 fixture.cldrResp
               = Ret (fixture.emojis, (fixture.pointersAll, fixture.storeAll),
                      fixture.collation)) by (vm_compute; reflexivity).
  assert (H3 : generate.generate fixture.dataResp fixture.seqResp
                 fixture.zwjResp fixture.cldrResp
               = (concat fixture.lines, Ret ())) by (vm_compute; reflexivity).
  split; [exact (conj H1 (conj H2 H3))|].
  destruct (generate_output_order _ _ _ _ _ _ _ _ _ _ _ H1 H2 H3)
    as (sorted & lines & Hperm & _ & _ & _ & Hout & Hlength).
  exists sorted, lines. split_and!; [exact Hperm|exact Hout|exact Hlength].
Defined.

(** ** [getCached] *)

Lemma statFinds_false (env : environment) (fs : gmap gostring gostring)
    (cachePath : gostring) :
  statFinds env fs cachePath = false → fs !! cachePath = None.
Proof.
  unfold statFinds. destruct (statOther env); [done|].
  intros Hstat%bool_decide_eq_false. by apply eq_None_not_Some.
Qed.

(** X24: the later variant removes the cache file on every error that follows its
    creation, a failed write and a failed close alike: whenever it returns an
    error, the files are what they were and there is no cache file. *)
Lemma part_000_getCached_error (env : environment) (url cacheDir : gostring)
    (fs fs' : gmap gostring gostring) (path : gostring) (err : error) :
  part_000.getCached env url cacheDir fs = (fs', (path, Some err)) →
  fs' = fs ∧ fs' !! (cacheDir ++ str "/" ++ path.Base url) = None.
Proof.
  unfold part_000.getCached.
  set (cachePath := cacheDir ++ str "/" ++ path.Base url).
  destruct (statFinds env fs cachePath) eqn:Hstat; [done|].
  apply statFinds_false in Hstat.
  assert (Hremoved : ∀ c1 c2,
    delete cachePath (<[cachePath := c1]> (<[cachePath := c2]> fs)) = fs).
  { intros c1 c2. rewrite insert_insert_eq, delete_insert_eq.
    by apply delete_id. }
  destruct (getResult env) as [e|[[ok status] body]];
    [intros; by simplify_eq|].
  destruct ok; simpl; [|intros; by simplify_eq].
  destruct (mkdirAllError env); [intros; by simplify_eq|].
  destruct (createError env); [intros; by simplify_eq|].
  destruct (copyResult env) as [written [cause|]].
  - intros. simplify_eq. by rewrite Hremoved.
  - destruct (closeError env); [|done].
    intros. simplify_eq. by rewrite Hremoved.
Qed.

(** The earlier variant does so after a failed write. *)
Lemma part_001_getCached_failed_write (env : environment)
    (url cacheDir : gostring) (fs fs' : gmap gostring gostring)
    (path : gostring) (err : error) (written : nat) (cause : gostring) :
  copyResult env = (written, Some cause) →
  part_001.getCached env url cacheDir fs = (fs', (path, Some err)) →
  fs' = fs ∧ fs' !! (cacheDir ++ str "/" ++ path.Base url) = None.
Proof.
  intros Hcopy. unfold part_001.getCached.
  set (cachePath := cacheDir ++ str "/" ++ path.Base url).
  destruct (statFinds env fs cachePath) eqn:Hstat; [done|].
  apply statFinds_false in Hstat.
  destruct (getResult env) as [e|[[ok status] body]];
    [intros; by simplify_eq|].
  destruct ok; simpl; [|intros; by simplify_eq].
  destruct (createError env); [intros; by simplify_eq|].
  rewrite Hcopy. intros. simplify_eq.
  rewrite insert_insert_eq, delete_insert_eq, delete_id by done. done.
Qed.

(** C9 fails on the earlier variant: when the write succeeds and [f.Close]
    fails, [getCached] returns the error of [Close] and the cache file stays
    on disk. *)
Theorem part_001_getCached_failed_close :
  part_001.getCached closeFails (str "https://unicode.org/emoji-data.txt")
    (str "/cache") ∅
  = ({[str "/cache/emoji-data.txt" := str "1F600 ; Emoji"]},
     (str "/cache/emoji-data.txt",
      Some (ErrIO (str "close: no space left on device")))).
Proof. vm_compute. reflexivity. Qed.

(** In the same environment the later variant leaves no file. *)
Lemma part_000_getCached_failed_close :
  part_000.getCached closeFails (str "https://unicode.org/emoji-data.txt")
    (str "/cache") ∅
  = (∅, ([], Some (ErrIO (str "close: no space left on device")))).
Proof. vm_compute. reflexivity. Qed.


(** * Further properties *)

(** ** UTF-8: encoding and decoding *)

Ltac dlia := Z.to_euclidean_division_equations; lia.

Lemma lor_pow2 (a b k : Z) :
  (0 ≤ k)%Z → (0 ≤ b < 2 ^ k)%Z → Z.lor (a * 2 ^ k) b = (a * 2 ^ k + b)%Z.
Proof.
  intros Hk Hb.
  assert (Z.land (a * 2 ^ k) b = 0%Z) as Hland.
  { apply Z.bits_inj'. intros i Hi. rewrite Z.land_spec, Z.bits_0.
    destruct (Z.lt_ge_cases i k).
    - by rewrite Z.mul_pow2_bits_low.
    - rewrite <- (Z.mod_small b (2 ^ k)) by lia.
      rewrite Z.mod_pow2_bits_high by lia. apply andb_false_r. }
  by rewrite <- Z.lxor_lor, <- Z.add_nocarry_lxor.
Qed.

Lemma land_low (x k : Z) : (0 ≤ k)%Z → Z.land x (2 ^ k - 1) = (x mod 2 ^ k)%Z.
Proof.
  intros Hk. rewrite <- Z.land_ones by done. by rewrite Z.ones_equiv, <- Z.sub_1_r.
Qed.

Lemma byteZ_byte (z : Z) : (0 ≤ z < 256)%Z → byteZ (byte z) = z.
Proof.
  intros Hz. unfold byteZ, byte. rewrite Z.mod_small by done.
  rewrite N_ascii_embedding by lia. lia.
Qed.

Lemma byteZ_range (c : ascii) : (0 ≤ byteZ c < 256)%Z.
Proof.
  unfold byteZ. pose proof (N_ascii_bounded c). lia.
Qed.

(** The bytes [encodeRune] writes, in arithmetic. *)
Lemma encodeRune_1 (r : Z) :
  (0 ≤ r ≤ 0x7F)%Z → utf8.encodeRune r = [byte r].
Proof.
  intros Hr. unfold utf8.encodeRune.
  destruct (Z.leb_spec 0 r), (Z.leb_spec r 0x7F); simpl; try lia. done.
Qed.

Lemma encodeRune_2 (r : Z) :
  (0x80 ≤ r ≤ 0x7FF)%Z →
  utf8.encodeRune r = [byte (192 + r / 64); byte (128 + r mod 64)].
Proof.
  intros Hr. unfold utf8.encodeRune, utf8.maskx.
  destruct (Z.leb_spec 0 r), (Z.leb_spec r 0x7F), (Z.leb_spec r 0x7FF);
    simpl; try lia.
  rewrite Z.shiftr_div_pow2 by lia.
  change 0x3F%Z with (2 ^ 6 - 1)%Z. rewrite land_low by lia.
  change 0xC0%Z with (3 * 2 ^ 6)%Z. change 0x80%Z with (2 * 2 ^ 6)%Z.
  rewrite !lor_pow2 by dlia. done.
Qed.

Lemma encode3_bytes (r : Z) :
  (0 ≤ r ≤ 0xFFFF)%Z →
  utf8.encode3 r
  = [byte (224 + r / 4096); byte (128 + (r / 64) mod 64);
     byte (128 + r mod 64)].
Proof.
  intros Hr. unfold utf8.encode3, utf8.maskx.
  rewrite !Z.shiftr_div_pow2 by lia.
  change 0x3F%Z with (2 ^ 6 - 1)%Z. rewrite !land_low by lia.
  change 0xE0%Z with (14 * 2 ^ 4)%Z. change 0x80%Z with (2 * 2 ^ 6)%Z.
  rewrite !lor_pow2 by dlia. done.
Qed.

Lemma encodeRune_3 (r : Z) :
  (0x800 ≤ r ≤ 0xFFFF)%Z → ¬ (0xD800 ≤ r ≤ 0xDFFF)%Z →
  utf8.encodeRune r
  = [byte (224 + r / 4096); byte (128 + (r / 64) mod 64);
     byte (128 + r mod 64)].
Proof.
  intros Hr Hs. unfold utf8.encodeRune, utf8.MaxRune, utf8.surrogateMin,
    utf8.surrogateMax.
  destruct (Z.leb_spec 0 r), (Z.leb_spec r 0x7F), (Z.leb_spec r 0x7FF),
    (Z.ltb_spec r 0), (Z.ltb_spec 0x10FFFF r), (Z.leb_spec 0xD800 r),
    (Z.leb_spec r 0xDFFF), (Z.leb_spec r 0xFFFF); simpl; try lia.
  all: by apply encode3_bytes.
Qed.

Lemma encodeRune_4 (r : Z) :
  (0x10000 ≤ r ≤ 0x10FFFF)%Z →
  utf8.encodeRune r
  = [byte (240 + r / 262144); byte (128 + (r / 4096) mod 64);
     byte (128 + (r / 64) mod 64); byte (128 + r mod 64)].
Proof.
  intros Hr. unfold utf8.encodeRune, utf8.MaxRune, utf8.surrogateMin,
    utf8.surrogateMax, utf8.maskx.
  destruct (Z.leb_spec 0 r), (Z.leb_spec r 0x7F), (Z.leb_spec r 0x7FF),
    (Z.ltb_spec r 0), (Z.ltb_spec 0x10FFFF r), (Z.leb_spec 0xD800 r),
    (Z.leb_spec r 0xDFFF), (Z.leb_spec r 0xFFFF); simpl; try lia.
  rewrite !Z.shiftr_div_pow2 by lia.
  change 0x3F%Z with (2 ^ 6 - 1)%Z. rewrite !land_low by lia.
  change 0xF0%Z with (30 * 2 ^ 3)%Z. change 0x80%Z with (2 * 2 ^ 6)%Z.
  rewrite !lor_pow2 by dlia. done.
Qed.

Lemma encodeRune_invalid (r : Z) :
  ¬ validRune r → utf8.encodeRune r = utf8.encodeRune utf8.RuneError.
Proof.
  intros Hr. unfold validRune in Hr.
  unfold utf8.encodeRune at 1. unfold utf8.MaxRune, utf8.surrogateMin,
    utf8.surrogateMax.
  destruct (Z.leb_spec 0 r), (Z.leb_spec r 0x7F), (Z.leb_spec r 0x7FF),
    (Z.ltb_spec r 0), (Z.ltb_spec 0x10FFFF r), (Z.leb_spec 0xD800 r),
    (Z.leb_spec r 0xDFFF); simpl; try lia; done.
Qed.

Lemma encodeRune_clean (r : Z) :
  utf8.encodeRune r = utf8.encodeRune (cleanRune r).
Proof.
  unfold cleanRune. case_decide; [done|]. by apply encodeRune_invalid.
Qed.

Ltac zcases :=
  repeat match goal with
  | |- context [(?a <? ?b)%Z] => destruct (Z.ltb_spec a b); try lia
  | |- context [(?a =? ?b)%Z] => destruct (Z.eqb_spec a b); try lia
  | |- context [(?a <=? ?b)%Z] => destruct (Z.leb_spec a b); try lia
  end.

Lemma decode_1 (c : ascii) (rest : gostring) :
  (byteZ c < 0x80)%Z →
  utf8.DecodeRuneInString (c :: rest) = (byteZ c, 1%nat).
Proof.
  intros Hc. unfold utf8.DecodeRuneInString, utf8.first. by zcases.
Qed.

Lemma between_false (x lo hi : Z) :
  (lo ≤ x ≤ hi)%Z → (x <? lo)%Z || (hi <? x)%Z = false.
Proof. intros. apply orb_false_intro; apply Z.ltb_ge; lia. Qed.

Lemma decode_2 (c0 c1 : ascii) (rest : gostring) (q m : Z) :
  byteZ c0 = (192 + q)%Z → (2 ≤ q < 32)%Z →
  byteZ c1 = (128 + m)%Z → (0 ≤ m < 64)%Z →
  utf8.DecodeRuneInString (c0 :: c1 :: rest) = ((64 * q + m)%Z, 2%nat).
Proof.
  intros H0 Hq H1 Hm.
  unfold utf8.DecodeRuneInString, byteAt. cbn [nth length]. rewrite H0, H1.
  assert (utf8.first (192 + q) = utf8.Lead 2 0x80 0xBF) as ->.
  { unfold utf8.first, utf8.locb, utf8.hicb. by zcases. }
  rewrite between_false by lia. cbn [Nat.ltb Nat.leb].
  unfold utf8.mask2, utf8.maskx.
  change 0x1F%Z with (2 ^ 5 - 1)%Z. change 0x3F%Z with (2 ^ 6 - 1)%Z.
  rewrite !land_low, Z.shiftl_mul_pow2 by lia.
  replace ((192 + q) mod 2 ^ 5)%Z with q by dlia.
  replace ((128 + m) mod 2 ^ 6)%Z with m by dlia.
  rewrite lor_pow2 by lia. f_equal. lia.
Qed.

Lemma decode_3 (c0 c1 c2 : ascii) (rest : gostring) (a m1 m2 : Z) :
  byteZ c0 = (224 + a)%Z → (0 ≤ a < 16)%Z →
  byteZ c1 = (128 + m1)%Z → (0 ≤ m1 < 64)%Z →
  byteZ c2 = (128 + m2)%Z → (0 ≤ m2 < 64)%Z →
  (a = 0 → 32 ≤ m1)%Z → (a = 13 → m1 < 32)%Z →
  utf8.DecodeRuneInString (c0 :: c1 :: c2 :: rest)
  = ((4096 * a + 64 * m1 + m2)%Z, 3%nat).
Proof.
  intros H0 Ha H1 Hm1 H2 Hm2 Hlow Hsur.
  unfold utf8.DecodeRuneInString, byteAt. cbn [nth length].
  rewrite H0, H1, H2.
  assert (∃ lo hi, utf8.first (224 + a) = utf8.Lead 3 lo hi
                   ∧ (lo ≤ 128 + m1 ≤ hi)%Z) as (lo & hi & -> & Hb).
  { unfold utf8.first, utf8.locb, utf8.hicb.
    zcases; eexists _, _; (split; [reflexivity|lia]). }
  rewrite (between_false _ lo hi) by done. cbn [Nat.ltb Nat.leb].
  unfold utf8.locb, utf8.hicb. rewrite between_false by lia.
  unfold utf8.mask3, utf8.maskx.
  change 0x0F%Z with (2 ^ 4 - 1)%Z. change 0x3F%Z with (2 ^ 6 - 1)%Z.
  rewrite !land_low, !Z.shiftl_mul_pow2 by lia.
  replace ((224 + a) mod 2 ^ 4)%Z with a by dlia.
  replace ((128 + m1) mod 2 ^ 6)%Z with m1 by dlia.
  replace ((128 + m2) mod 2 ^ 6)%Z with m2 by dlia.
  rewrite (lor_pow2 a (m1 * 2 ^ 6) 12) by lia.
  replace (a * 2 ^ 12 + m1 * 2 ^ 6)%Z with ((a * 2 ^ 6 + m1) * 2 ^ 6)%Z by lia.
  rewrite lor_pow2 by lia. f_equal. lia.
Qed.

Lemma decode_4 (c0 c1 c2 c3 : ascii) (rest : gostring) (a m1 m2 m3 : Z) :
  byteZ c0 = (240 + a)%Z → (0 ≤ a ≤ 4)%Z →
  byteZ c1 = (128 + m1)%Z → (0 ≤ m1 < 64)%Z →
  byteZ c2 = (128 + m2)%Z → (0 ≤ m2 < 64)%Z →
  byteZ c3 = (128 + m3)%Z → (0 ≤ m3 < 64)%Z →
  (a = 0 → 16 ≤ m1)%Z → (a = 4 → m1 < 16)%Z →
  utf8.DecodeRuneInString (c0 :: c1 :: c2 :: c3 :: rest)
  = ((262144 * a + 4096 * m1 + 64 * m2 + m3)%Z, 4%nat).
Proof.
  intros H0 Ha H1 Hm1 H2 Hm2 H3 Hm3 Hlow Hhigh.
  unfold utf8.DecodeRuneInString, byteAt. cbn [nth length].
  rewrite H0, H1, H2, H3.
  assert (∃ lo hi, utf8.first (240 + a) = utf8.Lead 4 lo hi
                   ∧ (lo ≤ 128 + m1 ≤ hi)%Z) as (lo & hi & -> & Hb).
  { unfold utf8.first, utf8.locb, utf8.hicb.
    zcases; eexists _, _; (split; [reflexivity|lia]). }
  rewrite (between_false _ lo hi) by done. cbn [Nat.ltb Nat.leb].
  unfold utf8.locb, utf8.hicb. rewrite !between_false by lia.
  unfold utf8.mask4, utf8.maskx.
  change 0x07%Z with (2 ^ 3 - 1)%Z. change 0x3F%Z with (2 ^ 6 - 1)%Z.
  rewrite !land_low, !Z.shiftl_mul_pow2 by lia.
  replace ((240 + a) mod 2 ^ 3)%Z with a by dlia.
  replace ((128 + m1) mod 2 ^ 6)%Z with m1 by dlia.
  replace ((128 + m2) mod 2 ^ 6)%Z with m2 by dlia.
  replace ((128 + m3) mod 2 ^ 6)%Z with m3 by dlia.
  rewrite (lor_pow2 a (m1 * 2 ^ 12) 18) by lia.
  replace (a * 2 ^ 18 + m1 * 2 ^ 12)%Z
    with ((a * 2 ^ 6 + m1) * 2 ^ 12)%Z by lia.
  rewrite (lor_pow2 _ (m2 * 2 ^ 6) 12) by lia.
  replace ((a * 2 ^ 6 + m1) * 2 ^ 12 + m2 * 2 ^ 6)%Z
    with (((a * 2 ^ 6 + m1) * 2 ^ 6 + m2) * 2 ^ 6)%Z by lia.
  rewrite lor_pow2 by lia. f_equal. lia.
Qed.

(** Round trip: decoding what [string(rune)] wrote gives the rune back (an
    invalid rune comes back as U+FFFD), together with the width of the
    encoding, whatever follows. *)
Lemma DecodeRuneInString_encodeRune (r : Z) (rest : gostring) :
  utf8.DecodeRuneInString (utf8.encodeRune r ++ rest)
  = (cleanRune r, length (utf8.encodeRune r)).
Proof.
  rewrite encodeRune_clean.
  assert (validRune (cleanRune r)) as [Hr Hs].
  { unfold cleanRune. case_decide; [done|]. unfold validRune, utf8.RuneError. lia. }
  set (v := cleanRune r) in *. clearbody v.
  destruct (Z.le_gt_cases v 0x7F).
  { rewrite encodeRune_1 by lia. cbn [app length].
    rewrite decode_1; rewrite byteZ_byte by lia; [done|lia]. }
  destruct (Z.le_gt_cases v 0x7FF).
  { rewrite encodeRune_2 by lia. cbn [app length].
    rewrite (decode_2 _ _ _ (v / 64) (v mod 64));
      rewrite ?byteZ_byte by dlia; try done; try dlia.
    f_equal. dlia. }
  destruct (Z.le_gt_cases v 0xFFFF).
  { rewrite encodeRune_3 by lia. cbn [app length].
    rewrite (decode_3 _ _ _ _ (v / 4096) ((v / 64) mod 64) (v mod 64));
      rewrite ?byteZ_byte by dlia; try done; try dlia.
    f_equal. dlia. }
  rewrite encodeRune_4 by lia. cbn [app length].
  rewrite (decode_4 _ _ _ _ _ (v / 262144) ((v / 4096) mod 64)
             ((v / 64) mod 64) (v mod 64));
    rewrite ?byteZ_byte by dlia; try done; try dlia.
  f_equal. dlia.
Qed.

(** *** The last rune of a string that ends in an encoded rune *)

Lemma RuneStart_byte (c : ascii) :
  utf8.RuneStart (byteZ c) = negb ((128 <=? byteZ c)%Z && (byteZ c <? 192)%Z).
Proof. destruct c as [[] [] [] [] [] [] [] []]; reflexivity. Qed.

Lemma byteAt_app_r (pre l : gostring) (i j : nat) :
  i = (length pre + j)%nat → byteAt (pre ++ l) i = byteAt l j.
Proof.
  intros ->. unfold byteAt. f_equal.
  rewrite app_nth2 by lia. f_equal. lia.
Qed.

Lemma byteAt_middle (pre : gostring) (c : ascii) (post : gostring) (i : nat) :
  i = length pre → byteAt (pre ++ c :: post) i = byteZ c.
Proof.
  intros ->. rewrite (byteAt_app_r pre _ _ 0) by lia. done.
Qed.

(** One to three continuation bytes after a lead byte. *)
Definition isTail (conts : gostring) : Prop :=
  (1 ≤ length conts ≤ 3)%nat ∧ Forall (λ c, (128 ≤ byteZ c < 192)%Z) conts.

Lemma scanBack_lead (pre : gostring) (lead : ascii) (lim : Z)
    (conts : gostring) :
  ∀ (n : nat) (tail : gostring),
    Forall (λ c, (128 ≤ byteZ c < 192)%Z) conts →
    (192 ≤ byteZ lead)%Z →
    (lim ≤ Z.of_nat (length pre))%Z →
    (length conts < n)%nat →
    utf8.scanBack n (pre ++ lead :: conts ++ tail)
      (Z.of_nat (length pre + length conts)) lim
    = Z.of_nat (length pre).
Proof.
  induction conts as [|c cs IH] using rev_ind; intros n tail Hcs Hlead Hlim Hn.
  - destruct n as [|k]; [cbn in Hn; lia|]. cbn [utf8.scanBack length].
    destruct (Z.ltb_spec (Z.of_nat (length pre + 0)) lim); [lia|].
    rewrite byteAt_middle by lia. rewrite RuneStart_byte.
    destruct (Z.ltb_spec (byteZ lead) 192); [lia|].
    rewrite andb_false_r. cbn [negb]. lia.
  - rewrite length_app in *. cbn [length] in *.
    apply Forall_app in Hcs as [Hcs Hc]. apply Forall_inv in Hc.
    cbn beta in Hc.
    destruct n as [|k]; [lia|]. cbn [utf8.scanBack].
    destruct (Z.ltb_spec (Z.of_nat (length pre + (length cs + 1))) lim); [lia|].
    replace (pre ++ lead :: (cs ++ [c]) ++ tail)
      with ((pre ++ lead :: cs) ++ c :: tail)
      by (by rewrite <- !app_assoc, <- app_comm_cons).
    rewrite byteAt_middle by (rewrite length_app; cbn [length]; lia).
    rewrite RuneStart_byte.
    destruct (Z.leb_spec 128 (byteZ c)); [|lia].
    destruct (Z.ltb_spec (byteZ c) 192); [|lia]. cbn [andb negb].
    replace ((pre ++ lead :: cs) ++ c :: tail)
      with (pre ++ lead :: cs ++ c :: tail)
      by (by rewrite <- !app_assoc, <- app_comm_cons).
    replace (Z.of_nat (length pre + (length cs + 1)) - 1)%Z
      with (Z.of_nat (length pre + length cs)) by lia.
    apply IH; [done|done|done|lia].
Qed.

Lemma DecodeLastRuneInString_ascii (pre : gostring) (c : ascii) :
  (byteZ c < 0x80)%Z →
  utf8.DecodeLastRuneInString (pre ++ [c]) = (byteZ c, 1%nat).
Proof.
  intros Hc. unfold utf8.DecodeLastRuneInString.
  rewrite length_app. cbn [length].
  destruct (Z.eqb_spec (Z.of_nat (length pre + 1)) 0); [lia|].
  rewrite byteAt_middle by lia. unfold utf8.RuneSelf.
  by destruct (Z.ltb_spec (byteZ c) 0x80); [|lia].
Qed.

Lemma DecodeLastRuneInString_multi (pre : gostring) (lead : ascii)
    (conts : gostring) (v : Z) :
  (192 ≤ byteZ lead)%Z → isTail conts →
  utf8.DecodeRuneInString (lead :: conts) = (v, S (length conts)) →
  utf8.DecodeLastRuneInString (pre ++ lead :: conts) = (v, S (length conts)).
Proof.
  intros Hlead [Hlen Hconts] Hdec.
  destruct conts as [|last cs _] using rev_ind; [cbn in Hlen; lia|].
  rewrite length_app in *. cbn [length] in *.
  apply Forall_app in Hconts as [Hcs Hlast]. apply Forall_inv in Hlast.
  cbn beta in Hlast.
  unfold utf8.DecodeLastRuneInString.
  rewrite length_app. cbn [length]. rewrite length_app. cbn [length].
  set (end_ := Z.of_nat (length pre + S (length cs + 1))).
  destruct (Z.eqb_spec end_ 0); [lia|].
  replace (pre ++ lead :: cs ++ [last]) with ((pre ++ lead :: cs) ++ last :: [])
    by (by rewrite <- !app_assoc, <- app_comm_cons).
  rewrite byteAt_middle by (rewrite length_app; cbn [length]; lia).
  unfold utf8.RuneSelf, utf8.UTFMax.
  destruct (Z.ltb_spec (byteZ last) 0x80); [lia|].
  replace ((pre ++ lead :: cs) ++ [last]) with (pre ++ lead :: cs ++ [last])
    by (by rewrite <- !app_assoc, <- app_comm_cons).
  replace (end_ - 1 - 1)%Z with (Z.of_nat (length pre + length cs)) by lia.
  rewrite scanBack_lead; [|done|done| |lia].
  2: { destruct (Z.ltb_spec (end_ - 4) 0); lia. }
  destruct (Z.ltb_spec (Z.of_nat (length pre)) 0); [lia|].
  rewrite Nat2Z.id, drop_app_length, Hdec.
  destruct (Z.eqb_spec (Z.of_nat (length pre) + Z.of_nat (S (length cs + 1)))
              end_); [done|lia].
Qed.

(** *** Strings of encoded runes *)

Lemma cleanRune_valid (r : Z) : validRune (cleanRune r).
Proof.
  unfold cleanRune. case_decide; [done|]. unfold validRune, utf8.RuneError. lia.
Qed.

Lemma encodeRune_shape (r : Z) :
  (∃ c, utf8.encodeRune r = [c] ∧ (byteZ c < 0x80)%Z)
  ∨ (∃ lead conts, utf8.encodeRune r = lead :: conts
       ∧ (192 ≤ byteZ lead)%Z ∧ isTail conts).
Proof.
  rewrite encodeRune_clean. destruct (cleanRune_valid r) as [Hr Hs].
  set (v := cleanRune r) in *. clearbody v. unfold isTail.
  destruct (Z.le_gt_cases v 0x7F).
  { left. rewrite encodeRune_1 by lia. eexists. split; [done|].
    rewrite byteZ_byte by lia. lia. }
  right. destruct (Z.le_gt_cases v 0x7FF).
  { rewrite encodeRune_2 by lia. eexists _, _. split; [done|].
    rewrite byteZ_byte by dlia. split; [dlia|]. split; [cbn; lia|].
    repeat constructor; rewrite byteZ_byte by dlia; dlia. }
  destruct (Z.le_gt_cases v 0xFFFF).
  { rewrite encodeRune_3 by lia. eexists _, _. split; [done|].
    rewrite byteZ_byte by dlia. split; [dlia|]. split; [cbn; lia|].
    repeat constructor; rewrite byteZ_byte by dlia; dlia. }
  rewrite encodeRune_4 by lia. eexists _, _. split; [done|].
  rewrite byteZ_byte by dlia. split; [dlia|]. split; [cbn; lia|].
  repeat constructor; rewrite byteZ_byte by dlia; dlia.
Qed.

Lemma encodeRune_nonempty (r : Z) : utf8.encodeRune r ≠ [].
Proof.
  destruct (encodeRune_shape r) as [(c & -> & _)|(lead & conts & -> & _)]; done.
Qed.

Lemma encodeRunes_cons (r : Z) (rs : list Z) :
  utf8.encodeRunes (r :: rs) = utf8.encodeRune r ++ utf8.encodeRunes rs.
Proof. done. Qed.

Lemma encodeRunes_app (rs1 rs2 : list Z) :
  utf8.encodeRunes (rs1 ++ rs2) = utf8.encodeRunes rs1 ++ utf8.encodeRunes rs2.
Proof. unfold utf8.encodeRunes. by rewrite map_app, concat_app. Qed.

Lemma encodeRunes_singleton (r : Z) : utf8.encodeRunes [r] = utf8.encodeRune r.
Proof. unfold utf8.encodeRunes. cbn. by rewrite app_nil_r. Qed.

Lemma encodeRunes_nil_iff (rs : list Z) : utf8.encodeRunes rs = [] ↔ rs = [].
Proof.
  split; [|by intros ->]. destruct rs as [|r rs]; [done|].
  rewrite encodeRunes_cons. intros [H _]%app_eq_nil.
  by apply encodeRune_nonempty in H.
Qed.

Lemma DecodeLastRuneInString_encodeRune (pre : gostring) (r : Z) :
  utf8.DecodeLastRuneInString (pre ++ utf8.encodeRune r)
  = (cleanRune r, length (utf8.encodeRune r)).
Proof.
  pose proof (DecodeRuneInString_encodeRune r []) as Hdec.
  rewrite app_nil_r in Hdec.
  destruct (encodeRune_shape r) as [(c & Hc & Hlt)|(lead & conts & Hl & ? & ?)].
  - rewrite Hc in *. rewrite DecodeLastRuneInString_ascii by done.
    rewrite decode_1 in Hdec by done. done.
  - rewrite Hl in *. by apply DecodeLastRuneInString_multi.
Qed.

Lemma dropLastRune_encodeRune (pre : gostring) (r : Z) :
  generate.dropLastRune (pre ++ utf8.encodeRune r) = pre.
Proof.
  unfold generate.dropLastRune. rewrite DecodeLastRuneInString_encodeRune.
  rewrite length_app.
  replace (length pre + length (utf8.encodeRune r)
           - length (utf8.encodeRune r))%nat with (length pre) by lia.
  by rewrite take_app_length.
Qed.

Lemma dropLastRune_nil : generate.dropLastRune [] = [].
Proof. done. Qed.

Lemma shrunk_encodeRunes (k : nat) (rs : list Z) :
  generate.shrunk k (utf8.encodeRunes rs)
  = utf8.encodeRunes (take (length rs - k) rs).
Proof.
  induction k as [|k IH].
  - by rewrite Nat.sub_0_r, firstn_all.
  - rewrite shrunk_S, IH.
    destruct (decide (length rs ≤ k)%nat) as [Hle|Hgt].
    + replace (length rs - k)%nat with 0%nat by lia.
      replace (length rs - S k)%nat with 0%nat by lia. done.
    + destruct (lookup_lt_is_Some_2 rs (length rs - S k)) as [r Hr]; [lia|].
      replace (length rs - k)%nat with (S (length rs - S k)) by lia.
      rewrite (take_S_r _ _ _ Hr), encodeRunes_app, encodeRunes_singleton.
      apply dropLastRune_encodeRune.
Qed.

Lemma rangeFrom_skip (l rest : gostring) :
  utf8.rangeFrom (length l) (l ++ rest) = utf8.rangeFrom 0 rest.
Proof. induction l as [|c l IH]; [done|]. cbn [length app utf8.rangeFrom]. done. Qed.

Lemma range_encodeRune (r : Z) (rest : gostring) :
  utf8.range (utf8.encodeRune r ++ rest)
  = (cleanRune r, utf8.encodeRune r) :: utf8.range rest.
Proof.
  unfold utf8.range.
  pose proof (DecodeRuneInString_encodeRune r rest) as Hdec.
  pose proof (encodeRune_nonempty r) as Hne.
  destruct (utf8.encodeRune r) as [|c l] eqn:He; [done|].
  cbn [app utf8.rangeFrom]. cbn [app] in Hdec. rewrite Hdec.
  cbn [length]. rewrite Nat.sub_succ, Nat.sub_0_r, rangeFrom_skip.
  f_equal. f_equal.
  change (c :: l ++ rest) with ((c :: l) ++ rest).
  change (S (length l)) with (length (c :: l)).
  by rewrite take_app_length.
Qed.

Lemma range_encodeRunes (rs : list Z) :
  utf8.range (utf8.encodeRunes rs)
  = map (λ r, (cleanRune r, utf8.encodeRune r)) rs.
Proof.
  induction rs as [|r rs IH]; [done|].
  rewrite encodeRunes_cons, range_encodeRune, IH. done.
Qed.

(** X16: on an emoji that is the encoding of the code points [rs], the candidates
    the loop of [collationOrder] looks up are the encodings of the prefixes
    [rs[:n]], from the longest to the shortest: the result is the rank found
    for the longest one whose form without U+FE0F is a key, and [-1] when
    none is. *)
Theorem collationOrder_codepoint_prefixes (tbl : gmap gostring Z)
    (rs : list Z) :
  let key n :=
    generate.removePresentationSelector (utf8.encodeRunes (take n rs)) in
  let rank := generate.collationOrder (utf8.encodeRunes rs) tbl in
  (∃ n, (1 ≤ n ≤ length rs)%nat
        ∧ tbl !! key n = Some rank
        ∧ ∀ j, (n < j ≤ length rs)%nat → tbl !! key j = None)
  ∨ ((∀ n, (1 ≤ n ≤ length rs)%nat → tbl !! key n = None)
     ∧ rank = (-1)%Z).
Proof.
  intros key rank. subst key rank.
  destruct (collationOrder_spec tbl (utf8.encodeRunes rs))
    as [(k & Hne & Hk & Hlt)|[Hnone Hrank]].
  - left. rewrite shrunk_encodeRunes in Hne, Hk.
    exists (length rs - k)%nat. split; [|split; [done|]].
    + destruct (decide (length rs ≤ k)%nat); [|lia].
      replace (length rs - k)%nat with 0%nat in Hne by lia. done.
    + intros j Hj. specialize (Hlt (length rs - j)%nat).
      rewrite shrunk_encodeRunes in Hlt.
      replace (length rs - (length rs - j))%nat with j in Hlt by lia.
      apply Hlt.
      destruct (decide (length rs ≤ k)%nat); [|lia].
      replace (length rs - k)%nat with 0%nat in Hne by lia. done.
  - right. split; [|done]. intros n Hn. specialize (Hnone (length rs - n)%nat).
    rewrite shrunk_encodeRunes in Hnone.
    replace (length rs - (length rs - n))%nat with n in Hnone by lia.
    apply Hnone. rewrite encodeRunes_nil_iff.
    destruct rs; cbn in *; [lia|]. destruct n; [lia|done].
Qed.

(** *** U+FE0F in a string of encoded runes *)

Lemma presentationSelector_encode :
  generate.presentationSelector = utf8.encodeRune 0xFE0F.
Proof. by vm_compute. Qed.

Lemma byte_byteZ (c : ascii) : byte (byteZ c) = c.
Proof.
  unfold byte, byteZ. pose proof (N_ascii_bounded c).
  rewrite Z.mod_small by lia. rewrite N2Z.id. apply ascii_N_embedding.
Qed.

Lemma HasPrefix_selector_lead (c : ascii) (s : gostring) :
  byteZ c ≠ 0xEF%Z →
  strings.HasPrefix (c :: s) generate.presentationSelector = false.
Proof.
  intros Hc. unfold generate.presentationSelector. cbn [strings.HasPrefix].
  destruct (Ascii.eqb_spec (byte 0xEF) c) as [<-|]; [|done].
  by rewrite byteZ_byte in Hc by lia.
Qed.

Lemma HasPrefix_selector_bytes (c0 c1 c2 : ascii) (s : gostring) :
  ¬ (byteZ c0 = 0xEF ∧ byteZ c1 = 0xB8 ∧ byteZ c2 = 0x8F)%Z →
  strings.HasPrefix (c0 :: c1 :: c2 :: s) generate.presentationSelector = false.
Proof.
  intros Hc. unfold generate.presentationSelector. cbn [strings.HasPrefix].
  destruct (Ascii.eqb_spec (byte 0xEF) c0) as [<-|]; [|done].
  destruct (Ascii.eqb_spec (byte 0xB8) c1) as [<-|]; [|done].
  destruct (Ascii.eqb_spec (byte 0x8F) c2) as [<-|]; [|done].
  rewrite !byteZ_byte in Hc by lia. tauto.
Qed.

Lemma Index_selector_step (c : ascii) (s : gostring) :
  strings.HasPrefix (c :: s) generate.presentationSelector = false →
  strings.Index (c :: s) generate.presentationSelector
  = S <$> strings.Index s generate.presentationSelector.
Proof. intros H. cbn [strings.Index]. by rewrite H. Qed.

Lemma Index_selector_byte (c : ascii) (s : gostring) :
  byteZ c ≠ 0xEF%Z →
  strings.Index (c :: s) generate.presentationSelector
  = S <$> strings.Index s generate.presentationSelector.
Proof. intros. by apply Index_selector_step, HasPrefix_selector_lead. Qed.

Lemma Index_selector_rune (r : Z) (rest : gostring) :
  r ≠ 0xFE0F%Z →
  strings.Index (utf8.encodeRune r ++ rest) generate.presentationSelector
  = (λ i, length (utf8.encodeRune r) + i)%nat
    <$> strings.Index rest generate.presentationSelector.
Proof.
  intros Hr.
  assert (Hv : cleanRune r ≠ 0xFE0F%Z).
  { unfold cleanRune. case_decide; [done|]. by unfold utf8.RuneError. }
  rewrite encodeRune_clean. destruct (cleanRune_valid r) as [H0 Hs].
  set (v := cleanRune r) in *. clearbody v.
  destruct (Z.le_gt_cases v 0x7F).
  { rewrite encodeRune_1 by lia. cbn [app length].
    rewrite Index_selector_byte by (rewrite byteZ_byte by lia; lia).
    by destruct (strings.Index rest _). }
  destruct (Z.le_gt_cases v 0x7FF).
  { rewrite encodeRune_2 by lia. cbn [app length].
    rewrite !Index_selector_byte by (rewrite byteZ_byte by dlia; dlia).
    by destruct (strings.Index rest _). }
  destruct (Z.le_gt_cases v 0xFFFF).
  { rewrite encodeRune_3 by lia. cbn [app length].
    rewrite Index_selector_step.
    2: { apply HasPrefix_selector_bytes. rewrite !byteZ_byte by dlia. dlia. }
    rewrite !Index_selector_byte by (rewrite byteZ_byte by dlia; dlia).
    by destruct (strings.Index rest _). }
  rewrite encodeRune_4 by lia. cbn [app length].
  rewrite !Index_selector_byte by (rewrite byteZ_byte by dlia; dlia).
  by destruct (strings.Index rest _).
Qed.

Lemma Index_selector_runes (rs : list Z) (rest : gostring) :
  (0xFE0F%Z ∉ rs) →
  strings.Index (utf8.encodeRunes rs ++ rest) generate.presentationSelector
  = (λ i, length (utf8.encodeRunes rs) + i)%nat
    <$> strings.Index rest generate.presentationSelector.
Proof.
  induction rs as [|r rs IH]; intros Hrs.
  - cbn. by destruct (strings.Index rest _).
  - apply not_elem_of_cons in Hrs as [Hr Hrs].
    rewrite encodeRunes_cons, <- app_assoc, Index_selector_rune, IH by done.
    rewrite length_app. destruct (strings.Index rest _); cbn; [|done].
    f_equal. lia.
Qed.

Lemma Index_selector_none (rs : list Z) :
  (0xFE0F%Z ∉ rs) →
  strings.Index (utf8.encodeRunes rs) generate.presentationSelector = None.
Proof.
  intros Hrs. rewrite <- (app_nil_r (utf8.encodeRunes rs)).
  by rewrite Index_selector_runes.
Qed.

Lemma HasPrefix_app_self (s rest : gostring) :
  strings.HasPrefix (s ++ rest) s = true.
Proof.
  induction s as [|c s IH]; [by destruct rest|].
  cbn [app strings.HasPrefix]. by rewrite Ascii.eqb_refl, IH.
Qed.

Lemma Index_app_self (s rest : gostring) :
  s ≠ [] → strings.Index (s ++ rest) s = Some 0%nat.
Proof.
  intros Hs. pose proof (HasPrefix_app_self s rest) as H.
  destruct s as [|c s]; [done|]. cbn [app] in *. cbn [strings.Index].
  by rewrite H.
Qed.

Lemma Index_selector_first (pre post : list Z) :
  (0xFE0F%Z ∉ pre) →
  strings.Index (utf8.encodeRunes (pre ++ 0xFE0F%Z :: post))
                generate.presentationSelector
  = Some (length (utf8.encodeRunes pre)).
Proof.
  intros Hpre. rewrite encodeRunes_app, Index_selector_runes by done.
  rewrite encodeRunes_cons, <- presentationSelector_encode.
  assert (strings.Index (generate.presentationSelector ++ utf8.encodeRunes post)
            generate.presentationSelector = Some 0%nat) as ->.
  { apply Index_app_self. by unfold generate.presentationSelector. }
  cbn [fmap option_fmap option_map]. f_equal. lia.
Qed.

Lemma filter_all {A : Type} (P : A → Prop) `{∀ x, Decision (P x)} (l : list A) :
  (∀ x, x ∈ l → P x) → filter P l = l.
Proof.
  induction l as [|x l IH]; intros Hl; [done|].
  rewrite filter_cons_True by (apply Hl; left).
  f_equal. apply IH. intros y Hy. apply Hl. by right.
Qed.

Lemma length_encodeRunes (rs : list Z) :
  (length rs ≤ length (utf8.encodeRunes rs))%nat.
Proof.
  induction rs as [|r rs IH]; [done|].
  rewrite encodeRunes_cons, length_app. cbn [length].
  pose proof (encodeRune_nonempty r).
  destruct (utf8.encodeRune r); [done|]. cbn [length]. lia.
Qed.

Lemma replaceLoop_selector (n : nat) :
  ∀ rs : list Z, (length rs ≤ n)%nat →
    strings.replaceLoop n (utf8.encodeRunes rs) generate.presentationSelector []
    = utf8.encodeRunes (filter (λ r, r ≠ 0xFE0F%Z) rs).
Proof.
  induction n as [|k IH]; intros rs Hn.
  - destruct rs; [done|cbn in Hn; lia].
  - cbn [strings.replaceLoop].
    destruct (decide (0xFE0F%Z ∈ rs)) as [Hin|Hnotin].
    + apply list_elem_of_split_l in Hin as (pre & post & -> & Hpre).
      rewrite Index_selector_first by done.
      rewrite encodeRunes_app, encodeRunes_cons.
      rewrite take_app_length. cbn [app].
      rewrite <- presentationSelector_encode.
      replace (length (utf8.encodeRunes pre)
               + length generate.presentationSelector)%nat
        with (length (utf8.encodeRunes pre ++ generate.presentationSelector))
        by (by rewrite length_app).
      rewrite app_assoc, drop_app_length.
      rewrite IH by (rewrite length_app in Hn; cbn in Hn; lia).
      rewrite filter_app, filter_cons_False by (intros ?; done).
      rewrite encodeRunes_app. f_equal. f_equal.
      symmetry. apply filter_all. intros x Hx ->. done.
    + rewrite Index_selector_none by done.
      f_equal. symmetry. apply filter_all. intros x Hx ->. done.
Qed.

(** X11: on a string of encoded code points, [removePresentationSelector] removes
    the code points U+FE0F and nothing else. *)
Theorem removePresentationSelector_encodeRunes (rs : list Z) :
  generate.removePresentationSelector (utf8.encodeRunes rs)
  = utf8.encodeRunes (filter (λ r, r ≠ 0xFE0F%Z) rs).
Proof.
  unfold generate.removePresentationSelector, strings.ReplaceAll.
  apply replaceLoop_selector, length_encodeRunes.
Qed.

(** *** Byte order and code point order *)

Lemma Compare_cons_lt (x y : ascii) (a b : gostring) :
  (byteZ x < byteZ y)%Z → strings.Compare (x :: a) (y :: b) = (-1)%Z.
Proof.
  intros Hlt. cbn [strings.Compare].
  by destruct (Z.ltb_spec (byteZ x) (byteZ y)); [|lia].
Qed.

Lemma Compare_cons_eq (x : ascii) (a b : gostring) :
  strings.Compare (x :: a) (x :: b) = strings.Compare a b.
Proof. cbn [strings.Compare]. by rewrite Z.ltb_irrefl. Qed.

Lemma Compare_app_eq (s a b : gostring) :
  strings.Compare (s ++ a) (s ++ b) = strings.Compare a b.
Proof.
  induction s as [|x s IH]; [done|]. cbn [app]. by rewrite Compare_cons_eq.
Qed.

Lemma Compare_bytes_lt (z1 z2 : Z) (a b : gostring) :
  (0 ≤ z1 < z2)%Z → (z2 < 256)%Z →
  strings.Compare (byte z1 :: a) (byte z2 :: b) = (-1)%Z.
Proof.
  intros H1 H2. apply Compare_cons_lt. rewrite !byteZ_byte by lia. lia.
Qed.

(** The encoding of a smaller code point comes first, whatever follows. *)
Lemma Compare_encodeRune_lt (u v : Z) (x y : gostring) :
  validRune u → validRune v → (u < v)%Z →
  strings.Compare (utf8.encodeRune u ++ x) (utf8.encodeRune v ++ y) = (-1)%Z.
Proof.
  intros [Hu Hus] [Hv Hvs] Hlt.
  destruct (Z.le_gt_cases u 0x7F).
  { rewrite (encodeRune_1 u) by lia. cbn [app].
    destruct (Z.le_gt_cases v 0x7F).
    { rewrite (encodeRune_1 v) by lia. apply Compare_bytes_lt; lia. }
    destruct (Z.le_gt_cases v 0x7FF).
    { rewrite (encodeRune_2 v) by lia. apply Compare_bytes_lt; dlia. }
    destruct (Z.le_gt_cases v 0xFFFF).
    { rewrite (encodeRune_3 v) by lia. apply Compare_bytes_lt; dlia. }
    rewrite (encodeRune_4 v) by lia. apply Compare_bytes_lt; dlia. }
  destruct (Z.le_gt_cases u 0x7FF).
  { rewrite (encodeRune_2 u) by lia. cbn [app].
    destruct (Z.le_gt_cases v 0x7FF).
    { rewrite (encodeRune_2 v) by lia. cbn [app].
      destruct (Z.lt_trichotomy (u / 64) (v / 64)) as [Hq|[Hq|Hq]];
        [apply Compare_bytes_lt; dlia| |dlia].
      rewrite Hq, Compare_cons_eq. apply Compare_bytes_lt; dlia. }
    destruct (Z.le_gt_cases v 0xFFFF).
    { rewrite (encodeRune_3 v) by lia. apply Compare_bytes_lt; dlia. }
    rewrite (encodeRune_4 v) by lia. apply Compare_bytes_lt; dlia. }
  destruct (Z.le_gt_cases u 0xFFFF).
  { rewrite (encodeRune_3 u) by lia. cbn [app].
    destruct (Z.le_gt_cases v 0xFFFF).
    { rewrite (encodeRune_3 v) by lia. cbn [app].
      destruct (Z.lt_trichotomy (u / 4096) (v / 4096)) as [Hq|[Hq|Hq]];
        [apply Compare_bytes_lt; dlia| |dlia].
      rewrite Hq, Compare_cons_eq.
      destruct (Z.lt_trichotomy ((u / 64) mod 64) ((v / 64) mod 64))
        as [Hm|[Hm|Hm]];
        [apply Compare_bytes_lt; dlia| |dlia].
      rewrite Hm, Compare_cons_eq. apply Compare_bytes_lt; dlia. }
    rewrite (encodeRune_4 v) by lia. apply Compare_bytes_lt; dlia. }
  rewrite (encodeRune_4 u), (encodeRune_4 v) by lia. cbn [app].
  destruct (Z.lt_trichotomy (u / 262144) (v / 262144)) as [Hq|[Hq|Hq]];
    [apply Compare_bytes_lt; dlia| |dlia].
  rewrite Hq, Compare_cons_eq.
  destruct (Z.lt_trichotomy ((u / 4096) mod 64) ((v / 4096) mod 64))
    as [Hm|[Hm|Hm]];
    [apply Compare_bytes_lt; dlia| |dlia].
  rewrite Hm, Compare_cons_eq.
  destruct (Z.lt_trichotomy ((u / 64) mod 64) ((v / 64) mod 64))
    as [Hn|[Hn|Hn]];
    [apply Compare_bytes_lt; dlia| |dlia].
  rewrite Hn, Compare_cons_eq. apply Compare_bytes_lt; dlia.
Qed.

Lemma Compare_encodeRunes (a : list Z) :
  ∀ b : list Z,
    strings.Compare (utf8.encodeRunes a) (utf8.encodeRunes b)
    = slices.Compare (map cleanRune a) (map cleanRune b).
Proof.
  induction a as [|u a IH]; intros b.
  - destruct b as [|v b]; [done|]. rewrite encodeRunes_cons.
    pose proof (encodeRune_nonempty v).
    by destruct (utf8.encodeRune v).
  - destruct b as [|v b].
    + rewrite encodeRunes_cons. pose proof (encodeRune_nonempty u).
      by destruct (utf8.encodeRune u).
    + rewrite !encodeRunes_cons. cbn [map slices.Compare].
      rewrite (encodeRune_clean u), (encodeRune_clean v).
      pose proof (cleanRune_valid u). pose proof (cleanRune_valid v).
      destruct (Z.ltb_spec (cleanRune u) (cleanRune v)).
      { by apply Compare_encodeRune_lt. }
      destruct (Z.ltb_spec (cleanRune v) (cleanRune u)).
      { rewrite Compare_flip, Compare_encodeRune_lt by done. done. }
      replace (cleanRune v) with (cleanRune u) by lia.
      rewrite Compare_app_eq. apply IH.
Qed.

Lemma runes_encodeRunes (rs : list Z) :
  runes (utf8.encodeRunes rs) = map cleanRune rs.
Proof.
  unfold runes. rewrite range_encodeRunes, map_map. done.
Qed.

(** X18: on the strings [parseEmojiDataLine] builds, the byte-wise comparison
    that breaks ties in the sort ([strings.Compare(e, f)]) is the comparison
    of the code points, the one the later variant spells out
    ([slices.Compare([]rune(e), []rune(f))]): among emoji of one rank the
    order of the output is the order of their code point sequences. *)
Theorem Compare_codepoint_order (a b : list Z) :
  strings.Compare (utf8.encodeRunes a) (utf8.encodeRunes b)
  = slices.Compare (runes (utf8.encodeRunes a)) (runes (utf8.encodeRunes b)).
Proof. rewrite !runes_encodeRunes. apply Compare_encodeRunes. Qed.

(** *** Searching and cutting at a separator *)

Lemma not_elem_of_forallb (c : ascii) (s : gostring) :
  forallb (λ x, negb (Ascii.eqb c x)) s = true → c ∉ s.
Proof.
  induction s as [|x s IH]; [intros _; apply not_elem_of_nil|].
  cbn [forallb]. intros [Hx Hs]%andb_true_iff. apply not_elem_of_cons.
  split; [|by apply IH]. intros ->. by rewrite Ascii.eqb_refl in Hx.
Qed.

Lemma HasPrefix_nil (s : gostring) : strings.HasPrefix s [] = true.
Proof. by destruct s. Qed.

Lemma HasPrefix_head (s : gostring) (c : ascii) (sep : gostring) :
  (c ∉ s) → strings.HasPrefix s (c :: sep) = false.
Proof.
  destruct s as [|x s]; [done|]. intros [Hx _]%not_elem_of_cons.
  cbn [strings.HasPrefix]. by destruct (Ascii.eqb_spec c x) as [->|].
Qed.

Lemma HasPrefix_cons_ne (x c : ascii) (s sep : gostring) :
  c ≠ x → strings.HasPrefix (x :: s) (c :: sep) = false.
Proof.
  intros Hx. cbn [strings.HasPrefix]. by destruct (Ascii.eqb_spec c x) as [->|].
Qed.

Lemma Index_unfold (x : ascii) (s sep : gostring) :
  strings.Index (x :: s) sep
  = if strings.HasPrefix (x :: s) sep then Some 0%nat
    else S <$> strings.Index s sep.
Proof. done. Qed.

(** No instance of a separator whose first byte does not occur. *)
Lemma Index_None (s : gostring) (c : ascii) (sep : gostring) :
  (c ∉ s) → strings.Index s (c :: sep) = None.
Proof.
  induction s as [|x s IH]; [done|]. intros Hs.
  rewrite Index_unfold, HasPrefix_head by done.
  apply not_elem_of_cons in Hs as [_ Hs]. by rewrite IH.
Qed.

(** The first instance of a separator after a prefix in which its first byte
    does not occur. *)
Lemma Index_first (pre : gostring) (c : ascii) (sep post : gostring) :
  (c ∉ pre) →
  strings.Index (pre ++ (c :: sep) ++ post) (c :: sep) = Some (length pre).
Proof.
  induction pre as [|x pre IH]; intros Hpre.
  - cbn [app length]. by apply (Index_app_self (c :: sep) post).
  - apply not_elem_of_cons in Hpre as [Hx Hpre].
    cbn [app]. rewrite Index_unfold, HasPrefix_cons_ne by done.
    cbn [app] in IH. by rewrite IH.
Qed.

Lemma Cut_None (s : gostring) (c : ascii) (sep : gostring) :
  (c ∉ s) → strings.Cut s (c :: sep) = (s, [], false).
Proof. intros Hs. unfold strings.Cut. by rewrite Index_None. Qed.

Lemma Cut_first (pre : gostring) (c : ascii) (sep post : gostring) :
  (c ∉ pre) →
  strings.Cut (pre ++ (c :: sep) ++ post) (c :: sep) = (pre, post, true).
Proof.
  intros Hpre. unfold strings.Cut. rewrite Index_first by done.
  rewrite take_app_length.
  replace (length pre + length (c :: sep))%nat
    with (length (pre ++ c :: sep)) by (by rewrite length_app).
  by rewrite app_assoc, drop_app_length.
Qed.

(** [genSplit] at a one-byte separator gives back the pieces that were
    joined, when no piece holds the separator and the count allows it. *)
Lemma genSplit_one (n : nat) (s : gostring) (c : ascii) :
  (c ∉ s) → strings.genSplit n s [c] = [s].
Proof.
  intros Hs. destruct n as [|n]; [done|].
  cbn [strings.genSplit]. by rewrite Index_None.
Qed.

Lemma genSplit_cons (n : nat) (piece : gostring) (c : ascii) (rest : gostring) :
  (c ∉ piece) →
  strings.genSplit (S n) (piece ++ [c] ++ rest) [c]
  = piece :: strings.genSplit n rest [c].
Proof.
  intros Hpiece. cbn [strings.genSplit].
  rewrite Index_first by done. rewrite take_app_length.
  replace (length piece + length [c])%nat
    with (length (piece ++ [c])) by (by rewrite length_app).
  by rewrite app_assoc, drop_app_length.
Qed.

Lemma Join_cons (piece : gostring) (pieces : list gostring) (sep : gostring) :
  pieces ≠ [] →
  strings.Join (piece :: pieces) sep = piece ++ sep ++ strings.Join pieces sep.
Proof. by destruct pieces. Qed.

Lemma genSplit_Join (pieces : list gostring) (c : ascii) :
  ∀ n, pieces ≠ [] → Forall (λ piece, c ∉ piece) pieces →
       (length pieces ≤ S n)%nat →
       strings.genSplit n (strings.Join pieces [c]) [c] = pieces.
Proof.
  induction pieces as [|piece pieces IH]; intros n Hne Hpieces Hn; [done|].
  apply Forall_cons in Hpieces as [Hpiece Hpieces].
  destruct pieces as [|piece' pieces].
  - cbn [strings.Join]. by apply genSplit_one.
  - rewrite Join_cons by done.
    destruct n as [|n]; [cbn in Hn; lia|].
    rewrite genSplit_cons by done. f_equal.
    apply IH; [done|done|cbn in *; lia].
Qed.

Lemma length_Join (pieces : list gostring) (c : ascii) :
  (length pieces ≤ S (length (strings.Join pieces [c])))%nat.
Proof.
  induction pieces as [|piece pieces IH]; [cbn; lia|].
  destruct pieces as [|piece' pieces]; [cbn; lia|].
  rewrite Join_cons by done. rewrite !length_app.
  cbn [length] in *. lia.
Qed.

Lemma Split_Join (pieces : list gostring) (c : ascii) :
  pieces ≠ [] → Forall (λ piece, c ∉ piece) pieces →
  strings.Split (strings.Join pieces [c]) [c] = pieces.
Proof.
  intros Hne Hpieces. unfold strings.Split. apply genSplit_Join; [done..|].
  pose proof (length_Join pieces c). lia.
Qed.

(** *** [strings.TrimSpace] on a field padded with ASCII white space *)

Lemma range_ascii (c : ascii) (s : gostring) :
  (byteZ c < 0x80)%Z → utf8.range (c :: s) = (byteZ c, [c]) :: utf8.range s.
Proof.
  intros Hc. unfold utf8.range. cbn [utf8.rangeFrom].
  by rewrite decode_1.
Qed.

Lemma indexFuncFrom_padded (pad : gostring) (c : ascii) (rest : gostring) :
  Forall blank pad → solid c →
  ∀ i, strings.indexFuncFrom unicode.IsSpace false i
         (utf8.range (pad ++ c :: rest))
       = Some (i + length pad)%nat.
Proof.
  intros Hpad [Hc Hsolid]. induction Hpad as [|b pad [Hb Hblank] _ IH]; intros i.
  - cbn [app length]. rewrite range_ascii by done.
    cbn [strings.indexFuncFrom]. rewrite Hsolid. cbn. f_equal. lia.
  - cbn [app length]. rewrite range_ascii by done.
    cbn [strings.indexFuncFrom]. rewrite Hblank. cbn [Bool.eqb].
    rewrite IH. cbn [length]. f_equal. lia.
Qed.

Lemma indexFuncFrom_blanks (pad : gostring) :
  Forall blank pad →
  ∀ i, strings.indexFuncFrom unicode.IsSpace false i (utf8.range pad) = None.
Proof.
  intros Hpad. induction Hpad as [|b pad [Hb Hblank] _ IH]; intros i; [done|].
  rewrite range_ascii by done.
  cbn [strings.indexFuncFrom]. rewrite Hblank. cbn [Bool.eqb]. apply IH.
Qed.

Lemma TrimLeftFunc_padded (pad : gostring) (c : ascii) (rest : gostring) :
  Forall blank pad → solid c →
  strings.TrimLeftFunc (pad ++ c :: rest) unicode.IsSpace = c :: rest.
Proof.
  intros Hpad Hc. unfold strings.TrimLeftFunc, strings.indexFunc.
  rewrite indexFuncFrom_padded by done. cbn [plus].
  by rewrite drop_app_length.
Qed.

Lemma TrimLeftFunc_blanks (pad : gostring) :
  Forall blank pad → strings.TrimLeftFunc pad unicode.IsSpace = [].
Proof.
  intros Hpad. unfold strings.TrimLeftFunc, strings.indexFunc.
  by rewrite indexFuncFrom_blanks.
Qed.

Lemma lastIndexFuncFrom_padded (init : gostring) (c : ascii) (pad : gostring) :
  solid c → Forall blank pad →
  ∀ n, (length pad < n)%nat →
       strings.lastIndexFuncFrom unicode.IsSpace false n (init ++ c :: pad)
       = Some (length init).
Proof.
  intros [Hc Hsolid].
  induction pad as [|b pad IH] using rev_ind; intros Hpad n Hn.
  - destruct n as [|k]; [cbn in Hn; lia|]. cbn [strings.lastIndexFuncFrom].
    destruct (init ++ [c]) as [|x s] eqn:Hs; [by destruct init|].
    rewrite <- Hs. rewrite DecodeLastRuneInString_ascii by done.
    rewrite Hsolid. cbn [Bool.eqb]. f_equal. rewrite length_app. cbn. lia.
  - apply Forall_app in Hpad as [Hpad Hb]. apply Forall_inv in Hb as [Hb Hblank].
    rewrite length_app in Hn. cbn [length] in Hn.
    destruct n as [|k]; [lia|]. cbn [strings.lastIndexFuncFrom].
    replace (init ++ c :: pad ++ [b]) with ((init ++ c :: pad) ++ [b])
      by (by rewrite <- app_assoc).
    destruct ((init ++ c :: pad) ++ [b]) as [|x s] eqn:Hs;
      [by destruct (init ++ c :: pad)|].
    rewrite <- Hs. rewrite DecodeLastRuneInString_ascii by done.
    rewrite Hblank. cbn [Bool.eqb].
    rewrite length_app. cbn [length].
    replace (length (init ++ c :: pad) + 1 - 1)%nat
      with (length (init ++ c :: pad)) by lia.
    rewrite take_app_length. apply IH; [done|lia].
Qed.

Lemma TrimRightFunc_padded (init : gostring) (c : ascii) (pad : gostring) :
  solid c → Forall blank pad →
  strings.TrimRightFunc (init ++ c :: pad) unicode.IsSpace = init ++ [c].
Proof.
  intros Hc Hpad. unfold strings.TrimRightFunc, strings.lastIndexFunc.
  rewrite lastIndexFuncFrom_padded; [|done|done|].
  2: { rewrite length_app. cbn [length]. lia. }
  rewrite byteAt_middle by done. destruct Hc as [Hc _].
  unfold utf8.RuneSelf. destruct (Z.leb_spec 0x80 (byteZ c)); [lia|].
  replace (init ++ c :: pad) with ((init ++ [c]) ++ pad)
    by (by rewrite <- app_assoc).
  apply take_app_length'. rewrite length_app. cbn. lia.
Qed.

Lemma TrimSpace_padded (pad1 core pad2 : gostring) :
  Forall blank pad1 → trimmed core → Forall blank pad2 →
  strings.TrimSpace (pad1 ++ core ++ pad2) = core.
Proof.
  intros Hpad1 [->|[(c & rest & Hcore & Hc) (init & c' & Hcore' & Hc')]] Hpad2.
  - unfold strings.TrimSpace. cbn [app].
    rewrite TrimLeftFunc_blanks by (by apply Forall_app). done.
  - unfold strings.TrimSpace.
    rewrite Hcore at 1. cbn [app]. rewrite TrimLeftFunc_padded by done.
    change (c :: rest ++ pad2) with ((c :: rest) ++ pad2).
    rewrite <- Hcore, Hcore', <- app_assoc. cbn [app].
    by apply TrimRightFunc_padded.
Qed.

Lemma TrimSpace_trimmed (core : gostring) :
  trimmed core → strings.TrimSpace core = core.
Proof.
  intros Hcore. pose proof (TrimSpace_padded [] core [] (List.Forall_nil _) Hcore
                              (List.Forall_nil _)) as H.
  by rewrite app_nil_r in H.
Qed.

(** *** [strconv.ParseInt] on a hexadecimal numeral *)

Ltac hex_cases d :=
  let H := fresh in
  assert ((d = 0 ∨ d = 1 ∨ d = 2 ∨ d = 3 ∨ d = 4 ∨ d = 5 ∨ d = 6 ∨ d = 7
           ∨ d = 8 ∨ d = 9 ∨ d = 10 ∨ d = 11 ∨ d = 12 ∨ d = 13 ∨ d = 14
           ∨ d = 15)%Z) as H by lia;
  repeat (destruct H as [->|H]); [..|subst d].

Lemma hexDigit_solid (d : Z) : (0 ≤ d < 16)%Z → solid (hexDigit d).
Proof. intros Hd. hex_cases d; by vm_compute. Qed.

Lemma hexDigit_ne (d : Z) (c : ascii) :
  (0 ≤ d < 16)%Z → (byteZ c < 0x30)%Z → hexDigit d ≠ c.
Proof.
  intros Hd Hc Heq. subst c. revert Hc. hex_cases d; by vm_compute.
Qed.

Lemma hexString_notin (ds : list Z) (c : ascii) :
  Forall (λ d, 0 ≤ d < 16)%Z ds → (byteZ c < 0x30)%Z → c ∉ hexString ds.
Proof.
  intros Hds Hc. induction Hds as [|d ds Hd _ IH]; [apply not_elem_of_nil|].
  cbn [hexString map]. apply not_elem_of_cons. split; [|done].
  intros ->. by apply (hexDigit_ne d (hexDigit d)).
Qed.

Lemma parseDigits_hexDigit (maxVal cutoff n d : Z) (s : gostring) :
  (0 ≤ d < 16)%Z →
  strconv.parseDigits 16 maxVal cutoff n (hexDigit d :: s)
  = if (cutoff <=? n)%Z then inl strconv.ErrRange
    else if (maxVal <? n * 16 + d)%Z then inl strconv.ErrRange
    else strconv.parseDigits 16 maxVal cutoff (n * 16 + d)%Z s.
Proof. intros Hd. hex_cases d; reflexivity. Qed.

Lemma foldl_hex_le (ds : list Z) :
  Forall (λ d, 0 ≤ d < 16)%Z ds →
  ∀ n, (0 ≤ n)%Z → (n ≤ foldl (λ n d, n * 16 + d) n ds)%Z.
Proof.
  intros Hds. induction Hds as [|d ds Hd _ IH]; intros n Hn; [done|].
  cbn [foldl]. specialize (IH (n * 16 + d)%Z). lia.
Qed.

Lemma parseDigits_hexString (ds : list Z) :
  Forall (λ d, 0 ≤ d < 16)%Z ds →
  ∀ n, (0 ≤ n)%Z → (foldl (λ n d, n * 16 + d) n ds < 2 ^ 32)%Z →
       strconv.parseDigits 16 (2 ^ 32 - 1) ((2 ^ 64 - 1) / 16 + 1) n
                           (hexString ds)
       = inr (foldl (λ n d, n * 16 + d)%Z n ds).
Proof.
  intros Hds. induction Hds as [|d ds Hd Hds IH]; intros n Hn Hlt; [done|].
  cbn [hexString map foldl] in *. rewrite parseDigits_hexDigit by done.
  pose proof (foldl_hex_le ds Hds (n * 16 + d)%Z).
  change ((2 ^ 64 - 1) / 16 + 1)%Z with (2 ^ 60)%Z.
  destruct (Z.leb_spec (2 ^ 60) n); [lia|].
  destruct (Z.ltb_spec (2 ^ 32 - 1) (n * 16 + d)); [lia|].
  apply IH; lia.
Qed.

Lemma ParseInt_hexString (ds : list Z) :
  hexNumeral ds → strconv.ParseInt (hexString ds) 16 32 = inr (hexValue ds).
Proof.
  intros (Hne & Hds & Hlt). unfold strconv.ParseInt.
  destruct ds as [|d ds]; [done|]. cbn [hexString map].
  pose proof (Forall_inv Hds) as Hd. cbn beta in Hd.
  destruct (Ascii.eqb_spec (hexDigit d) "+") as [Heq|_].
  { by apply hexDigit_ne in Heq. }
  destruct (Ascii.eqb_spec (hexDigit d) "-") as [Heq|_].
  { by apply hexDigit_ne in Heq. }
  unfold strconv.ParseUint.
  pose proof (parseDigits_hexString (d :: ds) Hds 0%Z) as Hparse.
  cbn [hexString map] in Hparse. fold (hexValue (d :: ds)) in Hparse.
  rewrite Hparse by lia.
  pose proof (foldl_hex_le (d :: ds) Hds 0%Z). fold (hexValue (d :: ds)) in *.
  change (2 ^ (32 - 1))%Z with (2 ^ 31)%Z. cbn [negb andb].
  destruct (Z.leb_spec (2 ^ 31) (hexValue (d :: ds))); [lia|done].
Qed.

Lemma hexString_trimmed (ds : list Z) :
  ds ≠ [] → Forall (λ d, 0 ≤ d < 16)%Z ds → trimmed (hexString ds).
Proof.
  intros Hne Hds. right. split.
  - destruct ds as [|d ds]; [done|]. exists (hexDigit d), (hexString ds).
    split; [done|]. apply hexDigit_solid. by apply Forall_inv in Hds.
  - destruct ds as [|d ds _] using rev_ind; [done|].
    apply Forall_app in Hds as [_ Hd]. apply Forall_inv in Hd.
    exists (hexString ds), (hexDigit d). split.
    + unfold hexString. by rewrite map_app.
    + by apply hexDigit_solid.
Qed.

(** *** [parseEmojiDataLine] on the lines of the Unicode tables *)

Lemma byteZ_hexDigit (d : Z) :
  (0 ≤ d < 16)%Z →
  byteZ (hexDigit d) = (if (d <? 10)%Z then 0x30 + d else 0x41 + d - 10)%Z.
Proof. intros Hd. hex_cases d; reflexivity. Qed.

Lemma hexString_free (ds : list Z) (c : ascii) :
  Forall (λ d, 0 ≤ d < 16)%Z ds →
  (byteZ c < 0x30 ∨ byteZ c = 0x3B)%Z → c ∉ hexString ds.
Proof.
  intros Hds Hc. induction Hds as [|d ds Hd _ IH]; [apply not_elem_of_nil|].
  cbn [hexString map]. apply not_elem_of_cons. split; [|done].
  intros ->. rewrite byteZ_hexDigit in Hc by done.
  destruct (Z.ltb_spec d 10); lia.
Qed.

Lemma blank_free (pad : gostring) (c : ascii) :
  Forall blank pad → unicode.IsSpace (byteZ c) = false → c ∉ pad.
Proof.
  intros Hpad Hc Hin. rewrite Forall_forall in Hpad.
  destruct (Hpad c Hin) as [_ Hblank]. congruence.
Qed.

Lemma not_elem_of_Join (pieces : list gostring) (sep : gostring) (c : ascii) :
  Forall (λ piece, c ∉ piece) pieces → (c ∉ sep) →
  c ∉ strings.Join pieces sep.
Proof.
  intros Hpieces Hsep. induction Hpieces as [|piece pieces Hpiece _ IH].
  - apply not_elem_of_nil.
  - destruct pieces as [|piece' pieces]; [done|].
    rewrite Join_cons by done. rewrite !not_elem_of_app. done.
Qed.

Lemma Join_snoc (pieces : list gostring) (piece sep : gostring) :
  pieces ≠ [] →
  strings.Join (pieces ++ [piece]) sep
  = strings.Join pieces sep ++ sep ++ piece.
Proof.
  induction pieces as [|p pieces IH]; intros Hne; [done|].
  destruct pieces as [|p' pieces]; [done|].
  cbn [app]. rewrite (Join_cons p) by done.
  cbn [app] in IH. rewrite IH by done.
  rewrite (Join_cons p) by done. by rewrite <- !app_assoc.
Qed.

Lemma numerals_free (cps : list (list Z)) (c : ascii) :
  Forall hexNumeral cps → (byteZ c < 0x30 ∨ byteZ c = 0x3B)%Z →
  Forall (λ piece, c ∉ piece) (map hexString cps).
Proof.
  intros Hcps Hc. apply Forall_map. eapply Forall_impl; [exact Hcps|].
  intros ds (_ & Hds & _). by apply hexString_free.
Qed.

Lemma numerals_trimmed (cps : list (list Z)) :
  cps ≠ [] → Forall hexNumeral cps →
  trimmed (strings.Join (map hexString cps) (str " ")).
Proof.
  intros Hne Hcps. right. split.
  - destruct cps as [|ds cps]; [done|].
    apply Forall_inv in Hcps as (Hds & Hdigits & _).
    destruct ds as [|d ds]; [done|]. apply Forall_inv in Hdigits.
    exists (hexDigit d). destruct cps as [|ds' cps]; cbn [map hexString].
    + eexists. split; [reflexivity|by apply hexDigit_solid].
    + rewrite Join_cons by done.
      eexists. split; [reflexivity|by apply hexDigit_solid].
  - destruct cps as [|ds cps _] using rev_ind; [done|].
    apply Forall_app in Hcps as [_ Hds].
    apply Forall_inv in Hds as (Hds & Hdigits & _).
    destruct ds as [|d ds _] using rev_ind; [done|].
    apply Forall_app in Hdigits as [_ Hd]. apply Forall_inv in Hd.
    rewrite map_app. cbn [map]. unfold hexString at 2. rewrite map_app.
    cbn [map]. fold (hexString ds).
    destruct (decide (cps = [])) as [->|Hcps].
    + eexists (hexString ds), _. split; [done|]. by apply hexDigit_solid.
    + rewrite Join_snoc by (by destruct cps).
      eexists _, (hexDigit d). split; [|by apply hexDigit_solid].
      by rewrite !app_assoc.
Qed.

Lemma parseCodePoints_numerals (line : gostring) (cps : list (list Z)) :
  Forall hexNumeral cps →
  generate.parseCodePoints line (map hexString cps) = Ret (map hexValue cps).
Proof.
  intros Hcps. induction Hcps as [|ds cps Hds _ IH]; [done|].
  cbn [map generate.parseCodePoints].
  by rewrite ParseInt_hexString, IH by done.
Qed.

(** The text before the comment, and its first two fields. *)
Lemma line_fields (part0 part1 rest : gostring) :
  ("#"%char ∉ part0) → (";"%char ∉ part0) →
  ("#"%char ∉ part1) → (";"%char ∉ part1) →
  lineRest rest →
  ∃ body after found more,
    strings.Cut (part0 ++ str ";" ++ part1 ++ rest) (str "#")
    = (body, after, found)
    ∧ body ≠ []
    ∧ strings.SplitN body (str ";") 3 = part0 :: part1 :: more.
Proof.
  intros H0 H0' H1 H1' Hrest.
  change (str ";") with [";"%char]. change (str "#") with ["#"%char].
  assert (Hsplit : ∀ r1, lineRest r1 → ("#"%char ∉ r1) →
            ∃ more, strings.SplitN (part0 ++ [";"%char] ++ part1 ++ r1)
                      [";"%char] 3 = part0 :: part1 :: more).
  { intros r1 Hr1 Hfree. unfold strings.SplitN.
    destruct r1 as [|c r1].
    - exists []. rewrite app_nil_r.
      replace (Nat.min 3 (length (part0 ++ [";"%char] ++ part1) + 1) - 1)%nat
        with (S (Nat.min 2 (length (part0 ++ [";"%char] ++ part1)) - 1))
        by (rewrite !length_app; cbn [length]; lia).
      rewrite genSplit_cons by done. by rewrite genSplit_one.
    - exists [r1]. destruct Hr1 as [-> | ->];
        [|by apply not_elem_of_cons in Hfree as [? _]].
      replace (Nat.min 3 (length (part0 ++ [";"%char] ++ part1
                                  ++ ";"%char :: r1) + 1) - 1)%nat
        with 2%nat by (rewrite !length_app; cbn [length]; lia).
      rewrite genSplit_cons by done.
      change (part1 ++ ";"%char :: r1) with (part1 ++ [";"%char] ++ r1).
      by rewrite genSplit_cons. }
  destruct (decide ("#"%char ∈ rest)) as [Hin|Hnotin].
  - apply list_elem_of_split_l in Hin as (r1 & r2 & -> & Hr1).
    assert (Hr1' : lineRest r1).
    { destruct r1 as [|c r1]; [done|]. destruct Hrest as [-> | ->]; [by left|].
      by apply not_elem_of_cons in Hr1 as [? _]. }
    destruct (Hsplit r1 Hr1' Hr1) as [more Hmore].
    exists (part0 ++ [";"%char] ++ part1 ++ r1), r2, true, more.
    split; [|split; [by destruct part0|done]].
    replace (part0 ++ [";"%char] ++ part1 ++ r1 ++ "#"%char :: r2)
      with ((part0 ++ [";"%char] ++ part1 ++ r1) ++ ["#"%char] ++ r2)
      by (by rewrite <- !app_assoc).
    apply Cut_first. rewrite !not_elem_of_app. split_and!; try done.
    apply not_elem_of_cons. split; [done|apply not_elem_of_nil].
  - destruct (Hsplit rest Hrest Hnotin) as [more Hmore].
    exists (part0 ++ [";"%char] ++ part1 ++ rest), [], false, more.
    split; [|split; [by destruct part0|done]].
    apply Cut_None. rewrite !not_elem_of_app. split_and!; try done.
    apply not_elem_of_cons. split; [done|apply not_elem_of_nil].
Qed.

Lemma semicolon_not_space : unicode.IsSpace (byteZ ";") = false.
Proof. done. Qed.
Lemma hash_not_space : unicode.IsSpace (byteZ "#") = false.
Proof. done. Qed.

(** X1: a line of the sequence tables.  The code points in hexadecimal,
    separated by single spaces, then [;] and a tag, with white space around
    the fields at will and a further field or a comment after them, yield
    one emoji, the UTF-8 string of the code points in their order, and the
    tag without the white space. *)
Theorem parseEmojiDataLine_sequence (cps : list (list Z))
    (pad1 pad2 tag pad3 rest : gostring) :
  cps ≠ [] → Forall hexNumeral cps →
  Forall blank pad1 → Forall blank pad2 → Forall blank pad3 →
  trimmed tag → ("#"%char ∉ tag) → (";"%char ∉ tag) →
  lineRest rest →
  generate.parseEmojiDataLine
    ((strings.Join (map hexString cps) (str " ") ++ pad1)
     ++ str ";" ++ (pad2 ++ tag ++ pad3) ++ rest)
  = Ret ([utf8.encodeRunes (map hexValue cps)], tag).
Proof.
  intros Hne Hcps Hpad1 Hpad2 Hpad3 Htag Htag1 Htag2 Hrest.
  set (field := strings.Join (map hexString cps) (str " ")).
  assert (Hfree : ∀ c, (byteZ c < 0x30 ∨ byteZ c = 0x3B)%Z → c ≠ " "%char →
            c ∉ field).
  { intros c Hc Hsp. apply not_elem_of_Join; [by apply numerals_free|].
    apply not_elem_of_cons. split; [done|apply not_elem_of_nil]. }
  destruct (line_fields (field ++ pad1) (pad2 ++ tag ++ pad3) rest)
    as (body & after & found & more & Hcut & Hbody & Hparts); [..|done|].
  { rewrite not_elem_of_app. split; [apply Hfree; [by left|done]|].
    by apply blank_free. }
  { rewrite not_elem_of_app. split; [apply Hfree; [by right|done]|].
    by apply blank_free. }
  { rewrite !not_elem_of_app. split_and!; [|done|]; by apply blank_free. }
  { rewrite !not_elem_of_app. split_and!; [|done|]; by apply blank_free. }
  unfold generate.parseEmojiDataLine. rewrite Hcut.
  destruct body as [|c body]; [done|]. rewrite Hparts.
  pose proof (TrimSpace_padded [] field pad1 (List.Forall_nil _)
                (numerals_trimmed cps Hne Hcps) Hpad1) as Htrim0.
  cbn [app] in Htrim0. rewrite Htrim0.
  rewrite (TrimSpace_padded pad2 tag pad3) by done.
  change (str "..") with ("."%char :: ["."%char]).
  rewrite Cut_None by (apply Hfree; [by left|done]).
  unfold field. change (str " ") with [" "%char].
  rewrite Split_Join.
  - rewrite parseCodePoints_numerals by done. done.
  - by destruct cps.
  - apply numerals_free; [done|by left].
Qed.

Lemma parseEmojiDataLine_sequence_witness :
  let cps := [[1; 15; 4; 6; 8]; [2; 0; 0; 13]; [1; 15; 4; 6; 7]]%Z in
  let line := str "1F468 200D 1F467 ; RGI_Emoji_ZWJ_Sequence ; family # E2.0" in
  (cps ≠ [] ∧ Forall hexNumeral cps
   ∧ Forall blank (str " ") ∧ Forall blank (str " ") ∧ Forall blank (str " ")
   ∧ trimmed (str "RGI_Emoji_ZWJ_Sequence")
   ∧ ("#"%char ∉ str "RGI_Emoji_ZWJ_Sequence")
   ∧ (";"%char ∉ str "RGI_Emoji_ZWJ_Sequence")
   ∧ lineRest (str "; family # E2.0")
   ∧ line = (strings.Join (map hexString cps) (str " ") ++ str " ")
            ++ str ";" ++ (str " " ++ str "RGI_Emoji_ZWJ_Sequence" ++ str " ")
            ++ str "; family # E2.0")
  ∧ generate.parseEmojiDataLine line
    = Ret ([utf8.encodeRunes [0x1F468; 0x200D; 0x1F467]%Z],
           str "RGI_Emoji_ZWJ_Sequence").
Proof.
  intros cps line.
  assert (H1 : cps ≠ []) by done.
  assert (H2 : Forall hexNumeral cps).
  { repeat constructor; try done; try lia. }
  assert (H3 : Forall blank (str " ")) by (by repeat constructor).
  assert (H4 : trimmed (str "RGI_Emoji_ZWJ_Sequence")).
  { right. split.
    - eexists _, _. split; [reflexivity|]. by vm_compute.
    - exists (str "RGI_Emoji_ZWJ_Sequenc"), "e"%char.
      split; [reflexivity|]. by vm_compute. }
  assert (H5 : "#"%char ∉ str "RGI_Emoji_ZWJ_Sequence")
    by (apply not_elem_of_forallb; reflexivity).
  assert (H6 : ";"%char ∉ str "RGI_Emoji_ZWJ_Sequence")
    by (apply not_elem_of_forallb; reflexivity).
  assert (H7 : lineRest (str "; family # E2.0")) by (by left).
  assert (H8 : line = (strings.Join (map hexString cps) (str " ") ++ str " ")
            ++ str ";" ++ (str " " ++ str "RGI_Emoji_ZWJ_Sequence" ++ str " ")
            ++ str "; family # E2.0") by reflexivity.
  split; [exact (conj H1 (conj H2 (conj H3 (conj H3 (conj H3 (conj H4
                   (conj H5 (conj H6 (conj H7 H8)))))))))|].
  rewrite H8.
  exact (parseEmojiDataLine_sequence cps _ _ _ _ _ H1 H2 H3 H3 H3 H4 H5 H6 H7).
Defined.

(** X2: a range line.  [lo..hi] in hexadecimal with [lo] not above [hi],
    then [;] and a tag, yield one emoji for every code point from [lo] up to
    [hi], each the UTF-8 string of that one code point, in ascending order. *)
Theorem parseEmojiDataLine_range (lo hi : list Z)
    (pad1 pad2 tag pad3 rest : gostring) :
  hexNumeral lo → hexNumeral hi → (hexValue lo ≤ hexValue hi)%Z →
  Forall blank pad1 → Forall blank pad2 → Forall blank pad3 →
  trimmed tag → ("#"%char ∉ tag) → (";"%char ∉ tag) →
  lineRest rest →
  generate.parseEmojiDataLine
    (((hexString lo ++ str ".." ++ hexString hi) ++ pad1)
     ++ str ";" ++ (pad2 ++ tag ++ pad3) ++ rest)
  = Ret (map utf8.encodeRune
             (seqZ (hexValue lo) (hexValue hi - hexValue lo + 1)), tag).
Proof.
  intros Hlo Hhi Hle Hpad1 Hpad2 Hpad3 Htag Htag1 Htag2 Hrest.
  pose proof Hlo as (Hlo1 & Hlo2 & Hlo3). pose proof Hhi as (Hhi1 & Hhi2 & Hhi3).
  set (field := hexString lo ++ str ".." ++ hexString hi).
  assert (Hfree : ∀ c, (byteZ c < 0x30 ∨ byteZ c = 0x3B)%Z → c ≠ "."%char →
            c ∉ field).
  { intros c Hc Hdot. unfold field. rewrite !not_elem_of_app.
    split_and!; [by apply hexString_free| |by apply hexString_free].
    change (str "..") with ["."%char; "."%char].
    rewrite !not_elem_of_cons. split_and!; [done|done|apply not_elem_of_nil]. }
  assert (Hfield : trimmed field).
  { right. split.
    - destruct lo as [|d lo]; [done|]. apply Forall_inv in Hlo2.
      eexists (hexDigit d), _. split; [reflexivity|]. by apply hexDigit_solid.
    - destruct hi as [|d hi _] using rev_ind; [done|].
      apply Forall_app in Hhi2 as [_ Hd]. apply Forall_inv in Hd.
      eexists _, (hexDigit d). split; [|by apply hexDigit_solid].
      unfold field, hexString. rewrite map_app. cbn [map].
      by rewrite !app_assoc. }
  destruct (line_fields (field ++ pad1) (pad2 ++ tag ++ pad3) rest)
    as (body & after & found & more & Hcut & Hbody & Hparts); [..|done|].
  { rewrite not_elem_of_app. split; [apply Hfree; [by left|done]|].
    by apply blank_free. }
  { rewrite not_elem_of_app. split; [apply Hfree; [by right|done]|].
    by apply blank_free. }
  { rewrite !not_elem_of_app. split_and!; [|done|]; by apply blank_free. }
  { rewrite !not_elem_of_app. split_and!; [|done|]; by apply blank_free. }
  unfold generate.parseEmojiDataLine. rewrite Hcut.
  destruct body as [|c body]; [done|]. rewrite Hparts.
  pose proof (TrimSpace_padded [] field pad1 (List.Forall_nil _) Hfield Hpad1)
    as Htrim0.
  cbn [app] in Htrim0. rewrite Htrim0.
  rewrite (TrimSpace_padded pad2 tag pad3) by done.
  unfold field. change (str "..") with ("."%char :: ["."%char]).
  rewrite Cut_first by (apply hexString_free; [done|by left]).
  rewrite !ParseInt_hexString by done.
  pose proof (foldl_hex_le lo Hlo2 0%Z). fold (hexValue lo) in *.
  rewrite (wrap64_small (hexValue hi - hexValue lo)) by (unfold maxInt; lia).
  rewrite wrap64_small by (unfold maxInt; lia).
  unfold generate.makeSlice.
  destruct (Z.ltb_spec (hexValue hi - hexValue lo + 1) 0); [lia|]. done.
Qed.

Lemma parseEmojiDataLine_range_witness :
  let lo := [1; 15; 3; 15; 11]%Z in
  let hi := [1; 15; 3; 15; 15]%Z in
  let line := str "1F3FB..1F3FF  ; Emoji_Modifier  # skin tones" in
  (hexNumeral lo ∧ hexNumeral hi ∧ (hexValue lo ≤ hexValue hi)%Z
   ∧ Forall blank (str "  ") ∧ Forall blank (str " ")
   ∧ trimmed (str "Emoji_Modifier")
   ∧ ("#"%char ∉ str "Emoji_Modifier") ∧ (";"%char ∉ str "Emoji_Modifier")
   ∧ lineRest (str "# skin tones")
   ∧ line = ((hexString lo ++ str ".." ++ hexString hi) ++ str "  ")
            ++ str ";" ++ (str " " ++ str "Emoji_Modifier" ++ str "  ")
            ++ str "# skin tones")
  ∧ generate.parseEmojiDataLine line
    = Ret (map utf8.encodeRune [0x1F3FB; 0x1F3FC; 0x1F3FD; 0x1F3FE; 0x1F3FF]%Z,
           str "Emoji_Modifier").
Proof.
  intros lo hi line.
  assert (H1 : hexNumeral lo) by (repeat constructor; try done; try lia).
  assert (H2 : hexNumeral hi) by (repeat constructor; try done; try lia).
  assert (H3 : (hexValue lo ≤ hexValue hi)%Z) by (by vm_compute).
  assert (H4 : Forall blank (str "  ")) by (by repeat constructor).
  assert (H5 : Forall blank (str " ")) by (by repeat constructor).
  assert (H6 : trimmed (str "Emoji_Modifier")).
  { right. split.
    - eexists _, _. split; [reflexivity|]. by vm_compute.
    - exists (str "Emoji_Modifie"), "r"%char.
      split; [reflexivity|]. by vm_compute. }
  assert (H7 : "#"%char ∉ str "Emoji_Modifier")
    by (apply not_elem_of_forallb; reflexivity).
  assert (H8 : ";"%char ∉ str "Emoji_Modifier")
    by (apply not_elem_of_forallb; reflexivity).
  assert (H9 : lineRest (str "# skin tones")) by (by right).
  assert (H10 : line = ((hexString lo ++ str ".." ++ hexString hi) ++ str "  ")
            ++ str ";" ++ (str " " ++ str "Emoji_Modifier" ++ str "  ")
            ++ str "# skin tones") by reflexivity.
  split; [exact (conj H1 (conj H2 (conj H3 (conj H4 (conj H5 (conj H6
                   (conj H7 (conj H8 (conj H9 H10)))))))))|].
  rewrite H10.
  exact (parseEmojiDataLine_range lo hi _ _ _ _ _ H1 H2 H3 H4 H5 H4 H6 H7 H8 H9).
Defined.

(** X3: a comment is ignored.  What follows the first [#] of a line has no
    part in the result, be it emoji or error: the line is read as the text
    before the [#] (which an error quotes without the comment). *)
Theorem parseEmojiDataLine_comment (body comment : gostring) :
  ("#"%char ∉ body) →
  generate.parseEmojiDataLine (body ++ str "#" ++ comment)
  = generate.parseEmojiDataLine body.
Proof.
  intros Hhash. unfold generate.parseEmojiDataLine.
  change (str "#") with ["#"%char].
  by rewrite Cut_first, Cut_None by done.
Qed.

Lemma parseEmojiDataLine_comment_witness :
  ("#"%char ∉ str "1F600 ; Basic_Emoji ")
  ∧ generate.parseEmojiDataLine (str "1F600 ; Basic_Emoji # grinning; face")
    = generate.parseEmojiDataLine (str "1F600 ; Basic_Emoji ").
Proof.
  assert (H : "#"%char ∉ str "1F600 ; Basic_Emoji ")
    by (apply not_elem_of_forallb; reflexivity).
  split; [exact H|].
  exact (parseEmojiDataLine_comment (str "1F600 ; Basic_Emoji ")
           (str " grinning; face") H).
Defined.

(** X4: a line without fields.  Text without [;] and without comment is
    ignored when it is empty (no emoji, no tag, no error) and rejected
    otherwise, with an error that quotes it. *)
Theorem parseEmojiDataLine_no_semicolon (body : gostring) :
  ("#"%char ∉ body) → (";"%char ∉ body) →
  generate.parseEmojiDataLine body
  = if decide (body = []) then Ret ([], []) else Fail (ErrParseLine body).
Proof.
  intros Hhash Hsemi.
  unfold generate.parseEmojiDataLine. change (str "#") with ["#"%char].
  rewrite Cut_None by done. destruct body as [|c body]; [done|].
  unfold strings.SplitN. change (str ";") with [";"%char].
  by rewrite genSplit_one.
Qed.

Lemma parseEmojiDataLine_no_semicolon_witness :
  (("#"%char ∉ str "1F600 Basic_Emoji") ∧ (";"%char ∉ str "1F600 Basic_Emoji"))
  ∧ generate.parseEmojiDataLine (str "1F600 Basic_Emoji")
    = Fail (ErrParseLine (str "1F600 Basic_Emoji")).
Proof.
  assert (H1 : "#"%char ∉ str "1F600 Basic_Emoji")
    by (apply not_elem_of_forallb; reflexivity).
  assert (H2 : ";"%char ∉ str "1F600 Basic_Emoji")
    by (apply not_elem_of_forallb; reflexivity).
  split; [exact (conj H1 H2)|].
  exact (parseEmojiDataLine_no_semicolon (str "1F600 Basic_Emoji") H1 H2).
Defined.

(** *** Reading a table *)

Lemma modifierLines_first_error (pre : list gostring) (line : gostring)
    (post : list gostring) (e : error) :
  ∀ (rows : list (list gostring * gostring)) (acc : list gostring),
    generate.tableRows pre = Ret rows →
    generate.parseEmojiDataLine line = Fail e →
    generate.modifierLines (pre ++ line :: post) acc = Fail e.
Proof.
  induction pre as [|l pre IH]; intros rows acc Hrows Hline.
  - cbn [app generate.modifierLines]. by rewrite Hline.
  - cbn [app generate.modifierLines generate.tableRows] in *.
    destruct (generate.parseEmojiDataLine l) as [[emojis tag]| |]; [|done..].
    cbn [mbind outcome_bind] in *.
    destruct (generate.tableRows pre) as [rows'| |] eqn:Hpre; [|done..].
    by apply (IH rows').
Qed.

Lemma emojiLines_first_error (pre : list gostring) (line : gostring)
    (post : list gostring) (e : error) (modifiers : gmap gostring bool) :
  ∀ (rows : list (list gostring * gostring)) (acc : list gostring),
    generate.tableRows pre = Ret rows →
    generate.parseEmojiDataLine line = Fail e →
    generate.emojiLines (pre ++ line :: post) modifiers acc = Fail e.
Proof.
  induction pre as [|l pre IH]; intros rows acc Hrows Hline.
  - cbn [app generate.emojiLines]. by rewrite Hline.
  - cbn [app generate.emojiLines generate.tableRows] in *.
    destruct (generate.parseEmojiDataLine l) as [[emojis tag]| |]; [|done..].
    cbn [mbind outcome_bind] in *.
    destruct (generate.tableRows pre) as [rows'| |] eqn:Hpre; [|done..].
    by apply (IH rows').
Qed.

(** X5: reading a table stops at the first line that does not parse.
    [emojiModifiers] and [emojisInFile] return the error of that line; the
    lines after it are not looked at, and what the scanner would have
    reported at the end is not reported.  When every line parses and the
    scanner ends with an error, that error is returned and the emoji read so
    far are dropped. *)
Theorem table_read_errors (url : gostring) (pre : list gostring)
    (rows : list (list gostring * gostring))
    (modifiers : gmap gostring bool) :
  generate.tableRows pre = Ret rows →
  (∀ line post e scanErr,
     generate.parseEmojiDataLine line = Fail e →
     generate.emojiModifiers (Body (pre ++ line :: post) scanErr) = Fail e
     ∧ generate.emojisInFile url (Body (pre ++ line :: post) scanErr) modifiers
       = Fail e)
  ∧ (∀ err,
       generate.emojiModifiers (Body pre (Some err)) = Fail err
       ∧ generate.emojisInFile url (Body pre (Some err)) modifiers = Fail err).
Proof.
  intros Hrows. split.
  - intros line post e scanErr Hline.
    cbn [generate.emojiModifiers generate.emojisInFile].
    rewrite (modifierLines_first_error pre line post e rows) by done.
    by rewrite (emojiLines_first_error pre line post e modifiers rows).
  - intros err. cbn [generate.emojiModifiers generate.emojisInFile].
    destruct (generate.modifierLines pre []) as [ms| |] eqn:Hmod.
    + destruct (generate.emojiLines pre modifiers []) as [es| |] eqn:Hem;
        [done|..].
      * assert (∃ es, generate.emojiLines pre modifiers [] = Ret es)
          as [es Hes] by (eexists; apply emojiLines_rows; eauto).
        congruence.
      * assert (∃ es, generate.emojiLines pre modifiers [] = Ret es)
          as [es Hes] by (eexists; apply emojiLines_rows; eauto).
        congruence.
    + assert (∃ ms, generate.modifierLines pre [] = Ret ms)
        as [ms Hms] by (eexists; apply modifierLines_rows; eauto).
      congruence.
    + assert (∃ ms, generate.modifierLines pre [] = Ret ms)
        as [ms Hms] by (eexists; apply modifierLines_rows; eauto).
      congruence.
Qed.

Lemma table_read_errors_witness :
  let pre := [str "# emoji-data.txt"; str "1F600 ; Emoji"] in
  let bad := str "1F6G0 ; Emoji" in
  generate.tableRows pre
  = Ret [([], []); ([utf8.encodeRunes [0x1F600%Z]], str "Emoji")]
  ∧ generate.emojiModifiers
      (Body (pre ++ bad :: [str "also bad"]) (Some (ErrIO (str "reset"))))
    = Fail (ErrParseCodePoint bad strconv.ErrSyntax).
Proof.
  intros pre bad.
  assert (H : generate.tableRows pre
              = Ret [([], []); ([utf8.encodeRunes [0x1F600%Z]], str "Emoji")])
    by (vm_compute; reflexivity).
  split; [exact H|].
  assert (Hbad : generate.parseEmojiDataLine bad
                 = Fail (ErrParseCodePoint bad strconv.ErrSyntax))
    by (vm_compute; reflexivity).
  exact (proj1 (proj1 (table_read_errors [] pre _ ∅ H) bad [str "also bad"] _
                  (Some (ErrIO (str "reset"))) Hbad)).
Defined.

(** *** No empty emoji *)

Lemma parseCodePoints_length (line : gostring) (codePoints : list gostring)
    (emoji : list Z) :
  generate.parseCodePoints line codePoints = Ret emoji →
  length emoji = length codePoints.
Proof.
  revert emoji. induction codePoints as [|cp rest IH]; intros emoji.
  - cbn. by intros [= <-].
  - cbn [generate.parseCodePoints].
    destruct (strconv.ParseInt cp 16 32); [done|].
    destruct (generate.parseCodePoints line rest) as [emoji'| |]; [|done..].
    cbn [mbind outcome_bind]. intros [= <-]. cbn [length]. by rewrite (IH emoji').
Qed.

Lemma genSplit_nonempty (n : nat) (s sep : gostring) :
  strings.genSplit n s sep ≠ [].
Proof.
  destruct n as [|n]; [done|]. cbn [strings.genSplit].
  by destruct (strings.Index s sep).
Qed.

Lemma parseEmojiDataLine_nonempty (line : gostring) (emojis : list gostring)
    (tag : gostring) :
  generate.parseEmojiDataLine line = Ret (emojis, tag) → [] ∉ emojis.
Proof.
  unfold generate.parseEmojiDataLine.
  destruct (strings.Cut line (str "#")) as [[line' after] found].
  destruct line' as [|c line'].
  { intros [= <- <-]. apply not_elem_of_nil. }
  destruct (strings.SplitN (c :: line') (str ";") 3)
    as [|part0 [|part1 rest]]; [done..|].
  destruct (strings.Cut (strings.TrimSpace part0) (str ".."))
    as [[startStr endStr] [|]].
  - destruct (strconv.ParseInt startStr 16 32) as [|start]; [done|].
    destruct (strconv.ParseInt endStr 16 32) as [|end_]; [done|].
    destruct (generate.makeSlice _) as [made| |] eqn:Hmake; [|done..].
    cbn [mbind outcome_bind]. intros [= <- <-].
    unfold generate.makeSlice in Hmake.
    destruct (_ <? _)%Z; [done|]. injection Hmake as <-. cbn [app].
    intros (r & Hr & _)%list_elem_of_In%in_map_iff.
    by apply encodeRune_nonempty in Hr.
  - destruct (generate.parseCodePoints _ _) as [emoji| |] eqn:Hcp; [|done..].
    cbn [mbind outcome_bind]. intros [= <- <-].
    apply parseCodePoints_length in Hcp.
    intros [Hnil|Hin%elem_of_nil]%elem_of_cons; [|done].
    symmetry in Hnil. apply encodeRunes_nil_iff in Hnil. subst emoji.
    cbn [length] in Hcp. symmetry in Hcp. apply length_zero_iff_nil in Hcp.
    by apply genSplit_nonempty in Hcp.
Qed.

Lemma tableRows_nonempty (lines : list gostring) :
  ∀ rows, generate.tableRows lines = Ret rows →
          [] ∉ concat (map fst rows).
Proof.
  induction lines as [|line lines IH]; intros rows.
  - cbn. intros [= <-]. apply not_elem_of_nil.
  - cbn [generate.tableRows].
    destruct (generate.parseEmojiDataLine line) as [[emojis tag]| |] eqn:Hline;
      [|done..].
    cbn [mbind outcome_bind].
    destruct (generate.tableRows lines) as [rows'| |]; [|done..].
    cbn [mbind outcome_bind]. intros [= <-]. cbn [map concat fst].
    rewrite not_elem_of_app. split; [|by apply IH].
    by apply parseEmojiDataLine_nonempty in Hline.
Qed.

(** X6: no emoji of the built set is the empty string: every emoji
    [parseEmojiDataLine] yields has at least one code point, hence at least
    one byte. *)
Theorem emojis_nonempty (dataResp seqResp zwjResp : response)
    (built : list gostring) :
  generate.emojis dataResp seqResp zwjResp = Ret built → [] ∉ built.
Proof.
  unfold generate.emojis.
  destruct (generate.emojiModifiers dataResp) as [modifiersSlice| |]; [|done..].
  cbn [mbind outcome_bind].
  set (modifiers := foldl _ ∅ modifiersSlice).
  assert (Hfile : ∀ url resp emojis,
    generate.emojisInFile url resp modifiers = Ret emojis → [] ∉ emojis).
  { intros url resp emojis. destruct resp as [| |lines scanErr]; [done..|].
    cbn [generate.emojisInFile].
    destruct (generate.emojiLines lines modifiers []) as [es| |] eqn:Hes;
      [|done..].
    cbn [mbind outcome_bind]. destruct scanErr; [done|]. intros [= <-].
    apply emojiLines_rows in Hes as (rows & Hrows & ->). cbn [app].
    intros [_ Hin]%list_elem_of_filter.
    by apply tableRows_nonempty in Hrows. }
  destruct (generate.emojisInFile _ seqResp _) as [sequences| |] eqn:Hseq;
    [|done..].
  destruct (generate.emojisInFile _ zwjResp _) as [zwj| |] eqn:Hzwj; [|done..].
  cbn [mbind outcome_bind]. intros [= <-]. rewrite not_elem_of_app.
  split; eauto.
Qed.

Lemma emojis_nonempty_witness :
  generate.emojis fixture.dataResp fixture.seqResp fixture.zwjResp
  = Ret fixture.emojis
  ∧ ([] ∉ fixture.emojis).
Proof.
  assert (H : generate.emojis fixture.dataResp fixture.seqResp fixture.zwjResp
              = Ret fixture.emojis) by (vm_compute; reflexivity).
  split; [exact H|].
  exact (emojis_nonempty _ _ _ _ H).
Defined.

(** *** What [collationData] fails with *)

Lemma HasPrefix_star_rule (line : gostring) :
  strings.HasPrefix line (str "<*") = true →
  strings.HasPrefix line (str "<") = true.
Proof.
  intros (s' & -> & _)%HasPrefix_first. cbn. by destruct s'.
Qed.

Lemma collationLine_accepted (st : gmap gostring Z * Z) (line : gostring) :
  acceptedLine line = true →
  generate.collationLine st line
  = Ret (foldl generate.assign st (generate.lineKeys line)).
Proof.
  unfold acceptedLine, generate.collationLine, generate.lineKeys.
  intros Hacc.
  destruct (bool_decide (line = []) || strings.HasPrefix line (str "#")
            || strings.HasPrefix line (str "&")) eqn:Hskip; [done|].
  cbn [orb] in Hacc. rewrite Hacc.
  by destruct (strings.HasPrefix line (str "<*")).
Qed.

Lemma collationLine_rejected (st : gmap gostring Z * Z) (line : gostring) :
  acceptedLine line = false →
  generate.collationLine st line = Fail (ErrUnexpectedLine line).
Proof.
  unfold acceptedLine, generate.collationLine.
  intros Hacc. apply orb_false_elim in Hacc as [-> Hrule].
  rewrite Hrule.
  destruct (strings.HasPrefix line (str "<*")) eqn:Hstar; [|done].
  apply HasPrefix_star_rule in Hstar. congruence.
Qed.

Lemma collationLines_accepted (lines : list gostring) :
  ∀ st : gmap gostring Z * Z,
    Forall (λ line, acceptedLine line = true) lines →
    generate.collationLines st lines
    = Ret (foldl generate.assign st (concat (map generate.lineKeys lines))).
Proof.
  induction lines as [|line lines IH]; intros st Hacc; [done|].
  apply Forall_cons in Hacc as [Hline Hacc].
  cbn [generate.collationLines map concat].
  rewrite collationLine_accepted by done. cbn [mbind outcome_bind].
  rewrite IH by done. by rewrite foldl_app.
Qed.

Lemma collationLines_rejected (pre : list gostring) (line : gostring)
    (post : list gostring) (st : gmap gostring Z * Z) :
  Forall (λ line, acceptedLine line = true) pre →
  acceptedLine line = false →
  generate.collationLines st (pre ++ line :: post)
  = Fail (ErrUnexpectedLine line).
Proof.
  revert st. induction pre as [|l pre IH]; intros st Hpre Hline.
  - cbn [app generate.collationLines].
    by rewrite collationLine_rejected.
  - apply Forall_cons in Hpre as [Hl Hpre].
    cbn [app generate.collationLines].
    rewrite collationLine_accepted by done. cbn [mbind outcome_bind].
    by apply IH.
Qed.

Lemma first_rejected (lines : list gostring) :
  Forall (λ line, acceptedLine line = true) lines
  ∨ ∃ pre line post,
      lines = pre ++ line :: post
      ∧ Forall (λ line, acceptedLine line = true) pre
      ∧ acceptedLine line = false.
Proof.
  induction lines as [|l lines [IH|(pre & line & post & -> & Hpre & Hline)]].
  - by left.
  - destruct (acceptedLine l) eqn:Hl.
    + left. by constructor.
    + right. by exists [], l, lines.
  - destruct (acceptedLine l) eqn:Hl.
    + right. exists (l :: pre), line, post. split; [done|].
      split; [by constructor|done].
    + right. by exists [], l, (pre ++ line :: post).
Qed.

(** X13: [collationData] accepts the rules exactly when every line of them is
    empty or begins with [#], [&] or [<]; otherwise it fails with the first
    line that does not, quoted in the error, whatever follows that line.
    It never panics. *)
Theorem collationData_unexpected_line (collations : list generate.xmlCollation) :
  let text := generate.emojiCollationOf collations in
  let lines := strings.Split text [byte 0x0A] in
  text ≠ [] →
  (Forall (λ line, acceptedLine line = true) lines
   ∧ ∃ tbl, generate.collationData (generate.Parsed collations) = Ret tbl)
  ∨ (∃ pre line post,
       lines = pre ++ line :: post
       ∧ Forall (λ line, acceptedLine line = true) pre
       ∧ line ≠ []
       ∧ strings.HasPrefix line (str "#") = false
       ∧ strings.HasPrefix line (str "&") = false
       ∧ strings.HasPrefix line (str "<") = false
       ∧ generate.collationData (generate.Parsed collations)
         = Fail (ErrUnexpectedLine line)).
Proof.
  intros text lines Htext. unfold generate.collationData. fold text.
  destruct (decide (text = [])); [done|].
  unfold generate.collationTable. fold lines.
  destruct (first_rejected lines)
    as [Hall|(pre & line & post & Hlines & Hpre & Hline)].
  - left. split; [done|]. rewrite collationLines_accepted by done.
    destruct (foldl _ _ _) as [tbl count]. by exists tbl.
  - right. exists pre, line, post. rewrite Hlines.
    rewrite collationLines_rejected by done.
    unfold acceptedLine in Hline.
    apply orb_false_elim in Hline as [Hline ?].
    apply orb_false_elim in Hline as [Hline ?].
    apply orb_false_elim in Hline as [Hline ?].
    apply bool_decide_eq_false in Hline. done.
Qed.

Lemma collationData_unexpected_line_witness :
  let collations :=
    [{| generate.CollationType := str "emoji";
        generate.CR := str "<*ab" ++ [byte 0x0A] ++ str "a<b" ++ [byte 0x0A]
                       ++ str "?" |}] in
  generate.emojiCollationOf collations ≠ []
  ∧ generate.collationData (generate.Parsed collations)
    = Fail (ErrUnexpectedLine (str "a<b")).
Proof.
  intros collations.
  assert (H : generate.emojiCollationOf collations ≠ []) by done.
  split; [exact H|].
  destruct (collationData_unexpected_line collations H)
    as [[_ [tbl Hret]]|(pre & line & post & _ & _ & _ & _ & _ & _ & Hfail)].
  - vm_compute in Hret. discriminate Hret.
  - rewrite Hfail. vm_compute in Hfail. injection Hfail as <-. reflexivity.
Defined.

(** X12: [collationData] reports that there is no emoji collation exactly when
    the first collation of type [emoji], if there is one, has no rules: the
    loop stops at the first collation of that type and looks at no later one. *)
Theorem collationData_no_emoji_collation
    (collations : list generate.xmlCollation) :
  generate.collationData (generate.Parsed collations) = Fail ErrNoEmojiCollation
  ↔ ∀ pre collation post,
      collations = pre ++ collation :: post →
      Forall (λ c, generate.CollationType c ≠ str "emoji") pre →
      generate.CollationType collation = str "emoji" →
      generate.CR collation = [].
Proof.
  assert (Hfirst : ∀ cs : list generate.xmlCollation,
    generate.emojiCollationOf cs = []
    ↔ ∀ pre collation post,
        cs = pre ++ collation :: post →
        Forall (λ c, generate.CollationType c ≠ str "emoji") pre →
        generate.CollationType collation = str "emoji" →
        generate.CR collation = []).
  { induction cs as [|c cs IH]; cbn [generate.emojiCollationOf].
    - split; [|done]. intros _ pre collation post Hnil. by destruct pre.
    - case_decide as Htype.
      + split.
        * intros Hcr pre collation post Hcs Hpre Hcoll.
          destruct pre as [|c' pre]; cbn [app] in Hcs; simplify_eq; try done.
          by apply Forall_cons in Hpre as [? _].
        * intros H. by apply (H [] c cs).
      + rewrite IH. split.
        * intros H pre collation post Hcs Hpre Hcoll.
          destruct pre as [|c' pre]; cbn [app] in Hcs; simplify_eq; try done.
          apply Forall_cons in Hpre as [_ Hpre]. by apply (H pre collation post).
        * intros H pre collation post -> Hpre Hcoll.
          apply (H (c :: pre) collation post); [done| |done].
          by constructor. }
  rewrite <- Hfirst. unfold generate.collationData.
  set (text := generate.emojiCollationOf collations).
  destruct (decide (text = [])) as [Hnil|Hne]; [done|].
  split; [|done]. unfold generate.collationTable.
  destruct (first_rejected (strings.Split text [byte 0x0A]))
    as [Hall|(pre & line & post & Hlines & Hpre & Hline)].
  - rewrite collationLines_accepted by done. by destruct (foldl _ _ _).
  - rewrite Hlines, collationLines_rejected by done. done.
Qed.

(** *** No two keys share a rank *)

Lemma withRanks_injective (keys : list gostring) :
  ∀ (tbl : gmap gostring Z) (n : Z),
    (∀ key rank, tbl !! key = Some rank → (rank < n)%Z) →
    (∀ k1 k2 rank, tbl !! k1 = Some rank → tbl !! k2 = Some rank → k1 = k2) →
    ∀ k1 k2 rank,
      generate.withRanks tbl keys n !! k1 = Some rank →
      generate.withRanks tbl keys n !! k2 = Some rank → k1 = k2.
Proof.
  induction keys as [|key keys IH]; intros tbl n Hlt Hinj.
  - by rewrite withRanks_nil.
  - rewrite withRanks_cons. apply IH.
    + intros k rank. destruct (decide (k = key)) as [->|Hk].
      * rewrite lookup_insert_eq. intros; simplify_eq. lia.
      * rewrite lookup_insert_ne by done. intros ?%Hlt. lia.
    + intros k1 k2 rank.
      destruct (decide (k1 = key)) as [->|H1], (decide (k2 = key)) as [->|H2];
        rewrite ?lookup_insert_eq, ?lookup_insert_ne by done; [done|..].
      * intros ? ?%Hlt. simplify_eq. lia.
      * intros ?%Hlt ?. simplify_eq. lia.
      * apply Hinj.
Qed.

(** X15: in a table built by [collationData] no two keys share a rank: a key
    that is listed again takes a new rank and gives up the old one. *)
Theorem collationData_ranks_distinct (collations : list generate.xmlCollation)
    (tbl : gmap gostring Z) (k1 k2 : gostring) (rank : Z) :
  (Z.of_nat (length (generate.emojiCollationOf collations)) ≤ maxInt)%Z →
  generate.collationData (generate.Parsed collations) = Ret tbl →
  tbl !! k1 = Some rank → tbl !! k2 = Some rank → k1 = k2.
Proof.
  intros Hlen Hdata. unfold generate.collationData in Hdata.
  set (text := generate.emojiCollationOf collations) in *.
  destruct (decide (text = [])); [done|].
  destruct (generate.collationTable text) as [[tbl' count]| |] eqn:Htable;
    simpl in Hdata; simplify_eq.
  unfold generate.collationTable in Htable.
  pose proof (app_nil_r (strings.Split text [byte 0x0A])) as Hsplit.
  symmetry in Hsplit.
  destruct (collationLines_prefix_state text _ [] tbl count Hlen Hsplit Htable)
    as (_ & -> & _).
  apply withRanks_injective; [|done].
  intros key r. by rewrite lookup_empty.
Qed.

Lemma collationData_ranks_distinct_witness :
  let collations :=
    [{| generate.CollationType := str "emoji";
        generate.CR := str "<*aba" |}] in
  let tbl : gmap gostring Z := <[str "a" := 3%Z]> {[str "b" := 2%Z]} in
  ((Z.of_nat (length (generate.emojiCollationOf collations)) ≤ maxInt)%Z
   ∧ generate.collationData (generate.Parsed collations) = Ret tbl
   ∧ tbl !! str "a" = Some 3%Z)
  ∧ ∀ k, tbl !! k = Some 3%Z → k = str "a".
Proof.
  intros collations tbl.
  assert (H1 : (Z.of_nat (length (generate.emojiCollationOf collations))
                ≤ maxInt)%Z) by (vm_compute; discriminate).
  assert (H2 : generate.collationData (generate.Parsed collations) = Ret tbl)
    by (vm_compute; reflexivity).
  assert (H3 : tbl !! str "a" = Some 3%Z) by (vm_compute; reflexivity).
  split; [exact (conj H1 (conj H2 H3))|].
  intros k Hk.
  exact (collationData_ranks_distinct collations tbl k (str "a") 3 H1 H2 Hk H3).
Defined.

(** *** The keys of a [<] line *)

Lemma range_encodeRunes_app (rs : list Z) (rest : gostring) :
  utf8.range (utf8.encodeRunes rs ++ rest)
  = map (λ r, (cleanRune r, utf8.encodeRune r)) rs ++ utf8.range rest.
Proof.
  induction rs as [|r rs IH]; [done|].
  rewrite encodeRunes_cons, <- app_assoc, range_encodeRune, IH. done.
Qed.

Lemma fieldsFrom_token (f : Z → bool) (tok : list Z)
    (rest : list (Z * gostring)) :
  (∀ r, r ∈ tok → f (cleanRune r) = false) →
  ∀ w, strings.fieldsFrom f (Some w)
         (map (λ r, (cleanRune r, utf8.encodeRune r)) tok ++ rest)
       = strings.fieldsFrom f (Some (w ++ utf8.encodeRunes tok)) rest.
Proof.
  induction tok as [|r tok IH]; intros Htok w.
  - cbn [map app]. by rewrite app_nil_r.
  - cbn [map app strings.fieldsFrom]. rewrite Htok by left.
    rewrite IH by (intros r' Hr'; apply Htok; by right).
    by rewrite encodeRunes_cons, app_assoc.
Qed.

Lemma fieldsFrom_first_token (f : Z → bool) (tok : list Z)
    (rest : list (Z * gostring)) :
  tok ≠ [] → (∀ r, r ∈ tok → f (cleanRune r) = false) →
  strings.fieldsFrom f None
    (map (λ r, (cleanRune r, utf8.encodeRune r)) tok ++ rest)
  = strings.fieldsFrom f (Some (utf8.encodeRunes tok)) rest.
Proof.
  intros Hne Htok. destruct tok as [|r tok]; [done|].
  cbn [map app strings.fieldsFrom]. rewrite Htok by left.
  rewrite fieldsFrom_token by (intros r' Hr'; apply Htok; by right).
  by rewrite encodeRunes_cons.
Qed.

(** The fields of tokens joined by one separator rune are the tokens. *)
Lemma FieldsFunc_Join (f : Z → bool) (sep : Z) (toks : list (list Z)) :
  f (cleanRune sep) = true → toks ≠ [] →
  Forall (λ tok, tok ≠ [] ∧ ∀ r, r ∈ tok → f (cleanRune r) = false) toks →
  strings.FieldsFunc
    (strings.Join (map utf8.encodeRunes toks) (utf8.encodeRune sep)) f
  = map utf8.encodeRunes toks.
Proof.
  intros Hsep Hne Htoks. unfold strings.FieldsFunc.
  induction Htoks as [|tok toks [Htok Hfree] _ IH]; [done|].
  destruct toks as [|tok' toks].
  - cbn [map strings.Join].
    rewrite <- (app_nil_r (utf8.encodeRunes tok)) at 1.
    rewrite range_encodeRunes_app. by rewrite fieldsFrom_first_token.
  - cbn [map]. rewrite Join_cons by done.
    rewrite range_encodeRunes_app, range_encodeRune.
    rewrite fieldsFrom_first_token by done.
    cbn [strings.fieldsFrom]. rewrite Hsep. f_equal. by apply IH.
Qed.

Lemma encodeRune_head (r : Z) :
  r ≠ 0x2A%Z →
  ∃ c s, utf8.encodeRune r = c :: s ∧ c ≠ "*"%char.
Proof.
  intros Hr.
  assert (Hv : cleanRune r ≠ 0x2A%Z).
  { unfold cleanRune. case_decide; [done|]. by unfold utf8.RuneError. }
  rewrite encodeRune_clean. destruct (cleanRune_valid r) as [H0 Hs].
  set (v := cleanRune r) in *. clearbody v.
  assert (Hstar : ∀ z, (0 ≤ z < 256)%Z → z ≠ 0x2A%Z → byte z ≠ "*"%char).
  { intros z Hz Hne Heq. apply (f_equal byteZ) in Heq.
    rewrite byteZ_byte in Heq by done. by apply Hne. }
  destruct (Z.le_gt_cases v 0x7F).
  { rewrite encodeRune_1 by lia. eexists _, _. split; [done|].
    apply Hstar; lia. }
  destruct (Z.le_gt_cases v 0x7FF).
  { rewrite encodeRune_2 by lia. eexists _, _. split; [done|].
    apply Hstar; dlia. }
  destruct (Z.le_gt_cases v 0xFFFF).
  { rewrite encodeRune_3 by lia. eexists _, _. split; [done|].
    apply Hstar; dlia. }
  rewrite encodeRune_4 by lia. eexists _, _. split; [done|].
  apply Hstar; dlia.
Qed.

(** X14: a rule line [<k1<k2<...<kn] of keys that hold none of the separators
    (space, [<], [=], ['], and no [*] at the front) stores the keys without
    their U+FE0F code points, unlike a [<*] line, under [n] consecutive ranks
    from the counter on, in the order of the line. *)
Theorem rule_line_keys (toks : list (list Z)) (tbl : gmap gostring Z)
    (count : Z) :
  toks ≠ [] →
  Forall (λ tok, tok ≠ []
                 ∧ ∀ r, r ∈ tok → generate.isRuleSep (cleanRune r) = false)
         toks →
  head (concat toks) ≠ Some 0x2A%Z →
  (0 ≤ count)%Z → (count + Z.of_nat (length toks) ≤ maxInt)%Z →
  generate.collationLine (tbl, count)
    (str "<" ++ strings.Join (map utf8.encodeRunes toks) (str "<"))
  = Ret (generate.withRanks tbl
           (map (λ tok, utf8.encodeRunes (filter (λ r, r ≠ 0xFE0F%Z) tok)) toks)
           count,
         (count + Z.of_nat (length toks))%Z).
Proof.
  intros Hne Htoks Hhead Hcount Hmax.
  set (text := strings.Join (map utf8.encodeRunes toks) (str "<")).
  assert (Hstar : strings.HasPrefix (str "<" ++ text) (str "<*") = false).
  { destruct toks as [|tok toks]; [done|].
    pose proof (Forall_inv Htoks) as [Htok _]. destruct tok as [|r tok]; [done|].
    cbn [concat app head] in Hhead.
    destruct (encodeRune_head r) as (c & s & Hr & Hc); [congruence|].
    assert (∃ s', text = c :: s') as [s' ->].
    { unfold text. cbn [map]. destruct toks as [|tok' toks].
      - cbn [strings.Join]. rewrite encodeRunes_cons, Hr. by eexists.
      - rewrite Join_cons by done. rewrite encodeRunes_cons, Hr. by eexists. }
    change (str "<" ++ c :: s') with ("<"%char :: c :: s').
    change (str "<*") with ["<"%char; "*"%char].
    cbn [strings.HasPrefix]. destruct (Ascii.eqb_spec "*" c); [by subst|done]. }
  unfold generate.collationLine. rewrite Hstar.
  change (str "<" ++ text) with ("<"%char :: text).
  change (strings.HasPrefix ("<"%char :: text) (str "#")) with false.
  change (strings.HasPrefix ("<"%char :: text) (str "&")) with false.
  rewrite bool_decide_eq_false_2 by done. cbn [orb].
  assert (strings.HasPrefix ("<"%char :: text) (str "<") = true) as ->.
  { cbn. by destruct text. }
  unfold generate.ruleKeys. cbn [drop]. rewrite drop_0. unfold text.
  change (str "<") with (utf8.encodeRune 0x3C).
  rewrite FieldsFunc_Join by done.
  rewrite map_map.
  rewrite (map_ext _ (λ tok, utf8.encodeRunes (filter (λ r, r ≠ 0xFE0F%Z) tok))).
  2: { intros tok. unfold generate.removePresentationSelector, strings.ReplaceAll.
       apply replaceLoop_selector, length_encodeRunes. }
  rewrite foldl_assign by (rewrite ?length_map; lia).
  by rewrite length_map.
Qed.

Lemma rule_line_keys_witness :
  let toks := [[0x263A; 0xFE0F]; [0x1F600]]%Z in
  let tbl : gmap gostring Z := {[str "a" := 1%Z]} in
  (toks ≠ []
   ∧ Forall (λ tok, tok ≠ []
                    ∧ ∀ r, r ∈ tok → generate.isRuleSep (cleanRune r) = false)
            toks
   ∧ head (concat toks) ≠ Some 0x2A%Z
   ∧ (0 ≤ 2)%Z ∧ (2 + Z.of_nat (length toks) ≤ maxInt)%Z)
  ∧ generate.collationLine (tbl, 2%Z)
      (str "<" ++ strings.Join (map utf8.encodeRunes toks) (str "<"))
    = Ret (generate.withRanks tbl
             [utf8.encodeRunes [0x263A%Z]; utf8.encodeRunes [0x1F600%Z]] 2,
           4%Z).
Proof.
  intros toks tbl.
  assert (H1 : toks ≠ []) by done.
  assert (H2 : Forall (λ tok, tok ≠ []
                 ∧ ∀ r, r ∈ tok → generate.isRuleSep (cleanRune r) = false)
                 toks).
  { repeat constructor; try done; intros r Hr;
      repeat (apply elem_of_cons in Hr as [->|Hr]; [by vm_compute|]);
      by apply elem_of_nil in Hr. }
  assert (H3 : head (concat toks) ≠ Some 0x2A%Z) by done.
  assert (H4 : (0 ≤ 2)%Z) by lia.
  assert (H5 : (2 + Z.of_nat (length toks) ≤ maxInt)%Z)
    by (vm_compute; discriminate).
  split; [exact (conj H1 (conj H2 (conj H3 (conj H4 H5))))|].
  exact (rule_line_keys toks tbl 2 H1 H2 H3 H4 H5).
Defined.

(** *** The pointer map of [annotationsInFile] as a map from keys to records *)

Lemma recordAt_step (h0 : generate.store)
    (st : gmap gostring nat * generate.store)
    (annotation : generate.xmlAnnotation) (key : gostring) :
  generate.ownsPointers h0 st →
  recordAt (generate.annotationStep st annotation) key
  = if decide (generate.CP annotation = key)
    then Some (generate.updateOf annotation
                 (default zeroAnnotation (recordAt st key)))
    else recordAt st key.
Proof.
  destruct st as [m h]. intros (Hlen & Hvalid & Hinj). cbn [fst snd] in *.
  unfold recordAt.
  destruct (annotationStep_cases m h annotation) as [(p & Hp & ->)|[Hnone ->]];
    cbn [fst snd generate.new].
  - case_decide as Hkey.
    + subst key. rewrite Hp. cbn [mbind option_bind].
      destruct (lookup_lt_is_Some_2 h p) as [a Ha]; [apply Hvalid in Hp; lia|].
      by rewrite list_lookup_alter_eq, Ha.
    + destruct (m !! key) as [q|] eqn:Hq; [|done]. cbn [mbind option_bind].
      rewrite list_lookup_alter_ne; [done|].
      intros ->. apply Hkey. by apply (Hinj _ _ q).
  - case_decide as Hkey.
    + subst key. rewrite lookup_insert_eq, Hnone. cbn [mbind option_bind default].
      rewrite list_lookup_alter_eq, lookup_app_r, Nat.sub_diag by lia. done.
    + rewrite lookup_insert_ne by done.
      destruct (m !! key) as [q|] eqn:Hq; [|done]. cbn [mbind option_bind].
      assert (q < length h)%nat by (apply Hvalid in Hq; lia).
      rewrite list_lookup_alter_ne by lia. by rewrite lookup_app_l.
Qed.

Lemma filter_CP_nil (key : gostring) (elems : list generate.xmlAnnotation) :
  key ∉ map generate.CP elems →
  filter (λ annotation, generate.CP annotation = key) elems = [].
Proof.
  induction elems as [|a elems IH]; [done|]. cbn [map].
  intros [Ha Helems]%not_elem_of_cons.
  rewrite filter_cons_False by done. by apply IH.
Qed.

Lemma recordAt_foldl (h0 : generate.store) (key : gostring)
    (elems : list generate.xmlAnnotation) :
  ∀ st : gmap gostring nat * generate.store,
    generate.ownsPointers h0 st →
    recordAt (foldl generate.annotationStep st elems) key
    = if decide (key ∈ map generate.CP elems)
      then Some (updatesOf key elems (default zeroAnnotation (recordAt st key)))
      else recordAt st key.
Proof.
  unfold updatesOf.
  induction elems as [|a elems IH]; intros st Hst.
  - cbn [foldl map]. rewrite decide_False; [done|]. apply not_elem_of_nil.
  - cbn [foldl map]. rewrite IH by (by apply annotationStep_owns).
    rewrite (recordAt_step h0) by done.
    destruct (decide (generate.CP a = key)) as [Ha|Ha].
    + rewrite (decide_True (P := key ∈ generate.CP a :: _)) by (subst; left).
      rewrite filter_cons_True by done. cbn [foldl default].
      case_decide as Hin; [done|].
      by rewrite filter_CP_nil.
    + rewrite filter_cons_False by done.
      case_decide as Hin.
      * by rewrite decide_True by (by right).
      * rewrite decide_False; [done|].
        intros [?|?]%elem_of_cons; [by subst|done].
Qed.

Lemma annotationStep_prefix (h0 : generate.store)
    (st : gmap gostring nat * generate.store)
    (annotation : generate.xmlAnnotation) :
  generate.ownsPointers h0 st →
  take (length h0) (generate.annotationStep st annotation).2
  = take (length h0) st.2.
Proof.
  destruct st as [m h]. intros (Hlen & Hvalid & Hinj). cbn [fst snd] in *.
  destruct (annotationStep_cases m h annotation) as [(p & Hp & ->)|[Hnone ->]];
    cbn [fst snd generate.new].
  - apply take_alter_ge. apply Hvalid in Hp. lia.
  - rewrite take_alter_ge by lia. by rewrite take_app_le.
Qed.

Lemma foldl_annotationStep_prefix (h0 : generate.store)
    (elems : list generate.xmlAnnotation) :
  ∀ st : gmap gostring nat * generate.store,
    generate.ownsPointers h0 st →
    take (length h0) (foldl generate.annotationStep st elems).2
    = take (length h0) st.2.
Proof.
  induction elems as [|a elems IH]; intros st Hst; [done|].
  cbn [foldl]. rewrite IH by (by apply annotationStep_owns).
  by apply annotationStep_prefix.
Qed.

Lemma foldl_annotationStep_dom (key : gostring)
    (elems : list generate.xmlAnnotation) :
  ∀ st : gmap gostring nat * generate.store,
    is_Some ((foldl generate.annotationStep st elems).1 !! key)
    ↔ is_Some (st.1 !! key) ∨ key ∈ map generate.CP elems.
Proof.
  induction elems as [|a elems IH]; intros st.
  - cbn [foldl map]. rewrite elem_of_nil. tauto.
  - cbn [foldl map]. rewrite IH, elem_of_cons. destruct st as [m h].
    destruct (annotationStep_cases m h a) as [(p & Hp & ->)|[Hnone ->]];
      cbn [fst].
    + split; [tauto|]. intros [?|[->|?]]; eauto.
    + rewrite lookup_insert_is_Some'. split.
      * intros [[->|?]|?]; eauto.
      * intros [?|[->|?]]; eauto.
Qed.

Lemma annotationStep_size (h0 : generate.store)
    (st : gmap gostring nat * generate.store)
    (annotation : generate.xmlAnnotation) :
  (length st.2 = length h0 + size st.1)%nat →
  (length (generate.annotationStep st annotation).2
   = length h0 + size (generate.annotationStep st annotation).1)%nat.
Proof.
  destruct st as [m h]. cbn [fst snd]. intros Hsize.
  destruct (annotationStep_cases m h annotation) as [(p & Hp & ->)|[Hnone ->]];
    cbn [fst snd generate.new].
  - by rewrite length_alter.
  - rewrite length_alter, length_app, map_size_insert_None by done.
    cbn [length]. lia.
Qed.

(** X9: [annotationsInFile] over a store gives every [cp] of the file one
    record of its own: the keys of the map are the [cp] values of the
    elements, the loop allocates one record for each of them after the
    records the store held, and leaves those as they were. *)
Theorem annotationsInFile_allocates (elems : list generate.xmlAnnotation)
    (h0 : generate.store) :
  ∃ m h,
    generate.annotationsInFile (generate.Parsed elems) h0 = Ret (m, h)
    ∧ (∀ key, is_Some (m !! key) ↔ key ∈ map generate.CP elems)
    ∧ (∀ key p, m !! key = Some p → (length h0 ≤ p < length h)%nat)
    ∧ (∀ k1 k2 p, m !! k1 = Some p → m !! k2 = Some p → k1 = k2)
    ∧ length h = (length h0 + size m)%nat
    ∧ take (length h0) h = h0.
Proof.
  cbn [generate.annotationsInFile].
  destruct (foldl generate.annotationStep (∅, h0) elems) as [m h] eqn:Hrun.
  exists m, h. split; [done|].
  pose proof (foldl_annotationStep_owns h0 elems _ (ownsPointers_empty h0))
    as Howns.
  rewrite Hrun in Howns. destruct Howns as (Hlen & Hvalid & Hinj).
  cbn [fst snd] in *.
  split_and!; [|done|done| |].
  - intros key. pose proof (foldl_annotationStep_dom key elems (∅, h0)) as Hdom.
    rewrite Hrun in Hdom. cbn [fst] in Hdom. rewrite Hdom, lookup_empty.
    split; [intros [[? ?]|?]; done|by right].
  - assert (Hsize : ∀ (es : list generate.xmlAnnotation)
                      (st : gmap gostring nat * generate.store),
              (length st.2 = length h0 + size st.1)%nat →
              (length (foldl generate.annotationStep st es).2
               = length h0 + size (foldl generate.annotationStep st es).1)%nat).
    { induction es as [|a es IH]; intros st Hst; [done|].
      cbn [foldl]. by apply IH, annotationStep_size. }
    specialize (Hsize elems (∅, h0)). rewrite Hrun in Hsize. cbn [fst snd] in Hsize.
    apply Hsize. rewrite map_size_empty. lia.
  - pose proof (foldl_annotationStep_prefix h0 elems _ (ownsPointers_empty h0))
      as Hpre.
    rewrite Hrun in Hpre. cbn [snd] in Hpre. by rewrite Hpre, firstn_all.
Qed.

(** X7: the record [annotationsInFile] leaves for a [cp] is what the elements
    of that [cp] alone make of the zero record, applied in the order of the
    file: the elements of other keys, and the records the store held before,
    have no part in it; a key that no element names has no entry. *)
Theorem annotationsInFile_record (elems : list generate.xmlAnnotation)
    (h0 : generate.store) :
  ∃ st,
    generate.annotationsInFile (generate.Parsed elems) h0 = Ret st
    ∧ ∀ key,
        recordAt st key
        = if decide (key ∈ map generate.CP elems)
          then Some (foldl (λ a annotation, generate.updateOf annotation a)
                       {| generate.emojiAnnotation.name := [];
                          generate.emojiAnnotation.annotations := [] |}
                       (filter (λ annotation, generate.CP annotation = key)
                               elems))
          else None.
Proof.
  eexists. split; [done|]. intros key.
  rewrite (recordAt_foldl h0) by apply ownsPointers_empty.
  unfold recordAt, updatesOf. cbn [fst]. rewrite lookup_empty. done.
Qed.

Lemma updatesOf_name (elems : list generate.xmlAnnotation)
    (key : gostring) (a : generate.emojiAnnotation.t) (content : gostring) :
  generate.emojiAnnotation.name a = content →
  (∀ b, b ∈ elems → generate.CP b = key → generate.Type_ b ≠ str "tts") →
  generate.emojiAnnotation.name (updatesOf key elems a) = content.
Proof.
  unfold updatesOf. revert a.
  induction elems as [|b elems IH]; intros a Ha Hno; [done|].
  destruct (decide (generate.CP b = key)) as [Hb|Hb].
  - rewrite filter_cons_True by done. cbn [foldl]. apply IH.
    + unfold generate.updateOf.
      rewrite decide_False by (apply Hno; [left|done]). done.
    + intros b' Hb'. apply Hno. by right.
  - rewrite filter_cons_False by done. apply IH; [done|].
    intros b' Hb'. apply Hno. by right.
Qed.

Lemma updatesOf_app (key : gostring) (pre post : list generate.xmlAnnotation)
    (a : generate.emojiAnnotation.t) :
  updatesOf key (pre ++ post) a = updatesOf key post (updatesOf key pre a).
Proof. unfold updatesOf. by rewrite filter_app, foldl_app. Qed.

(** X8: the name of an emoji is the content of the last [tts] element of its
    [cp]: a [tts] element overwrites the name, and the name stays until
    another [tts] element of the same [cp] follows. *)
Theorem annotationsInFile_name (pre post : list generate.xmlAnnotation)
    (a : generate.xmlAnnotation) (h0 : generate.store)
    (m : gmap gostring nat) (h : generate.store) :
  generate.Type_ a = str "tts" →
  (∀ b, b ∈ post → generate.CP b = generate.CP a →
        generate.Type_ b ≠ str "tts") →
  generate.annotationsInFile (generate.Parsed (pre ++ a :: post)) h0
  = Ret (m, h) →
  ∃ p record,
    m !! generate.CP a = Some p ∧ h !! p = Some record
    ∧ generate.emojiAnnotation.name record = generate.Annotation a.
Proof.
  intros Htts Hpost Hrun. cbn [generate.annotationsInFile] in Hrun.
  injection Hrun as Hrun.
  pose proof (recordAt_foldl h0 (generate.CP a) (pre ++ a :: post) (∅, h0)
                (ownsPointers_empty h0)) as Hrec.
  rewrite Hrun in Hrec.
  rewrite decide_True in Hrec
    by (rewrite map_app; apply elem_of_app; right; left).
  unfold recordAt in Hrec. cbn [fst snd] in Hrec.
  destruct (m !! generate.CP a) as [p|]; [|done]. cbn [mbind option_bind] in Hrec.
  exists p. eexists. split; [done|]. split; [exact Hrec|].
  change (pre ++ a :: post) with (pre ++ [a] ++ post).
  rewrite !updatesOf_app. apply updatesOf_name; [|done].
  unfold updatesOf. rewrite filter_cons_True by done. cbn [filter foldl].
  unfold generate.updateOf. by rewrite decide_True.
Qed.

Lemma annotationsInFile_name_witness :
  let name := {| generate.CP := str "x"; generate.Type_ := str "tts";
                 generate.Annotation := str "grinning face" |} in
  let keywords := {| generate.CP := str "x"; generate.Type_ := [];
                     generate.Annotation := str "face | grin" |} in
  let m : gmap gostring nat := {[str "x" := 0%nat]} in
  let h := [{| generate.emojiAnnotation.name := str "grinning face";
               generate.emojiAnnotation.annotations := [str "face"; str "grin"] |}] in
  (generate.Type_ name = str "tts"
   ∧ (∀ b, b ∈ [keywords] → generate.CP b = generate.CP name →
           generate.Type_ b ≠ str "tts")
   ∧ generate.annotationsInFile (generate.Parsed ([] ++ name :: [keywords])) []
     = Ret (m, h))
  ∧ ∃ p record,
      m !! str "x" = Some p ∧ h !! p = Some record
      ∧ generate.emojiAnnotation.name record = str "grinning face".
Proof.
  intros name keywords m h.
  assert (H1 : generate.Type_ name = str "tts") by reflexivity.
  assert (H2 : ∀ b, b ∈ [keywords] → generate.CP b = generate.CP name →
                    generate.Type_ b ≠ str "tts").
  { intros b Hb%list_elem_of_singleton _. subst b. discriminate. }
  assert (H3 : generate.annotationsInFile
                 (generate.Parsed ([] ++ name :: [keywords])) []
               = Ret (m, h)) by (vm_compute; reflexivity).
  split; [exact (conj H1 (conj H2 H3))|].
  exact (annotationsInFile_name [] [keywords] name [] m h H1 H2 H3).
Defined.

(** *** The merged map of [annotations] *)

(** X10: in the map [annotations] returns, a [cp] that the derived file names
    has the record of the derived file, whole: what the primary file says
    about that [cp] is dropped, not merged.  Every other [cp] of the primary
    file keeps the record of the primary file, which the pass over the
    derived file has not touched. *)
Theorem annotations_record (annotationsEn annotationsDerivedEn
    : list generate.xmlAnnotation) :
  ∃ st,
    generate.annotations (generate.Parsed annotationsEn)
                         (generate.Parsed annotationsDerivedEn) []
    = Ret st
    ∧ ∀ key,
        let record elems :=
          foldl (λ a annotation, generate.updateOf annotation a)
            {| generate.emojiAnnotation.name := [];
               generate.emojiAnnotation.annotations := [] |}
            (filter (λ annotation, generate.CP annotation = key) elems) in
        recordAt st key
        = if decide (key ∈ map generate.CP annotationsDerivedEn)
          then Some (record annotationsDerivedEn)
          else if decide (key ∈ map generate.CP annotationsEn)
               then Some (record annotationsEn)
               else None.
Proof.
  unfold generate.annotations. cbn [generate.annotationsInFile mbind outcome_bind].
  destruct (foldl generate.annotationStep (∅, []) annotationsEn)
    as [m1 h1] eqn:Hen.
  destruct (foldl generate.annotationStep (∅, h1) annotationsDerivedEn)
    as [m2 h2] eqn:Hder.
  eexists. split; [done|]. intros key.
  pose proof (recordAt_foldl [] key annotationsEn (∅, [])
                (ownsPointers_empty [])) as Hrec1.
  pose proof (recordAt_foldl h1 key annotationsDerivedEn (∅, h1)
                (ownsPointers_empty h1)) as Hrec2.
  pose proof (foldl_annotationStep_dom key annotationsDerivedEn (∅, h1)) as Hdom.
  pose proof (foldl_annotationStep_owns [] annotationsEn _
                (ownsPointers_empty [])) as (_ & Hvalid1 & _).
  pose proof (foldl_annotationStep_prefix h1 annotationsDerivedEn _
                (ownsPointers_empty h1)) as Hpre.
  rewrite Hen in *. rewrite Hder in *. cbn [fst snd] in *.
  rewrite firstn_all in Hpre.
  unfold recordAt, updatesOf, zeroAnnotation in *. cbn [fst snd] in *.
  rewrite lookup_empty in *. cbn [mbind option_bind default] in *.
  destruct (decide (key ∈ map generate.CP annotationsDerivedEn)) as [Hin|Hnotin].
  - destruct (m2 !! key) as [p|] eqn:Hp; [|done].
    by rewrite (lookup_union_Some_l _ _ _ p).
  - assert (Hnone : m2 !! key = None).
    { apply eq_None_not_Some. rewrite Hdom. intros [[? ?]|?]; done. }
    rewrite lookup_union_r by done. rewrite <- Hrec1.
    destruct (m1 !! key) as [p|] eqn:Hp; [|done]. cbn [mbind option_bind].
    apply Hvalid1 in Hp.
    rewrite <- (lookup_take_lt h2 (length h1)) by lia. by rewrite Hpre.
Qed.

(** *** The panics of [generate] *)

Lemma modifierLines_panic (lines : list gostring) :
  ∀ (acc : list gostring) (p : panic),
    generate.modifierLines lines acc = Panic p → p = PanicMakeslice.
Proof.
  induction lines as [|line lines IH]; intros acc p; [done|].
  cbn [generate.modifierLines].
  destruct (generate.parseEmojiDataLine line) as [[emojis tag]| |q] eqn:Hline;
    cbn [mbind outcome_bind]; [apply IH|done|].
  intros [= <-]. by apply parseEmojiDataLine_panic_inv in Hline as [-> _].
Qed.

Lemma emojiLines_panic (lines : list gostring)
    (modifiers : gmap gostring bool) :
  ∀ (acc : list gostring) (p : panic),
    generate.emojiLines lines modifiers acc = Panic p → p = PanicMakeslice.
Proof.
  induction lines as [|line lines IH]; intros acc p; [done|].
  cbn [generate.emojiLines].
  destruct (generate.parseEmojiDataLine line) as [[emojis tag]| |q] eqn:Hline;
    cbn [mbind outcome_bind]; [apply IH|done|].
  intros [= <-]. by apply parseEmojiDataLine_panic_inv in Hline as [-> _].
Qed.

Lemma emojisInFile_panic (url : gostring) (resp : response)
    (modifiers : gmap gostring bool) (p : panic) :
  generate.emojisInFile url resp modifiers = Panic p → p = PanicMakeslice.
Proof.
  destruct resp as [| |lines scanErr]; cbn [generate.emojisInFile]; [done..|].
  destruct (generate.emojiLines lines modifiers []) as [emojis| |q] eqn:Hlines;
    cbn [mbind outcome_bind]; [by destruct scanErr|done|].
  intros [= <-]. by apply emojiLines_panic in Hlines.
Qed.

Lemma emojis_panic (dataResp seqResp zwjResp : response) (p : panic) :
  generate.emojis dataResp seqResp zwjResp = Panic p → p = PanicMakeslice.
Proof.
  unfold generate.emojis.
  destruct (generate.emojiModifiers dataResp) as [modifiers| |q0] eqn:Hmod;
    cbn [mbind outcome_bind]; [|done|].
  - destruct (generate.emojisInFile _ seqResp _) as [sequences| |q1] eqn:Hseq;
      cbn [mbind outcome_bind]; [|done|].
    + destruct (generate.emojisInFile _ zwjResp _) as [zwj| |q2] eqn:Hzwj;
        cbn [mbind outcome_bind]; [done|done|].
      intros [= <-]. by apply emojisInFile_panic in Hzwj.
    + intros [= <-]. by apply emojisInFile_panic in Hseq.
  - intros [= <-]. destruct dataResp as [| |lines scanErr];
      cbn [generate.emojiModifiers] in Hmod; [done..|].
    destruct (generate.modifierLines lines []) as [ms| |q3] eqn:Hlines;
      cbn [mbind outcome_bind] in Hmod; [by destruct scanErr|done|].
    injection Hmod as <-. by apply modifierLines_panic in Hlines.
Qed.

Lemma annotations_no_panic (annotationsEn annotationsDerivedEn
    : generate.zipEntry generate.xmlAnnotation) (h : generate.store)
    (p : panic) :
  generate.annotations annotationsEn annotationsDerivedEn h ≠ Panic p.
Proof.
  unfold generate.annotations.
  destruct annotationsEn; cbn [generate.annotationsInFile mbind outcome_bind];
    try done.
  destruct (foldl _ _ _) as [m1 h1].
  destruct annotationsDerivedEn;
    cbn [generate.annotationsInFile mbind outcome_bind]; try done.
  by destruct (foldl _ _ _).
Qed.

Lemma collationLines_no_panic (lines : list gostring) :
  ∀ (st : gmap gostring Z * Z) (p : panic),
    generate.collationLines st lines ≠ Panic p.
Proof.
  induction lines as [|line lines IH]; intros st p; [done|].
  cbn [generate.collationLines].
  destruct (acceptedLine line) eqn:Hline.
  - rewrite collationLine_accepted by done. cbn [mbind outcome_bind]. apply IH.
  - by rewrite collationLine_rejected.
Qed.

Lemma collationData_no_panic (file : generate.zipEntry generate.xmlCollation)
    (p : panic) :
  generate.collationData file ≠ Panic p.
Proof.
  destruct file as [| | |collations]; cbn [generate.collationData]; try done.
  case_decide; [done|]. unfold generate.collationTable.
  destruct (generate.collationLines _ _) as [[tbl count]| |q] eqn:Hlines;
    cbn [mbind outcome_bind]; [done..|].
  by apply collationLines_no_panic in Hlines.
Qed.

(** X19: [generate] never dereferences a nil pointer: every pointer of the
    merged annotation map points to a record, so the only panic the program
    can end in is the negative capacity of [make] in [parseEmojiDataLine],
    which happens while the emoji tables are read, before anything is
    printed. *)
Theorem generate_panic (dataResp seqResp zwjResp : response)
    (cldrResp : generate.cldrResponse) (stdout : gostring) (p : panic) :
  generate.generate dataResp seqResp zwjResp cldrResp = (stdout, Panic p) →
  p = PanicMakeslice ∧ stdout = []
  ∧ generate.emojis dataResp seqResp zwjResp = Panic PanicMakeslice.
Proof.
  unfold generate.generate.
  destruct (generate.load dataResp seqResp zwjResp cldrResp)
    as [[[emojis [annotations h]] collation]| |q] eqn:Hload.
  - apply load_inv in Hload
      as (annotationsEn & annotationsDerivedEn & collationRoot & -> & _ & Hann & _).
    pose proof (annotations_valid _ _ _ _ Hann) as Hvalid.
    destruct (printLoop_spec annotations h
                (generate.SortFunc (generate.cmpLe collation) emojis) h []
                (rendersAs_refl h))
      as (printed & rest & lines & h' & res & _ & _ & Hloop & Hstop).
    rewrite Hloop. intros [= <- ->]. exfalso.
    unfold generate.stopsAt in Hstop.
    destruct rest as [|emoji rest]; [done|].
    destruct (annotations !! _) as [q|] eqn:Hq; [|done].
    destruct Hstop as [Hnone _]. apply Hvalid in Hq as [a Ha]. congruence.
  - done.
  - intros [= <- <-]. unfold generate.load in Hload.
    destruct (generate.emojis dataResp seqResp zwjResp) as [emojis| |q0] eqn:He;
      cbn [mbind outcome_bind] in Hload.
    + destruct cldrResp as [| | | |annotationsEn annotationsDerivedEn root];
        try done.
      destruct (generate.annotations annotationsEn annotationsDerivedEn [])
        as [ann| |q1] eqn:Hann; cbn [mbind outcome_bind] in Hload.
      * destruct (generate.collationData root) as [coll| |q2] eqn:Hcoll;
          cbn [mbind outcome_bind] in Hload; [done..|].
        by apply collationData_no_panic in Hcoll.
      * done.
      * by apply annotations_no_panic in Hann.
    + done.
    + injection Hload as ->. pose proof (emojis_panic _ _ _ _ He) as ->. done.
Qed.

Lemma generate_panic_witness :
  let dataResp := Body [str "3..1;x"] None in
  generate.generate dataResp (Body [] None) (Body [] None)
    (generate.CldrStatus (str "404 Not Found"))
  = ([], Panic PanicMakeslice)
  ∧ generate.emojis dataResp (Body [] None) (Body [] None)
    = Panic PanicMakeslice.
Proof.
  intros dataResp.
  assert (H : generate.generate dataResp (Body [] None) (Body [] None)
                (generate.CldrStatus (str "404 Not Found"))
              = ([], Panic PanicMakeslice)) by (vm_compute; reflexivity).
  split; [exact H|].
  exact (proj2 (proj2 (generate_panic _ _ _ _ _ _ H))).
Defined.

(** *** The comparison [generate] sorts with *)

Lemma Compare_lt_trans (a b c : gostring) :
  (strings.Compare a b < 0)%Z → (strings.Compare b c < 0)%Z →
  (strings.Compare a c < 0)%Z.
Proof.
  intros Hab Hbc.
  assert (Hle : (strings.Compare a c ≤ 0)%Z) by (apply (Compare_trans a b c); lia).
  destruct (decide (strings.Compare a c = 0%Z)) as [Heq|]; [|lia].
  apply Compare_eq in Heq as ->. rewrite (Compare_flip c b) in Hbc. lia.
Qed.

(** X17: on a table built by [collationData] the comparison handed to
    [slices.SortFunc] is a consistent three-way comparison (the subtraction
    of the ranks cannot wrap around): it is zero for equal strings only, it
    changes sign when its arguments are swapped, and "less than" is
    transitive.  So it is the strict total order [slices.SortFunc] asks for. *)
Theorem cmp_strict_total_order (collation : gmap gostring Z) (e f g : gostring) :
  (∀ key rank, collation !! key = Some rank → (1 ≤ rank < maxInt)%Z) →
  (generate.cmp collation e f = 0%Z ↔ e = f)
  ∧ (generate.cmp collation e f < 0 ↔ 0 < generate.cmp collation f e)%Z
  ∧ ((generate.cmp collation e f < 0)%Z → (generate.cmp collation f g < 0)%Z →
     (generate.cmp collation e g < 0)%Z).
Proof.
  intros ranks. rewrite !(cmp_unfold collation ranks). cbn zeta.
  pose proof (Compare_flip e f). pose proof (Compare_eq e f).
  split_and!.
  - case_decide as Hn; [|split; [lia|]].
    + done.
    + intros ->. lia.
  - repeat case_decide; lia.
  - repeat case_decide; try lia. apply Compare_lt_trans.
Qed.

Lemma cmp_strict_total_order_witness :
  let collation : gmap gostring Z := <[str "b" := 2%Z]> {[str "a" := 1%Z]} in
  (∀ key rank, collation !! key = Some rank → (1 ≤ rank < maxInt)%Z)
  ∧ (generate.cmp collation (str "a") (str "b") < 0
     ↔ 0 < generate.cmp collation (str "b") (str "a"))%Z.
Proof.
  intros collation.
  assert (H : ∀ key rank, collation !! key = Some rank → (1 ≤ rank < maxInt)%Z).
  { intros key rank. unfold collation.
    destruct (decide (key = str "b")) as [->|Hb].
    - rewrite lookup_insert_eq. intros [= <-]. by vm_compute.
    - rewrite lookup_insert_ne by done.
      destruct (decide (key = str "a")) as [->|Ha].
      + rewrite lookup_singleton_eq. intros [= <-]. by vm_compute.
      + by rewrite lookup_singleton_ne. }
  split; [exact H|].
  exact (proj1 (proj2 (cmp_strict_total_order collation (str "a") (str "b")
                         (str "a") H))).
Defined.

(** *** [getCached] and [path.Base] *)

Lemma stripTrailingSlashes_cons (c : ascii) (s : gostring) :
  c ≠ "/"%char → path.stripTrailingSlashes (c :: s) = c :: s.
Proof.
  intros Hc. cbn [path.stripTrailingSlashes].
  by destruct (Ascii.eqb_spec c "/").
Qed.

Lemma untilSlash_app (name rest : gostring) :
  ("/"%char ∉ name) →
  path.untilSlash (name ++ "/"%char :: rest) = name.
Proof.
  induction name as [|c name IH]; intros Hname.
  - done.
  - apply not_elem_of_cons in Hname as [Hc Hname].
    cbn [app path.untilSlash].
    destruct (Ascii.eqb_spec c "/"); [done|]. by rewrite IH.
Qed.

Lemma Base_last_element (dir name : gostring) :
  name ≠ [] → ("/"%char ∉ name) →
  path.Base (dir ++ str "/" ++ name) = name.
Proof.
  intros Hne Hname. unfold path.Base.
  destruct (dir ++ str "/" ++ name) as [|c0 s0] eqn:Hpath.
  { by destruct dir. }
  rewrite <- Hpath. clear c0 s0 Hpath.
  rewrite !rev_app_distr. cbn [str String.list_ascii_of_string rev app].
  destruct (rev name) as [|c rn] eqn:Hrev.
  { apply (f_equal (@rev _)) in Hrev. rewrite rev_involutive in Hrev. done. }
  assert (Hin : "/"%char ∉ c :: rn).
  { intros Hin. apply Hname. apply list_elem_of_In, in_rev.
    rewrite Hrev. by apply list_elem_of_In. }
  rewrite <- app_assoc. cbn [app].
  rewrite stripTrailingSlashes_cons by (intros ->; apply Hin; left).
  change (c :: rn ++ "/"%char :: rev dir) with ((c :: rn) ++ "/"%char :: rev dir).
  rewrite untilSlash_app by done.
  rewrite <- Hrev, rev_involutive. by destruct name.
Qed.

(** X20: the file [getCached] answers with is named by the last element of the
    URL: for a URL that ends in [/name], a successful call of either variant
    returns [cacheDir/name]. *)
Theorem getCached_path (env : environment) (prefix name cacheDir : gostring)
    (fs fs0 fs1 : files) (p0 p1 : gostring) :
  name ≠ [] → ("/"%char ∉ name) →
  part_000.getCached env (prefix ++ str "/" ++ name) cacheDir fs
  = (fs0, (p0, None)) →
  part_001.getCached env (prefix ++ str "/" ++ name) cacheDir fs
  = (fs1, (p1, None)) →
  p0 = cacheDir ++ str "/" ++ name ∧ p1 = cacheDir ++ str "/" ++ name.
Proof.
  intros Hne Hname. unfold part_000.getCached, part_001.getCached.
  rewrite Base_last_element by done.
  destruct (statFinds env fs _); [intros; by simplify_eq|].
  destruct (getResult env) as [e|[[ok status] body]]; [done|].
  destruct ok; cbn [negb]; [|done].
  destruct (createError env), (mkdirAllError env); try done.
  destruct (copyResult env) as [written [cause|]]; [done|].
  destruct (closeError env); [done|]. intros; by simplify_eq.
Qed.

Lemma getCached_path_witness :
  let env := {| statOther := None;
                getResult := inr (true, str "200 OK", str "1F600 ; Emoji");
                mkdirAllError := None; createError := None;
                copyResult := (13%nat, None); closeError := None |} in
  let fs' : files := {[str "/cache/emoji-data.txt" := str "1F600 ; Emoji"]} in
  (str "emoji-data.txt" ≠ [] ∧ ("/"%char ∉ str "emoji-data.txt")
   ∧ part_000.getCached env (str "https://unicode.org" ++ str "/"
                             ++ str "emoji-data.txt") (str "/cache") ∅
     = (fs', (str "/cache/emoji-data.txt", None))
   ∧ part_001.getCached env (str "https://unicode.org" ++ str "/"
                             ++ str "emoji-data.txt") (str "/cache") ∅
     = (fs', (str "/cache/emoji-data.txt", None)))
  ∧ str "/cache/emoji-data.txt" = str "/cache" ++ str "/" ++ str "emoji-data.txt".
Proof.
  intros env fs'.
  assert (H1 : str "emoji-data.txt" ≠ []) by done.
  assert (H2 : "/"%char ∉ str "emoji-data.txt")
    by (apply not_elem_of_forallb; reflexivity).
  assert (H3 : part_000.getCached env (str "https://unicode.org" ++ str "/"
                 ++ str "emoji-data.txt") (str "/cache") ∅
               = (fs', (str "/cache/emoji-data.txt", None)))
    by (vm_compute; reflexivity).
  assert (H4 : part_001.getCached env (str "https://unicode.org" ++ str "/"
                 ++ str "emoji-data.txt") (str "/cache") ∅
               = (fs', (str "/cache/emoji-data.txt", None)))
    by (vm_compute; reflexivity).
  split; [exact (conj H1 (conj H2 (conj H3 H4)))|].
  exact (proj1 (getCached_path env _ _ _ _ _ _ _ _ H1 H2 H3 H4)).
Defined.

(** X21: [getCached] touches no file but the cache file of the URL: whatever
    the environment does and however the call ends, every other path holds
    after the call what it held before, in both variants. *)
Theorem getCached_other_files (env : environment) (url cacheDir : gostring)
    (fs : files) :
  let cachePath := cacheDir ++ str "/" ++ path.Base url in
  delete cachePath (part_000.getCached env url cacheDir fs).1
  = delete cachePath fs
  ∧ delete cachePath (part_001.getCached env url cacheDir fs).1
    = delete cachePath fs.
Proof.
  intros cachePath. unfold part_000.getCached, part_001.getCached.
  fold cachePath.
  destruct (statFinds env fs cachePath); [done|].
  destruct (getResult env) as [e|[[ok status] body]]; [done|].
  destruct ok; cbn [negb]; [|done].
  destruct (createError env), (mkdirAllError env),
    (copyResult env) as [written [cause|]], (closeError env);
    cbn [fst]; rewrite ?delete_delete_eq, ?delete_insert_eq, ?insert_insert_eq;
    rewrite ?delete_insert_eq; done.
Qed.

(** X22: what a success of the later variant means.  Either nothing was
    downloaded and the files are unchanged, because [os.Stat] did not report
    "not exist": it found a regular file, it found another entry such as a
    directory, or it failed for another reason.  Or [os.Stat] reported "not
    exist" and the complete body of a 200 response is stored under the cache
    path, which held no file before.  So the returned path holds a file for
    certain only when [os.Stat] answered from the regular files. *)
Theorem part_000_getCached_success (env : environment)
    (url cacheDir : gostring) (fs fs' : files) (p : gostring) :
  part_000.getCached env url cacheDir fs = (fs', (p, None)) →
  p = cacheDir ++ str "/" ++ path.Base url
  ∧ ((fs' = fs ∧ (is_Some (statOther env) ∨ is_Some (fs !! p)))
     ∨ (statOther env = None
        ∧ fs !! p = None
        ∧ ∃ status body, getResult env = inr (true, status, body)
                         ∧ fs' = <[p := body]> fs))
  ∧ (statOther env = None → is_Some (fs' !! p)).
Proof.
  unfold part_000.getCached, statFinds.
  set (cachePath := cacheDir ++ str "/" ++ path.Base url).
  destruct (statOther env) as [answer|] eqn:Hother.
  { intros; simplify_eq. split_and!; [done| |done]. left. eauto. }
  case_bool_decide as Hfound.
  { intros; simplify_eq. split_and!; [done| |done]. left. eauto. }
  apply eq_None_not_Some in Hfound.
  destruct (getResult env) as [e|[[ok status] body]]; [done|].
  destruct ok; cbn [negb]; [|done].
  destruct (mkdirAllError env); [done|].
  destruct (createError env); [done|].
  destruct (copyResult env) as [written [cause|]]; [done|].
  destruct (closeError env); [done|].
  intros; simplify_eq. rewrite insert_insert_eq. split_and!; [done| |].
  - right. split_and!; [done..|]. by eexists _, _.
  - intros _. by rewrite lookup_insert_eq.
Qed.

(** A directory at the cache path: the call succeeds and stores nothing. *)
Lemma part_000_getCached_success_witness :
  let env := {| statOther := Some StatNotRegular;
                getResult := inr (true, str "200 OK", str "1F600 ; Emoji");
                mkdirAllError := None; createError := None;
                copyResult := (13%nat, None); closeError := None |} in
  let url := str "https://unicode.org/emoji-data.txt" in
  part_000.getCached env url (str "/cache") ∅
  = (∅, (str "/cache/emoji-data.txt", None))
  ∧ str "/cache/emoji-data.txt" = str "/cache" ++ str "/" ++ path.Base url.
Proof.
  intros env url.
  assert (H : part_000.getCached env url (str "/cache") ∅
              = (∅, (str "/cache/emoji-data.txt", None)))
    by (vm_compute; reflexivity).
  split; [exact H|].
  exact (proj1 (part_000_getCached_success env url _ _ _ _ H)).
Defined.

(** X23: once a call has succeeded, every later call for a URL with the same
    last element is answered without a download: whatever [http.Get],
    [os.MkdirAll], [os.Create], the copy and [f.Close] would do, the files
    are unchanged and the same path is returned.  This holds for the same
    URL, and equally for another URL that ends in the same file name.  When
    [os.Stat] answered from the regular files in the first call, nothing is
    supposed of the later call; when it found a directory or failed, the
    later [os.Stat] is supposed not to answer from the regular files either
    (the directory is still there). *)
Theorem part_000_getCached_again (env env' : environment)
    (url url' cacheDir : gostring) (fs fs' : files) (p : gostring) :
  (is_Some (statOther env) → is_Some (statOther env')) →
  path.Base url' = path.Base url →
  part_000.getCached env url cacheDir fs = (fs', (p, None)) →
  part_000.getCached env' url' cacheDir fs' = (fs', (p, None)).
Proof.
  intros Hstat Hbase Hfirst.
  assert (Hp : p = cacheDir ++ str "/" ++ path.Base url
               ∧ (is_Some (statOther env') ∨ is_Some (fs' !! p))).
  { revert Hfirst. unfold part_000.getCached, statFinds.
    set (cachePath := cacheDir ++ str "/" ++ path.Base url).
    destruct (statOther env) as [answer|].
    { intros; simplify_eq. split; [done|]. left. apply Hstat. eauto. }
    case_bool_decide as Hfound.
    { intros; simplify_eq. split; [done|]. by right. }
    destruct (getResult env) as [e|[[ok status] body]]; [done|].
    destruct ok; cbn [negb]; [|done].
    destruct (mkdirAllError env); [done|].
    destruct (createError env); [done|].
    destruct (copyResult env) as [written [cause|]]; [done|].
    destruct (closeError env); [done|].
    intros; simplify_eq. split; [done|]. right. by rewrite lookup_insert_eq. }
  destruct Hp as [-> Hsome].
  unfold part_000.getCached. rewrite Hbase.
  assert (statFinds env' fs' (cacheDir ++ str "/" ++ path.Base url) = true) as ->.
  { unfold statFinds. destruct (statOther env') as [answer|]; [done|].
    destruct Hsome as [[answer [=]]|Hsome]. by apply bool_decide_eq_true. }
  done.
Qed.

Lemma part_000_getCached_again_witness :
  let env := {| statOther := None;
                getResult := inr (true, str "200 OK", str "1F600 ; Emoji");
                mkdirAllError := None; createError := None;
                copyResult := (13%nat, None); closeError := None |} in
  let env' := {| statOther := None;
                 getResult := inl (ErrIO (str "no route to host"));
                 mkdirAllError := None; createError := None;
                 copyResult := (0%nat, None); closeError := None |} in
  let url := str "https://unicode.org/16.0/emoji-data.txt" in
  let url' := str "https://example.org/emoji-data.txt" in
  let fs' : files := {[str "/cache/emoji-data.txt" := str "1F600 ; Emoji"]} in
  ((is_Some (statOther env) → is_Some (statOther env'))
   ∧ path.Base url' = path.Base url
   ∧ part_000.getCached env url (str "/cache") ∅
     = (fs', (str "/cache/emoji-data.txt", None)))
  ∧ part_000.getCached env' url' (str "/cache") fs'
    = (fs', (str "/cache/emoji-data.txt", None)).
Proof.
  intros env env' url url' fs'.
  assert (H1 : is_Some (statOther env) → is_Some (statOther env')) by done.
  assert (H2 : path.Base url' = path.Base url) by (vm_compute; reflexivity).
  assert (H3 : part_000.getCached env url (str "/cache") ∅
               = (fs', (str "/cache/emoji-data.txt", None)))
    by (vm_compute; reflexivity).
  split; [exact (conj H1 (conj H2 H3))|].
  exact (part_000_getCached_again env env' url url' _ _ _ _ H1 H2 H3).
Defined.

(** Witness of [part_000_getCached_error]: the write fails after 5 bytes. *)
Lemma part_000_getCached_error_witness :
  let env := {| statOther := None;
                getResult := inr (true, str "200 OK", str "1F600 ; Emoji");
                mkdirAllError := None; createError := None;
                copyResult := (5%nat, Some (str "disk full"));
                closeError := None |} in
  let url := str "https://unicode.org/emoji-data.txt" in
  let fs : files := {[str "/cache/other.txt" := str "x"]} in
  part_000.getCached env url (str "/cache") fs
  = (fs, ([], Some (ErrWrite (str "/cache/emoji-data.txt") (str "disk full"))))
  ∧ fs !! (str "/cache" ++ str "/" ++ path.Base url) = None.
Proof.
  intros env url fs.
  assert (H : part_000.getCached env url (str "/cache") fs
              = (fs, ([], Some (ErrWrite (str "/cache/emoji-data.txt")
                                         (str "disk full")))))
    by (vm_compute; reflexivity).
  split; [exact H|].
  exact (proj2 (part_000_getCached_error env url _ _ _ _ _ H)).
Defined.

(** *** The collation of the later variant *)

Lemma HasPrefix_true_iff (s p : gostring) :
  strings.HasPrefix s p = true ↔ ∃ t, s = p ++ t.
Proof.
  revert s. induction p as [|c p IH]; intros s.
  - rewrite HasPrefix_nil. split; [by exists s|done].
  - destruct s as [|x s]; cbn [strings.HasPrefix].
    + split; [done|]. by intros [t Ht].
    + rewrite andb_true_iff, IH. split.
      * intros [Hc [t ->]]. apply Ascii.eqb_eq in Hc as ->. by exists t.
      * intros [t [= -> ->]]. rewrite Ascii.eqb_refl. split; [done|by exists t].
Qed.

Lemma HasSuffix_true_iff (s p : gostring) :
  strings2.HasSuffix s p = true ↔ ∃ t, s = t ++ p.
Proof.
  unfold strings2.HasSuffix. rewrite andb_true_iff, bool_decide_eq_true. split.
  - intros [Hlen%Nat.leb_le Hdrop].
    exists (take (length s - length p) s).
    rewrite <- Hdrop at 2. by rewrite take_drop.
  - intros [t ->]. rewrite length_app. split; [apply Nat.leb_le; lia|].
    replace (length t + length p - length p)%nat with (length t) by lia.
    by rewrite drop_app_length.
Qed.

Lemma HasSuffix_rev (s p : gostring) :
  strings2.HasSuffix s p = strings.HasPrefix (rev s) (rev p).
Proof.
  apply eq_true_iff_eq. rewrite HasSuffix_true_iff, HasPrefix_true_iff. split.
  - intros [t ->]. exists (rev t). by rewrite rev_app_distr.
  - intros [t Ht]. exists (rev t). apply (f_equal (@rev _)) in Ht.
    by rewrite rev_involutive, rev_app_distr, rev_involutive in Ht.
Qed.

(** A string that ends in an encoded rune other than the joiner does not
    end in the joiner. *)
Lemma HasSuffix_ZWJ (pre : gostring) (r : Z) :
  cleanRune r ≠ 0x200D%Z →
  strings2.HasSuffix (pre ++ utf8.encodeRune r) collator.ZWJ = false.
Proof.
  intros Hr. rewrite HasSuffix_rev, rev_app_distr.
  rewrite encodeRune_clean. destruct (cleanRune_valid r) as [H0 Hs].
  set (v := cleanRune r) in *. clearbody v.
  unfold collator.ZWJ. cbn [rev app].
  assert (Hne : ∀ z z', (0 ≤ z < 256)%Z → (0 ≤ z' < 256)%Z → z ≠ z' →
            Ascii.eqb (byte z') (byte z) = false).
  { intros z z' Hz Hz' Hzz. destruct (Ascii.eqb_spec (byte z') (byte z)) as [Heq|];
      [|done].
    apply (f_equal byteZ) in Heq. rewrite !byteZ_byte in Heq by done. lia. }
  destruct (Z.le_gt_cases v 0x7F).
  { rewrite encodeRune_1 by lia. cbn [rev app strings.HasPrefix].
    by rewrite Hne by lia. }
  destruct (Z.le_gt_cases v 0x7FF).
  { rewrite encodeRune_2 by lia. cbn [rev app strings.HasPrefix].
    rewrite (Hne (192 + v / 64)%Z 0x80%Z) by dlia.
    by rewrite andb_false_r. }
  destruct (Z.le_gt_cases v 0xFFFF).
  { rewrite encodeRune_3 by lia. cbn [rev app strings.HasPrefix].
    destruct (decide (v mod 64 = 13)%Z) as [Hm2|Hm2];
      [|by rewrite (Hne (128 + v mod 64)%Z 0x8D%Z) by dlia].
    destruct (decide ((v / 64) mod 64 = 0)%Z) as [Hm1|Hm1];
      [|by rewrite (Hne (128 + (v / 64) mod 64)%Z 0x80%Z), andb_false_r by dlia].
    rewrite (Hne (224 + v / 4096)%Z 0xE2%Z) by dlia.
    by rewrite !andb_false_r. }
  rewrite encodeRune_4 by lia. cbn [rev app strings.HasPrefix].
  rewrite (Hne (128 + (v / 4096) mod 64)%Z 0xE2%Z) by dlia.
  by rewrite !andb_false_r.
Qed.

Lemma filter_snoc_selector (base : list Z) (tone : Z) :
  tone ≠ 0xFE0F%Z →
  filter (λ r, r ≠ 0xFE0F%Z) (base ++ [tone])
  = filter (λ r, r ≠ 0xFE0F%Z) base ++ [tone].
Proof. intros Htone. by rewrite filter_app, filter_cons_True. Qed.

(** X25: an emoji with a trailing modifier sorts with its base.  When the
    last code point of an emoji is ignorable (a skin tone of the
    [& [last primary ignorable]] line) and what stands before it, without
    U+FE0F and not ending in a joiner, is a key of the table, the function
    returns the rank of that key. *)
Theorem collate_trailing_modifier (ignorable : gmap Z bool)
    (collation : gmap gostring Z) (base : list Z) (last tone : Z) (n : Z) :
  let stripped := filter (λ r, r ≠ 0xFE0F%Z) (base ++ [last]) in
  last ≠ 0xFE0F%Z → cleanRune last ≠ 0x200D%Z →
  tone ≠ 0xFE0F%Z → collator.isIgnorable ignorable (cleanRune tone) = true →
  collation !! utf8.encodeRunes stripped = Some n →
  collator.collate ignorable collation
    (utf8.encodeRunes (base ++ [last] ++ [tone]))
  = Some n.
Proof.
  intros stripped Hlast Hjoin Htone Hign Hkey. unfold collator.collate.
  unfold generate.removePresentationSelector, strings.ReplaceAll.
  rewrite replaceLoop_selector by apply length_encodeRunes.
  rewrite app_assoc, filter_snoc_selector by done. fold stripped.
  rewrite encodeRunes_app, encodeRunes_singleton.
  rewrite DecodeLastRuneInString_encodeRune, Hign.
  assert (Hne : utf8.encodeRunes stripped ≠ []).
  { rewrite encodeRunes_nil_iff. unfold stripped.
    rewrite filter_snoc_selector by done. by destruct (filter _ base). }
  assert ((length (utf8.encodeRune tone)
           <? length (utf8.encodeRunes stripped ++ utf8.encodeRune tone))%nat
          = true) as ->.
  { apply Nat.ltb_lt. rewrite length_app.
    destruct (utf8.encodeRunes stripped); [done|]. cbn [length]. lia. }
  cbn [andb]. rewrite length_app.
  replace (length (utf8.encodeRunes stripped) + length (utf8.encodeRune tone)
           - length (utf8.encodeRune tone))%nat
    with (length (utf8.encodeRunes stripped)) by lia.
  rewrite take_app_length. unfold strings2.TrimSuffix.
  assert (strings2.HasSuffix (utf8.encodeRunes stripped) collator.ZWJ = false)
    as ->.
  { unfold stripped. rewrite filter_snoc_selector by done.
    rewrite encodeRunes_app, encodeRunes_singleton. by apply HasSuffix_ZWJ. }
  by rewrite Hkey.
Qed.

Lemma collate_trailing_modifier_witness :
  let ignorable : gmap Z bool := {[0x1F3FB%Z := true]} in
  let collation : gmap gostring Z := {[utf8.encodeRunes [0x1F44D%Z] := 7%Z]} in
  (0x1F44D%Z ≠ 0xFE0F%Z ∧ cleanRune 0x1F44D ≠ 0x200D%Z
   ∧ 0x1F3FB%Z ≠ 0xFE0F%Z
   ∧ collator.isIgnorable ignorable (cleanRune 0x1F3FB) = true
   ∧ collation !! utf8.encodeRunes
                    (filter (λ r, r ≠ 0xFE0F%Z) ([0xFE0F%Z] ++ [0x1F44D%Z]))
     = Some 7%Z)
  ∧ collator.collate ignorable collation
      (utf8.encodeRunes ([0xFE0F%Z] ++ [0x1F44D%Z] ++ [0x1F3FB%Z]))
    = Some 7%Z.
Proof.
  intros ignorable collation.
  assert (H1 : 0x1F44D%Z ≠ 0xFE0F%Z) by done.
  assert (H2 : cleanRune 0x1F44D ≠ 0x200D%Z) by (by vm_compute).
  assert (H3 : 0x1F3FB%Z ≠ 0xFE0F%Z) by done.
  assert (H4 : collator.isIgnorable ignorable (cleanRune 0x1F3FB) = true)
    by (vm_compute; reflexivity).
  assert (H5 : collation !! utf8.encodeRunes
                 (filter (λ r, r ≠ 0xFE0F%Z) ([0xFE0F%Z] ++ [0x1F44D%Z]))
               = Some 7%Z) by (vm_compute; reflexivity).
  split; [exact (conj H1 (conj H2 (conj H3 (conj H4 H5))))|].
  exact (collate_trailing_modifier ignorable collation [0xFE0F%Z] 0x1F44D
           0x1F3FB 7 H1 H2 H3 H4 H5).
Defined.

Lemma collate_rank (ignorable : gmap Z bool) (collation : gmap gostring Z)
    (emoji : gostring) (n : Z) :
  collator.collate ignorable collation emoji = Some n →
  ∃ key, collation !! key = Some n.
Proof.
  unfold collator.collate.
  destruct (utf8.DecodeLastRuneInString _) as [lastRune size].
  match goal with |- context [collation !! ?k] =>
    destruct (collation !! k) as [n1|] eqn:H1; [intros [= <-]; by eauto|] end.
  match goal with |- context [collation !! strings2.TrimRight ?a ?b] =>
    destruct (collation !! strings2.TrimRight a b) as [n2|] eqn:H2;
      [intros [= <-]; by eauto|] end.
  destruct (utf8.DecodeRuneInString emoji) as [firstRune w]. eauto.
Qed.

(** X26: the function never gives up on an emoji whose first code point is a
    key of the table, and what it returns is always a rank of the table. *)
Theorem collate_first_codepoint (ignorable : gmap Z bool)
    (collation : gmap gostring Z) (r : Z) (rest : list Z) :
  is_Some (collation !! utf8.encodeRune r) →
  ∃ n key,
    collator.collate ignorable collation (utf8.encodeRunes (r :: rest))
    = Some n
    ∧ collation !! key = Some n.
Proof.
  intros [n Hn]. unfold collator.collate.
  destruct (utf8.DecodeLastRuneInString _) as [lastRune size].
  match goal with |- context [collation !! ?k] =>
    destruct (collation !! k) as [n1|] eqn:H1; [by eauto|] end.
  match goal with |- context [collation !! strings2.TrimRight ?a ?b] =>
    destruct (collation !! strings2.TrimRight a b) as [n2|] eqn:H2;
      [by eauto|] end.
  rewrite encodeRunes_cons, DecodeRuneInString_encodeRune.
  rewrite encodeRunes_singleton, <- encodeRune_clean. eauto.
Qed.

Lemma collate_first_codepoint_witness :
  let collation : gmap gostring Z := {[utf8.encodeRune 0x1F468%Z := 4%Z]} in
  is_Some (collation !! utf8.encodeRune 0x1F468%Z)
  ∧ ∃ n key,
      collator.collate ∅ collation (utf8.encodeRunes [0x1F468; 0x200D; 0x1F467]%Z)
      = Some n
      ∧ collation !! key = Some n.
Proof.
  intros collation.
  assert (H : is_Some (collation !! utf8.encodeRune 0x1F468%Z))
    by (exists 4%Z; apply lookup_singleton_eq).
  split; [exact H|].
  exact (collate_first_codepoint ∅ collation 0x1F468 [0x200D; 0x1F467]%Z H).
Defined.

(** *** The ignorable runes *)

Lemma markIgnorable_spec (line : gostring) (ignorable : gmap Z bool) (r : Z) :
  collator.isIgnorable (collator.markIgnorable ignorable line) r = true
  ↔ collator.isIgnorable ignorable r = true ∨ r ∈ runes line.
Proof.
  unfold collator.markIgnorable, runes.
  revert ignorable. induction (utf8.range line) as [|x xs IH]; intros ignorable.
  - cbn [foldl map]. rewrite elem_of_nil. tauto.
  - cbn [foldl map]. rewrite IH, elem_of_cons. unfold collator.isIgnorable.
    destruct (decide (r = x.1)) as [->|Hne].
    + rewrite lookup_insert_eq. cbn. tauto.
    + rewrite lookup_insert_ne by done. tauto.
Qed.

Lemma collationLine_ignorable (st st' : gmap Z bool * gmap gostring Z * Z)
    (line : gostring) (r : Z) :
  collator.collationLine st line = Ret st' →
  collator.isIgnorable st'.1.1 r = true
  ↔ collator.isIgnorable st.1.1 r = true
    ∨ (strings.HasPrefix line collator.ignorablePrefix = true
       ∧ r ∈ runes (drop (length collator.ignorablePrefix) line)).
Proof.
  destruct st as [[ignorable collation] count].
  unfold collator.collationLine, strings2.CutPrefix.
  set (marked := if strings.HasPrefix line collator.ignorablePrefix
                 then _ else _).
  assert (Hmarked : collator.isIgnorable
                      (let (line', found) := marked in
                       if found then collator.markIgnorable ignorable line'
                       else ignorable) r = true
    ↔ collator.isIgnorable ignorable r = true
      ∨ (strings.HasPrefix line collator.ignorablePrefix = true
         ∧ r ∈ runes (drop (length collator.ignorablePrefix) line))).
  { unfold marked. destruct (strings.HasPrefix line _).
    - rewrite markIgnorable_spec. tauto.
    - split; [by left|]. by intros [?|[? _]]. }
  destruct (_ || _); [by intros [= <-]|].
  destruct (strings.HasPrefix line (str "<*")).
  { destruct (foldl _ _ _). by intros [= <-]. }
  destruct (strings.HasPrefix line (str "<")); [|done].
  destruct (foldl _ _ _). by intros [= <-].
Qed.

Lemma collationLines_ignorable (lines : list gostring) (r : Z) :
  ∀ st st' : gmap Z bool * gmap gostring Z * Z,
    collator.collationLines st lines = Ret st' →
    collator.isIgnorable st'.1.1 r = true
    ↔ collator.isIgnorable st.1.1 r = true
      ∨ ∃ line, line ∈ lines
                ∧ strings.HasPrefix line collator.ignorablePrefix = true
                ∧ r ∈ runes (drop (length collator.ignorablePrefix) line).
Proof.
  induction lines as [|line lines IH]; intros st st'.
  - cbn. intros [= <-]. split; [by left|]. intros [?|(l & []%elem_of_nil & _)].
    done.
  - cbn [collator.collationLines].
    destruct (collator.collationLine st line) as [st1| |] eqn:Hline; [|done..].
    cbn [mbind outcome_bind]. intros Hrest.
    rewrite (IH _ _ Hrest), (collationLine_ignorable _ _ _ _ Hline). split.
    + intros [[?|[? ?]]|(l & Hl & ? & ?)]; [by left| |].
      * right. exists line. split; [left|done].
      * right. exists l. split; [by right|done].
    + intros [?|(l & [->|Hl]%elem_of_cons & ? & ?)]; [by left; left| |].
      * left. by right.
      * right. by exists l.
Qed.

(** X27: the ignorable runes are those of the [& [last primary ignorable]<<*]
    lines: after [collationData] a rune is ignorable exactly when it is one
    of the runes that follow this prefix on some line of the rules. *)
Theorem collationData_ignorable (collations : list generate.xmlCollation)
    (ignorable : gmap Z bool) (collation : gmap gostring Z) (r : Z) :
  collator.collationData (generate.Parsed collations)
  = Ret (ignorable, collation) →
  collator.isIgnorable ignorable r = true
  ↔ ∃ line,
      line ∈ strings.Split (generate.emojiCollationOf collations) [byte 0x0A]
      ∧ strings.HasPrefix line (str "& [last primary ignorable]<<*") = true
      ∧ r ∈ runes (drop 29 line).
Proof.
  cbn [collator.collationData]. case_decide; [done|].
  destruct (collator.collationLines _ _) as [[[ign coll] count]| |] eqn:Hlines;
    [|done..].
  cbn [mbind outcome_bind]. intros [= <- <-].
  rewrite (collationLines_ignorable _ r _ _ Hlines). cbn [fst].
  unfold collator.isIgnorable. rewrite lookup_empty. cbn [default].
  change (length collator.ignorablePrefix) with 29%nat.
  change collator.ignorablePrefix with (str "& [last primary ignorable]<<*").
  split; [by intros [?|?]|by right].
Qed.

Lemma collationData_ignorable_witness :
  let collations :=
    [{| generate.CollationType := str "emoji";
        generate.CR := str "& [last primary ignorable]<<*"
                       ++ utf8.encodeRunes [0x1F3FB%Z] ++ [byte 0x0A]
                       ++ str "<*ab" |}] in
  let ignorable : gmap Z bool := {[0x1F3FB%Z := true]} in
  let collation : gmap gostring Z := <[str "b" := 2%Z]> {[str "a" := 1%Z]} in
  collator.collationData (generate.Parsed collations)
  = Ret (ignorable, collation)
  ∧ ∃ line,
      line ∈ strings.Split (generate.emojiCollationOf collations) [byte 0x0A]
      ∧ strings.HasPrefix line (str "& [last primary ignorable]<<*") = true
      ∧ 0x1F3FB%Z ∈ runes (drop 29 line).
Proof.
  intros collations ignorable collation.
  assert (H : collator.collationData (generate.Parsed collations)
              = Ret (ignorable, collation)) by (vm_compute; reflexivity).
  split; [exact H|].
  apply (proj1 (collationData_ignorable collations ignorable collation
                  0x1F3FB H)).
  vm_compute. reflexivity.
Defined.

(** *** The comparison of the later variant *)

Lemma countLoop_range (n : nat) :
  ∀ s substr : gostring, (0 ≤ strings2.countLoop n s substr ≤ Z.of_nat n)%Z.
Proof.
  induction n as [|n IH]; intros s substr; cbn [strings2.countLoop]; [lia|].
  destruct (strings.Index s substr) as [i|]; [|lia].
  specialize (IH (drop (i + length substr) s) substr). lia.
Qed.

Lemma Count_range (s substr : gostring) :
  (0 ≤ strings2.Count s substr ≤ Z.of_nat (length s))%Z.
Proof. apply countLoop_range. Qed.

Lemma slices_Compare_encodeRunes (a b : list Z) :
  slices.Compare (runes (utf8.encodeRunes a)) (runes (utf8.encodeRunes b))
  = strings.Compare (utf8.encodeRunes a) (utf8.encodeRunes b).
Proof. by rewrite !runes_encodeRunes, Compare_encodeRunes. Qed.

Section part_000_cmp.

Variable ignorable : gmap Z bool.
Variable collation : gmap gostring Z.
Hypothesis ranks :
  ∀ key rank, collation !! key = Some rank → (1 ≤ rank < maxInt)%Z.

Lemma part_000_cmp_unfold (a b : list Z) (x y : Z) :
  let e := utf8.encodeRunes a in
  let f := utf8.encodeRunes b in
  (Z.of_nat (length e) ≤ maxInt)%Z → (Z.of_nat (length f) ≤ maxInt)%Z →
  collator.collate ignorable collation e = Some x →
  collator.collate ignorable collation f = Some y →
  collator.cmp ignorable collation e f
  = Some (if decide (x - y = 0)%Z then
            let n := (strings2.Count e collator.ZWJ
                      - strings2.Count f collator.ZWJ)%Z in
            if decide (n = 0)%Z then strings.Compare e f else n
          else (x - y)%Z).
Proof using ranks.
  intros e f He Hf Hx Hy. unfold collator.cmp. rewrite Hx, Hy.
  cbn [mbind option_bind].
  destruct (collate_rank _ _ _ _ Hx) as [kx Hkx%ranks].
  destruct (collate_rank _ _ _ _ Hy) as [ky Hky%ranks].
  pose proof (Count_range e collator.ZWJ).
  pose proof (Count_range f collator.ZWJ).
  rewrite !wrap64_small by (unfold maxInt in *; lia). cbn zeta.
  unfold e, f. rewrite slices_Compare_encodeRunes. fold e f.
  destruct (Z.eqb_spec (x - y) 0); cbn [negb];
    [rewrite decide_True by done|by rewrite decide_False by done].
  destruct (Z.eqb_spec (strings2.Count e collator.ZWJ
                        - strings2.Count f collator.ZWJ) 0); cbn [negb];
    [by rewrite decide_True by done|by rewrite decide_False by done].
Qed.

End part_000_cmp.

(** X28: the comparison the later variant sorts with (ranks, then the number of
    joiners, then the code points) is a consistent three-way comparison on
    emoji that classify: on strings built from code points, with ranks as
    [collationData] assigns them, it is zero for equal strings only, it
    changes sign when its arguments are swapped, and "less than" is
    transitive.  So the sorted output does not depend on the order the emoji
    were read in. *)
Theorem part_000_cmp_strict_total_order (ignorable : gmap Z bool)
    (collation : gmap gostring Z) (a b c : list Z) :
  let e := utf8.encodeRunes a in
  let f := utf8.encodeRunes b in
  let g := utf8.encodeRunes c in
  (∀ key rank, collation !! key = Some rank → (1 ≤ rank < maxInt)%Z) →
  (Z.of_nat (length e) ≤ maxInt)%Z → (Z.of_nat (length f) ≤ maxInt)%Z →
  (Z.of_nat (length g) ≤ maxInt)%Z →
  is_Some (collator.collate ignorable collation e) →
  is_Some (collator.collate ignorable collation f) →
  is_Some (collator.collate ignorable collation g) →
  ∃ ef fe fg eg,
    collator.cmp ignorable collation e f = Some ef
    ∧ collator.cmp ignorable collation f e = Some fe
    ∧ collator.cmp ignorable collation f g = Some fg
    ∧ collator.cmp ignorable collation e g = Some eg
    ∧ (ef = 0%Z ↔ e = f)
    ∧ (ef < 0 ↔ 0 < fe)%Z
    ∧ ((ef < 0)%Z → (fg < 0)%Z → (eg < 0)%Z).
Proof.
  intros e f g ranks He Hf Hg [x Hx] [y Hy] [z Hz].
  eexists _, _, _, _.
  split; [by apply (part_000_cmp_unfold ignorable collation ranks a b x y)|].
  split; [by apply (part_000_cmp_unfold ignorable collation ranks b a y x)|].
  split; [by apply (part_000_cmp_unfold ignorable collation ranks b c y z)|].
  split; [by apply (part_000_cmp_unfold ignorable collation ranks a c x z)|].
  fold e f g. cbn zeta.
  pose proof (Compare_flip e f). pose proof (Compare_eq e f).
  split_and!.
  - clearbody e f g. repeat case_decide; [done| |]; (split; [lia|]).
    + intros ->. lia.
    + intros ->. rewrite Hx in Hy. injection Hy as ->. lia.
  - repeat case_decide; lia.
  - repeat case_decide; try lia. apply Compare_lt_trans.
Qed.

Lemma part_000_cmp_strict_total_order_witness :
  let collation : gmap gostring Z :=
    <[utf8.encodeRunes [0x1F469%Z] := 2%Z]> {[utf8.encodeRunes [0x1F468%Z] := 1%Z]} in
  let ignorable : gmap Z bool := {[0x1F3FB%Z := true]} in
  let e := utf8.encodeRunes [0x1F468%Z] in
  let f := utf8.encodeRunes [0x1F468; 0x200D; 0x1F467]%Z in
  let g := utf8.encodeRunes [0x1F469; 0x1F3FB]%Z in
  ((∀ key rank, collation !! key = Some rank → (1 ≤ rank < maxInt)%Z)
   ∧ (Z.of_nat (length e) ≤ maxInt)%Z ∧ (Z.of_nat (length f) ≤ maxInt)%Z
   ∧ (Z.of_nat (length g) ≤ maxInt)%Z
   ∧ is_Some (collator.collate ignorable collation e)
   ∧ is_Some (collator.collate ignorable collation f)
   ∧ is_Some (collator.collate ignorable collation g))
  ∧ ∃ ef fe fg eg,
      collator.cmp ignorable collation e f = Some ef
      ∧ collator.cmp ignorable collation f e = Some fe
      ∧ collator.cmp ignorable collation f g = Some fg
      ∧ collator.cmp ignorable collation e g = Some eg
      ∧ (ef = 0%Z ↔ e = f)
      ∧ (ef < 0 ↔ 0 < fe)%Z
      ∧ ((ef < 0)%Z → (fg < 0)%Z → (eg < 0)%Z).
Proof.
  intros collation ignorable e f g.
  assert (H : ∀ key rank, collation !! key = Some rank → (1 ≤ rank < maxInt)%Z).
  { intros key rank. unfold collation.
    destruct (decide (key = utf8.encodeRunes [0x1F469%Z])) as [->|Hb].
    - rewrite lookup_insert_eq. intros [= <-]. by vm_compute.
    - rewrite lookup_insert_ne by done.
      destruct (decide (key = utf8.encodeRunes [0x1F468%Z])) as [->|Ha].
      + rewrite lookup_singleton_eq. intros [= <-]. by vm_compute.
      + by rewrite lookup_singleton_ne. }
  assert (He : (Z.of_nat (length e) ≤ maxInt)%Z) by (vm_compute; discriminate).
  assert (Hf : (Z.of_nat (length f) ≤ maxInt)%Z) by (vm_compute; discriminate).
  assert (Hg : (Z.of_nat (length g) ≤ maxInt)%Z) by (vm_compute; discriminate).
  assert (Hce : is_Some (collator.collate ignorable collation e))
    by (exists 1%Z; vm_compute; reflexivity).
  assert (Hcf : is_Some (collator.collate ignorable collation f))
    by (exists 1%Z; vm_compute; reflexivity).
  assert (Hcg : is_Some (collator.collate ignorable collation g))
    by (exists 2%Z; vm_compute; reflexivity).
  split; [exact (conj H (conj He (conj Hf (conj Hg (conj Hce (conj Hcf Hcg))))))|].
  exact (part_000_cmp_strict_total_order ignorable collation
           [0x1F468%Z] [0x1F468; 0x200D; 0x1F467]%Z [0x1F469; 0x1F3FB]%Z
           H He Hf Hg Hce Hcf Hcg).
Defined.

(** *** U+200D in a string of encoded runes *)

Lemma ZWJ_encode : collator.ZWJ = utf8.encodeRune 0x200D.
Proof. by vm_compute. Qed.

Lemma HasPrefix_joiner_lead (c : ascii) (s : gostring) :
  byteZ c ≠ 0xE2%Z → strings.HasPrefix (c :: s) collator.ZWJ = false.
Proof.
  intros Hc. unfold collator.ZWJ. cbn [strings.HasPrefix].
  destruct (Ascii.eqb_spec (byte 0xE2) c) as [<-|]; [|done].
  by rewrite byteZ_byte in Hc by lia.
Qed.

Lemma HasPrefix_joiner_bytes (c0 c1 c2 : ascii) (s : gostring) :
  ¬ (byteZ c0 = 0xE2 ∧ byteZ c1 = 0x80 ∧ byteZ c2 = 0x8D)%Z →
  strings.HasPrefix (c0 :: c1 :: c2 :: s) collator.ZWJ = false.
Proof.
  intros Hc. unfold collator.ZWJ. cbn [strings.HasPrefix].
  destruct (Ascii.eqb_spec (byte 0xE2) c0) as [<-|]; [|done].
  destruct (Ascii.eqb_spec (byte 0x80) c1) as [<-|]; [|done].
  destruct (Ascii.eqb_spec (byte 0x8D) c2) as [<-|]; [|done].
  rewrite !byteZ_byte in Hc by lia. tauto.
Qed.

Lemma Index_joiner_step (c : ascii) (s : gostring) :
  strings.HasPrefix (c :: s) collator.ZWJ = false →
  strings.Index (c :: s) collator.ZWJ
  = S <$> strings.Index s collator.ZWJ.
Proof. intros H. cbn [strings.Index]. by rewrite H. Qed.

Lemma Index_joiner_byte (c : ascii) (s : gostring) :
  byteZ c ≠ 0xE2%Z →
  strings.Index (c :: s) collator.ZWJ = S <$> strings.Index s collator.ZWJ.
Proof. intros. by apply Index_joiner_step, HasPrefix_joiner_lead. Qed.

Lemma Index_joiner_rune (r : Z) (rest : gostring) :
  r ≠ 0x200D%Z →
  strings.Index (utf8.encodeRune r ++ rest) collator.ZWJ
  = (λ i, length (utf8.encodeRune r) + i)%nat
    <$> strings.Index rest collator.ZWJ.
Proof.
  intros Hr.
  assert (Hv : cleanRune r ≠ 0x200D%Z).
  { unfold cleanRune. case_decide; [done|]. by unfold utf8.RuneError. }
  rewrite encodeRune_clean. destruct (cleanRune_valid r) as [H0 Hs].
  set (v := cleanRune r) in *. clearbody v.
  destruct (Z.le_gt_cases v 0x7F).
  { rewrite encodeRune_1 by lia. cbn [app length].
    rewrite Index_joiner_byte by (rewrite byteZ_byte by lia; lia).
    by destruct (strings.Index rest _). }
  destruct (Z.le_gt_cases v 0x7FF).
  { rewrite encodeRune_2 by lia. cbn [app length].
    rewrite !Index_joiner_byte by (rewrite byteZ_byte by dlia; dlia).
    by destruct (strings.Index rest _). }
  destruct (Z.le_gt_cases v 0xFFFF).
  { rewrite encodeRune_3 by lia. cbn [app length].
    rewrite Index_joiner_step.
    2: { apply HasPrefix_joiner_bytes. rewrite !byteZ_byte by dlia. dlia. }
    rewrite !Index_joiner_byte by (rewrite byteZ_byte by dlia; dlia).
    by destruct (strings.Index rest _). }
  rewrite encodeRune_4 by lia. cbn [app length].
  rewrite !Index_joiner_byte by (rewrite byteZ_byte by dlia; dlia).
  by destruct (strings.Index rest _).
Qed.

Lemma Index_joiner_runes (rs : list Z) (rest : gostring) :
  (0x200D%Z ∉ rs) →
  strings.Index (utf8.encodeRunes rs ++ rest) collator.ZWJ
  = (λ i, length (utf8.encodeRunes rs) + i)%nat
    <$> strings.Index rest collator.ZWJ.
Proof.
  induction rs as [|r rs IH]; intros Hrs.
  - cbn. by destruct (strings.Index rest _).
  - apply not_elem_of_cons in Hrs as [Hr Hrs].
    rewrite encodeRunes_cons, <- app_assoc, Index_joiner_rune, IH by done.
    rewrite length_app. destruct (strings.Index rest _); cbn; [|done].
    f_equal. lia.
Qed.

Lemma Index_joiner_none (rs : list Z) :
  (0x200D%Z ∉ rs) → strings.Index (utf8.encodeRunes rs) collator.ZWJ = None.
Proof.
  intros Hrs. rewrite <- (app_nil_r (utf8.encodeRunes rs)).
  by rewrite Index_joiner_runes.
Qed.

Lemma Index_joiner_first (pre post : list Z) :
  (0x200D%Z ∉ pre) →
  strings.Index (utf8.encodeRunes (pre ++ 0x200D%Z :: post)) collator.ZWJ
  = Some (length (utf8.encodeRunes pre)).
Proof.
  intros Hpre. rewrite encodeRunes_app, Index_joiner_runes by done.
  rewrite encodeRunes_cons, <- ZWJ_encode.
  assert (strings.Index (collator.ZWJ ++ utf8.encodeRunes post) collator.ZWJ
          = Some 0%nat) as ->.
  { apply Index_app_self. by unfold collator.ZWJ. }
  cbn [fmap option_fmap option_map]. f_equal. lia.
Qed.

Lemma filter_none {A : Type} (P : A → Prop) `{∀ x, Decision (P x)} (l : list A) :
  (∀ x, x ∈ l → ¬ P x) → filter P l = [].
Proof.
  induction l as [|x l IH]; intros Hl; [done|].
  rewrite filter_cons_False by (apply Hl; left).
  apply IH. intros y Hy. apply Hl. by right.
Qed.

Lemma countLoop_joiners (n : nat) :
  ∀ rs : list Z, (length rs ≤ n)%nat →
    strings2.countLoop n (utf8.encodeRunes rs) collator.ZWJ
    = Z.of_nat (length (filter (λ r, r = 0x200D%Z) rs)).
Proof.
  induction n as [|k IH]; intros rs Hn.
  - destruct rs; [done|cbn in Hn; lia].
  - cbn [strings2.countLoop].
    destruct (decide (0x200D%Z ∈ rs)) as [Hin|Hnotin].
    + apply list_elem_of_split_l in Hin as (pre & post & -> & Hpre).
      rewrite Index_joiner_first by done.
      rewrite encodeRunes_app, encodeRunes_cons, <- ZWJ_encode.
      replace (length (utf8.encodeRunes pre) + length collator.ZWJ)%nat
        with (length (utf8.encodeRunes pre ++ collator.ZWJ))
        by (by rewrite length_app).
      rewrite app_assoc, drop_app_length.
      rewrite IH by (rewrite length_app in Hn; cbn in Hn; lia).
      rewrite filter_app, filter_cons_True by done.
      rewrite (filter_none _ pre) by (intros x Hx ->; done).
      cbn [app length]. lia.
    + rewrite Index_joiner_none by done.
      by rewrite filter_none by (intros x Hx ->; done).
Qed.

(** X29: the second key of the comparison counts code points: on a string
    built from code points, [strings.Count(e, "\u200d")] is the number of
    the code points U+200D, so the bytes E2 80 8D are never found across
    the boundary of two other code points. *)
Theorem Count_joiners (rs : list Z) :
  strings2.Count (utf8.encodeRunes rs) collator.ZWJ
  = Z.of_nat (length (filter (λ r, r = 0x200D%Z) rs)).
Proof. apply countLoop_joiners, length_encodeRunes. Qed.

(** * The rank counter of [collationData] *)



